(** * Dodecahedron.c: half-space extraction and slab ray casting

    A shallow embedding of [src/Dodecahedron.c].  The program computes with
    C [double]s and [int]s.  Every function of the source is written once,
    over an interface [Double] that lists the arithmetic the source uses.

    - [Binary64] interprets the interface as IEEE 754 binary64 with
      round-to-nearest-even, through the kernel's primitive floats.  This
      is what the compiled program computes (each operation rounded on its
      own, no fused multiply-add), and the statements about the program
      are statements about this interpretation.
    - [Exact] interprets it as the real numbers, an arithmetic in which no
      operation rounds.  Some facts of the control flow are stated there
      as well, next to their binary64 versions.

    What depends on the control flow alone is proved once, for every
    interpretation.  What depends on the arithmetic is proved for
    [Binary64]: by evaluation at the inputs of [main], and for all inputs
    from the specification of the operations ([SpecFloat]): rounding is
    monotone, it keeps signs, the comparison is a total order on the
    numbers, the magnitude of a sum or a product is bounded by that of its
    operands, and each operation moves the real result by at most a unit
    in the last place.  Where the source calls [cos] and [sin] of [math.h],
    the functions are parameters, and what a statement needs of them is a
    hypothesis.

    C arrays are maps from an index to a value; an [int] is a [Z].  The
    counters of the source never leave the range of [int]: [count] stays
    below [maxPlanes] before it is incremented, and a loop index stays below
    its bound. *)

From Stdlib Require Import ZArith List Bool Lia FinFun.
From Stdlib Require Import Floats.
From Stdlib Require Import Reals Lra Ring.
From Stdlib Require Import QArith Qabs.
Import ListNotations.

(** ** The arithmetic of the source *)

Class Double (num : Type) : Type := {
  fadd : num -> num -> num;
  fsub : num -> num -> num;
  fmul : num -> num -> num;
  fdiv : num -> num -> num;
  fneg : num -> num;
  (** [sqrt] and [fabs] of [math.h] *)
  fsqrt : num -> num;
  fabs : num -> num;
  (** [a < b] and [a <= b] *)
  flt : num -> num -> bool;
  fle : num -> num -> bool;
  (** conversion of an [int] to [double] *)
  of_int : Z -> num;
  (** the cast [(int) x]: truncation towards zero; [None] when the value
      does not fit an [int], where C leaves the behaviour undefined *)
  to_int : num -> option Z;
  (** the literals of the source that are not integers *)
  lit_1e_6 : num;
  lit_1e_3 : num;
  lit_0_5 : num
}.

Declare Scope dbl_scope.
Delimit Scope dbl_scope with D.
Infix "+" := fadd : dbl_scope.
Infix "-" := fsub : dbl_scope.
Infix "*" := fmul : dbl_scope.
Infix "/" := fdiv : dbl_scope.
Notation "- x" := (fneg x) : dbl_scope.
Infix "<?" := flt : dbl_scope.
Infix "<=?" := fle : dbl_scope.
Notation "x >? y" := (flt y x) (only parsing) : dbl_scope.
Notation "x >=? y" := (fle y x) (only parsing) : dbl_scope.

(** C arrays: [a i] is [a[i]]. *)
Definition array (T : Type) : Type := Z -> T.

Definition upd {T : Type} (a : array T) (i : Z) (x : T) : array T :=
  fun j => if Z.eqb j i then x else a j.

Definition of_list {T : Type} (dflt : T) (l : list T) : array T :=
  fun i => if Z.ltb i 0 then dflt else nth (Z.to_nat i) l dflt.

(** The values [lo, lo+1, ..., hi-1] of a loop
    [for (int i = lo; i < hi; i++)], in order. *)
Definition range (lo hi : Z) : list Z :=
  map (fun n => (lo + Z.of_nat n)%Z) (seq 0 (Z.to_nat (hi - lo))).

Definition INT_MIN : Z := (- 2 ^ 31)%Z.
Definition INT_MAX : Z := (2 ^ 31 - 1)%Z.

Section Program.

Context {num : Type} {D : Double num}.
Local Open Scope dbl_scope.

Definition WINDOW_WIDTH : Z := 800.
Definition WINDOW_HEIGHT : Z := 600.
Definition NUM_VERTICES : Z := 20.
Definition TOL : num := lit_1e_6.
Definition MAX_PLANES : Z := 30.

Record Vec3 : Type := mkVec3 { vx : num; vy : num; vz : num }.

Record Plane : Type := mkPlane { pn : Vec3; pd : num }.

Definition phi : num := (of_int 1 + fsqrt (of_int 5)) / of_int 2.
Definition invphi : num := of_int 1 / phi.

Definition baseVertices : list Vec3 :=
  let i := of_int in
  [ mkVec3 (i (-1)%Z) (i (-1)%Z) (i (-1)%Z); mkVec3 (i (-1)%Z) (i (-1)%Z) (i 1%Z);
    mkVec3 (i (-1)%Z) (i 1%Z) (i (-1)%Z);    mkVec3 (i (-1)%Z) (i 1%Z) (i 1%Z);
    mkVec3 (i 1%Z) (i (-1)%Z) (i (-1)%Z);    mkVec3 (i 1%Z) (i (-1)%Z) (i 1%Z);
    mkVec3 (i 1%Z) (i 1%Z) (i (-1)%Z);       mkVec3 (i 1%Z) (i 1%Z) (i 1%Z);
    mkVec3 (i 0%Z) (- invphi) (- phi);       mkVec3 (i 0%Z) (- invphi) phi;
    mkVec3 (i 0%Z) invphi (- phi);           mkVec3 (i 0%Z) invphi phi;
    mkVec3 (- phi) (i 0%Z) (- invphi);       mkVec3 (- phi) (i 0%Z) invphi;
    mkVec3 phi (i 0%Z) (- invphi);           mkVec3 phi (i 0%Z) invphi;
    mkVec3 (- invphi) (- phi) (i 0%Z);       mkVec3 (- invphi) phi (i 0%Z);
    mkVec3 invphi (- phi) (i 0%Z);           mkVec3 invphi phi (i 0%Z) ].

(** *** Vector math *)

Definition dot (a b : Vec3) : num :=
  vx a * vx b + vy a * vy b + vz a * vz b.

Definition cross (a b : Vec3) : Vec3 :=
  mkVec3 (vy a * vz b - vz a * vy b)
         (vz a * vx b - vx a * vz b)
         (vx a * vy b - vy a * vx b).

Definition length (v : Vec3) : num := fsqrt (dot v v).

Definition normalize (v : Vec3) : Vec3 :=
  let len := length v in
  if len <? TOL then v
  else mkVec3 (vx v / len) (vy v / len) (vz v / len).

Definition add (a b : Vec3) : Vec3 :=
  mkVec3 (vx a + vx b) (vy a + vy b) (vz a + vz b).

Definition subtract (a b : Vec3) : Vec3 :=
  mkVec3 (vx a - vx b) (vy a - vy b) (vz a - vz b).

Definition scale (v : Vec3) (s : num) : Vec3 :=
  mkVec3 (vx v * s) (vy v * s) (vz v * s).

(** [cos] and [sin] come from [math.h]; they are parameters of [rotate]. *)
Section Rotation.

Variables cos sin : num -> num.

Definition rotate (v : Vec3) (angle : num) : Vec3 :=
  let cosA := cos angle in
  let sinA := sin angle in
  let x := cosA * vx v + sinA * vz v in
  let z := (- sinA) * vx v + cosA * vz v in
  let y := vy v in
  let cosB := cos (angle * lit_0_5) in
  let sinB := sin (angle * lit_0_5) in
  let y2 := cosB * y - sinB * z in
  let z2 := sinB * y + cosB * z in
  mkVec3 x y2 z2.

(** The loop of [main] that fills [rotatedPlanes] from [basePlanes]. *)
Definition rotatePlanes (basePlanes : array Plane) (numPlanes : Z)
    (angle : num) (rotatedPlanes : array Plane) : array Plane :=
  fold_left
    (fun rotated i =>
       upd rotated i (mkPlane (rotate (pn (basePlanes i)) angle)
                              (pd (basePlanes i))))
    (range 0 numPlanes) rotatedPlanes.

End Rotation.

(** The loop of [main] that fills [scaledVertices]. *)
Definition modelScale : num := lit_0_5.

Definition scaledVertices : list Vec3 :=
  map (fun v => scale v modelScale) baseVertices.

(** *** The half-space extractor *)

(** The loop over [m]: the flags [(allBelow, allAbove)]. *)
Definition sideFlags (vertices : array Vec3) (numVertices : Z)
    (n : Vec3) (d : num) : bool * bool :=
  fold_left
    (fun flags m =>
       let side := dot n (vertices m) - d in
       let allBelow := if side >? TOL then false else fst flags in
       let allAbove := if side <? - TOL then false else snd flags in
       (allBelow, allAbove))
    (range 0 numVertices) (true, true).

(** The test of the duplicate scan, for the accepted plane [q] and the
    candidate [(n, d)]. *)
Definition isDuplicate (q : Plane) (n : Vec3) (d : num) : bool :=
  (fabs (dot (pn q) n - of_int 1) <? lit_1e_3)
  && (fabs (pd q - d) <? lit_1e_3).

(** The state of [computeBasePlanes]: the array [planes] and [count]. *)
Definition extractor : Type := (array Plane * Z)%type.

(** No two of the [count] planes of a state pass the duplicate test: with
    the earlier plane in the place of the accepted one, as the scan
    compares them, and for any two distinct planes in either place. *)
Definition noDuplicatesInOrder (st : extractor) : Prop :=
  forall p q, (0 <= p < q)%Z -> (q < snd st)%Z ->
    isDuplicate (fst st p) (pn (fst st q)) (pd (fst st q)) = false.

Definition noDuplicates (st : extractor) : Prop :=
  forall p q, (0 <= p < snd st)%Z -> (0 <= q < snd st)%Z -> p <> q ->
    isDuplicate (fst st p) (pn (fst st q)) (pd (fst st q)) = false.

(** The body of the innermost loop, for one triple [i < j < k]. *)
Definition tryTriple (vertices : array Vec3) (numVertices maxPlanes : Z)
    (i j k : Z) (st : extractor) : extractor :=
  let (planes, count) := st in
  let v1 := subtract (vertices j) (vertices i) in
  let v2 := subtract (vertices k) (vertices i) in
  let n := cross v1 v2 in
  if length n <? TOL then st
  else
    let n := normalize n in
    let d := dot n (vertices i) in
    let (allBelow, allAbove) := sideFlags vertices numVertices n d in
    if negb (allBelow || allAbove) then st
    else
      let n' := if allAbove then scale n (of_int (-1)) else n in
      let d' := if allAbove then - d else d in
      let duplicate :=
        existsb (fun p => isDuplicate (planes p) n' d') (range 0 count) in
      if negb duplicate && Z.ltb count maxPlanes
      then (upd planes count (mkPlane n' d'), (count + 1)%Z)
      else st.

Definition computeBasePlanes (vertices : array Vec3) (numVertices : Z)
    (planes : array Plane) (maxPlanes : Z) : extractor :=
  fold_left
    (fun st i =>
       fold_left
         (fun st j =>
            fold_left
              (fun st k => tryTriple vertices numVertices maxPlanes i j k st)
              (range (j + 1) numVertices) st)
         (range (i + 1) numVertices) st)
    (range 0 numVertices) (planes, 0%Z).

(** The call of [main]: the extractor on the 20 scaled vertices, with the
    array [basePlanes] of [MAX_PLANES] entries. *)
Definition mainBasePlanes (basePlanes : array Plane) : extractor :=
  computeBasePlanes
    (of_list (mkVec3 (of_int 0) (of_int 0) (of_int 0)) scaledVertices)
    NUM_VERTICES basePlanes MAX_PLANES.

(** *** The ray tracer: the body of the pixel loops of [main] *)

Definition camPos : Vec3 := mkVec3 (of_int 0) (of_int 0) (of_int (-5)).
Definition scaleFactor : num := of_int 300.
Definition halfWidth : num := of_int WINDOW_WIDTH / of_int 2.
Definition halfHeight : num := of_int WINDOW_HEIGHT / of_int 2.
Definition lightDir : Vec3 :=
  normalize (mkVec3 (of_int 1) (of_int 1) (of_int (-1))).

Definition rayDir (x y : Z) : Vec3 :=
  let u := (of_int x - halfWidth) / scaleFactor in
  let v := (halfHeight - of_int y) / scaleFactor in
  normalize (mkVec3 u v (of_int 5)).

(** The literal [1e9]; it is an integer that fits an [int] and a [double]. *)
Definition lit_1e9 : num := of_int 1000000000.

(** The variables of the slab loop. *)
Record slab : Type := mkSlab {
  tNear : num;
  tFar : num;
  activePlaneIndex : Z
}.

Definition slabInit : slab := mkSlab (- lit_1e9) lit_1e9 (-1).

(** The crossing parameter of the ray from [camPos] with plane [q]. *)
Definition denomOf (q : Plane) (dir : Vec3) : num := dot (pn q) dir.
Definition crossing (q : Plane) (dir : Vec3) : num :=
  (pd q - dot (pn q) camPos) / denomOf q dir.

(** One iteration of the loop over the planes. *)
Definition slabStep (planes : array Plane) (dir : Vec3) (s : slab) (i : Z)
    : slab :=
  let denom := denomOf (planes i) dir in
  if fabs denom <? TOL then s
  else
    let t := crossing (planes i) dir in
    if denom <? of_int 0 then
      if t >? tNear s then mkSlab t (tFar s) i else s
    else
      if t <? tFar s then mkSlab (tNear s) t (activePlaneIndex s) else s.

Definition slabLoop (planes : array Plane) (numPlanes : Z) (dir : Vec3)
    : slab :=
  fold_left (slabStep planes dir) (range 0 numPlanes) slabInit.

(** [tNear > tFar || tFar < 0] *)
Definition missed (s : slab) : bool :=
  (tNear s >? tFar s) || (tFar s <? of_int 0).

Definition BACKGROUND : Z := 0x00FF00.

Definition tHit (s : slab) : num :=
  if tNear s >=? of_int 0 then tNear s else tFar s.

Definition hitPoint (dir : Vec3) (s : slab) : Vec3 :=
  add camPos (scale dir (tHit s)).

Definition fallbackNormal : Vec3 := mkVec3 (of_int 0) (of_int 0) (of_int 1).

Definition surfNormal (planes : array Plane) (s : slab) : Vec3 :=
  if Z.leb 0 (activePlaneIndex s) then pn (planes (activePlaneIndex s))
  else fallbackNormal.

(** [diff], after [if (diff < 0) diff = 0]. *)
Definition diffuse (normal : Vec3) : num :=
  let diff := dot normal lightDir in
  if diff <? of_int 0 then of_int 0 else diff.

(** [c], after [if (c > 255) c = 255]; [None] when the cast is undefined. *)
Definition intensity (normal : Vec3) : option Z :=
  match to_int (diffuse normal * of_int 255) with
  | Some c => Some (if Z.ltb 255 c then 255%Z else c)
  | None => None
  end.

(** [0x000000 | (c << 16) | (c << 8) | c], stored in a [uint32_t]. *)
Definition packColor (c : Z) : Z :=
  (Z.lor (Z.lor (Z.lor 0 (Z.shiftl c 16)) (Z.shiftl c 8)) c mod 2 ^ 32)%Z.

(** The value written to [pixels[y * WINDOW_WIDTH + x]] for the ray [dir]. *)
Definition tracePixel (planes : array Plane) (numPlanes : Z) (dir : Vec3)
    : option Z :=
  let s := slabLoop planes numPlanes dir in
  if missed s then Some BACKGROUND
  else
    match intensity (surfNormal planes s) with
    | Some c => Some (packColor c)
    | None => None
    end.

Definition renderPixel (planes : array Plane) (numPlanes : Z) (x y : Z)
    : option Z :=
  tracePixel planes numPlanes (rayDir x y).

(** What [activePlaneIndex] records during the slab loop: either nothing,
    and [tNear] still has its initial value, or the index of a plane that
    the ray enters and whose crossing parameter is [tNear]. *)
Definition entering (planes : array Plane) (numPlanes : Z) (dir : Vec3)
    (s : slab) : Prop :=
  (activePlaneIndex s = (-1)%Z /\ tNear s = - lit_1e9)
  \/ ((0 <= activePlaneIndex s < numPlanes)%Z
      /\ (fabs (denomOf (planes (activePlaneIndex s)) dir) <? TOL) = false
      /\ (denomOf (planes (activePlaneIndex s)) dir <? of_int 0) = true
      /\ tNear s = crossing (planes (activePlaneIndex s)) dir).

(** The first half of the body of the innermost loop of
    [computeBasePlanes]: the oriented plane [(n, d)] that the triple
    [i, j, k] proposes, if it proposes one. *)
Definition candidate (vertices : array Vec3) (numVertices : Z) (i j k : Z)
    : option (Vec3 * num) :=
  let v1 := subtract (vertices j) (vertices i) in
  let v2 := subtract (vertices k) (vertices i) in
  let n := cross v1 v2 in
  if length n <? TOL then None
  else
    let n := normalize n in
    let d := dot n (vertices i) in
    let (allBelow, allAbove) := sideFlags vertices numVertices n d in
    if negb (allBelow || allAbove) then None
    else Some (if allAbove then scale n (of_int (-1)) else n,
               if allAbove then - d else d).

(** The pixel loops of [main]: the entry [y * WINDOW_WIDTH + x] of the
    buffer receives the colour of the pixel [(x, y)]; [None] stands for the
    value of an undefined cast. *)
Definition pixelIndex (x y : Z) : Z := (y * WINDOW_WIDTH + x)%Z.

Definition renderFrame (planes : array Plane) (numPlanes : Z)
    (pixels : array (option Z)) : array (option Z) :=
  fold_left
    (fun px y =>
       fold_left
         (fun px x =>
            upd px (pixelIndex x y) (renderPixel planes numPlanes x y))
         (range 0 WINDOW_WIDTH) px)
    (range 0 WINDOW_HEIGHT) pixels.

(** Two arrays hold the same planes at the indices below [count]. *)
Definition agree (count : Z) (a b : array Plane) : Prop :=
  forall idx, (0 <= idx < count)%Z -> a idx = b idx.

End Program.

Arguments Vec3 num : clear implicits.
Arguments Plane num : clear implicits.
Arguments extractor num : clear implicits.
Arguments slab num : clear implicits.

(** ** Binary64: the arithmetic of the compiled program *)

Module Binary64.

(** An [int] is below [2^53] in magnitude, so its conversion is exact. *)
Definition int_to_double (z : Z) : float :=
  if Z.ltb z 0
  then PrimFloat.opp (PrimFloat.of_uint63 (Uint63.of_Z (- z)))
  else PrimFloat.of_uint63 (Uint63.of_Z z).

(** A finite double is [m * 2^e] with a sign; the cast drops the
    fraction. *)
Definition double_to_int (x : float) : option Z :=
  match Prim2SF x with
  | S754_zero _ => Some 0%Z
  | S754_finite s m e =>
      let q := if Z.leb 0 e then (Z.pos m * 2 ^ e)%Z
               else (Z.pos m / 2 ^ (- e))%Z in
      let z := if s then (- q)%Z else q in
      if Z.leb INT_MIN z && Z.leb z INT_MAX then Some z else None
  | S754_infinity _ | S754_nan => None
  end.

(** The literals [1e-6] and [1e-3] are the doubles nearest to the decimal
    numbers (see [literals_nearest]). *)
#[export] Instance double : Double float := {
  fadd := PrimFloat.add;
  fsub := PrimFloat.sub;
  fmul := PrimFloat.mul;
  fdiv := PrimFloat.div;
  fneg := PrimFloat.opp;
  fsqrt := PrimFloat.sqrt;
  fabs := PrimFloat.abs;
  flt := PrimFloat.ltb;
  fle := PrimFloat.leb;
  of_int := int_to_double;
  to_int := double_to_int;
  lit_1e_6 := 0x1.0c6f7a0b5ed8dp-20%float;
  lit_1e_3 := 0x1.0624dd2f1a9fcp-10%float;
  lit_0_5 := 0.5%float
}.

(** Concrete inputs: an array of zero planes, the vertex array of [main],
    and one plane that a ray along [z] from [camPos] enters at the
    parameter [-2e9]. *)
Definition zeroPlanes : array (Plane float) :=
  fun _ => mkPlane (mkVec3 0%float 0%float 0%float) 0%float.

Definition mainVertices : array (Vec3 float) :=
  of_list (mkVec3 0%float 0%float 0%float) scaledVertices.

Definition farPlane : array (Plane float) :=
  fun _ => mkPlane (mkVec3 0%float 0%float (-1)%float) 2000000005%float.

Definition ahead : Vec3 float := mkVec3 0%float 0%float 1%float.

(** The sign of a value of the specification of binary64. *)
Definition signed_as (s : bool) (x : spec_float) : Prop :=
  match x with
  | S754_zero s' | S754_infinity s' | S754_finite s' _ _ => s' = s
  | S754_nan => True
  end.

Definition not_negative (x : spec_float) : Prop :=
  match x with
  | S754_finite true _ _ => False
  | _ => True
  end.

(** The rational number that a finite double stands for. *)
Definition exactValue (x : float) : option Q :=
  match Prim2SF x with
  | S754_zero _ => Some 0%Q
  | S754_finite s m e =>
      let q := (inject_Z (Z.pos m) * Qpower 2 e)%Q in
      Some (if s then Qopp q else q)
  | S754_infinity _ | S754_nan => None
  end.

Definition exactVec (v : Vec3 float) : option (Q * Q * Q) :=
  match exactValue (vx v), exactValue (vy v), exactValue (vz v) with
  | Some x, Some y, Some z => Some (x, y, z)
  | _, _, _ => None
  end.

(** The tolerance [1e-6] as a rational number. *)
Definition tolQ : Q := 1 # 1000000.

(** [x] is finite and within half a unit in its last place of [q]. *)
Definition nearest (x : float) (q : Q) : Prop :=
  match Prim2SF x, exactValue x with
  | S754_finite _ _ e, Some v =>
      (Qabs (v - q) * 2 <= Qpower 2 e)%Q
  | _, _ => False
  end.

(** The normal of [q], as the stored doubles have it, has a length within
    [1e-6] of 1: its square lies between the squares of the bounds. *)
Definition exactUnit (q : Plane float) : Prop :=
  match exactVec (pn q) with
  | Some (a, b, c) =>
      ((1 - tolQ) * (1 - tolQ) < a * a + b * b + c * c)%Q
      /\ (a * a + b * b + c * c < (1 + tolQ) * (1 + tolQ))%Q
  | None => False
  end.

(** The point [p] satisfies [dot(n, p) <= d + 1e-6] for the plane [q], as
    the stored doubles have them and with no rounding. *)
Definition exactInside (q : Plane float) (p : Vec3 float) : Prop :=
  match exactVec (pn q), exactValue (pd q), exactVec p with
  | Some (a, b, c), Some d, Some (x, y, z) =>
      (a * x + b * y + c * z <= d + tolQ)%Q
  | _, _, _ => False
  end.

Definition Qltb (x y : Q) : bool := negb (Qle_bool y x).

Definition exactUnitb (q : Plane float) : bool :=
  match exactVec (pn q) with
  | Some (a, b, c) =>
      Qltb ((1 - tolQ) * (1 - tolQ)) (a * a + b * b + c * c)
      && Qltb (a * a + b * b + c * c) ((1 + tolQ) * (1 + tolQ))
  | None => false
  end.

Definition exactInsideb (q : Plane float) (p : Vec3 float) : bool :=
  match exactVec (pn q), exactValue (pd q), exactVec p with
  | Some (a, b, c), Some d, Some (x, y, z) =>
      Qle_bool (a * x + b * y + c * z) (d + tolQ)
  | _, _, _ => false
  end.

(** The shade as a function of [diff = dot(normal, lightDir)]: the lines
    from [if (diff < 0) diff = 0] to [if (c > 255) c = 255]. *)
Definition shade (diff : float) : option Z :=
  match to_int (fmul (if flt diff (of_int 0) then of_int 0 else diff)
                     (of_int 255)) with
  | Some c => Some (if Z.ltb 255 c then 255%Z else c)
  | None => None
  end.

(** The largest [diff] for which the cast of [diff * 255] to [int] is
    defined, about 8421504.5, and the double that follows it. *)
Definition shadeMax : float := 0x1.010101010100fp+23%float.
Definition shadeMaxNext : float := 0x1.0101010101010p+23%float.

(** The values that the [cos] and [sin] of [math.h] return at 1 and at
    0.5, the doubles nearest to the real values; the other arguments are
    not used. *)
Definition libm_cos (a : float) : float :=
  if PrimFloat.eqb a 1 then 0x1.14a280fb5068cp-1%float
  else if PrimFloat.eqb a 0.5 then 0x1.c1528065b7d5p-1%float
  else 1%float.

Definition libm_sin (a : float) : float :=
  if PrimFloat.eqb a 1 then 0x1.aed548f090ceep-1%float
  else if PrimFloat.eqb a 0.5 then 0x1.eaee8744b05fp-2%float
  else 0%float.

Definition diagonal : Vec3 float := mkVec3 1%float 1%float 1%float.

(** *** The specification of binary64, read as numbers *)

(** [M / 2^n] rounded to the nearest integer, ties to even: what
    [binary_round_aux] computes by shifting [M] right [n] times. *)
Definition rne (M n : Z) : Z :=
  let q := (M / 2 ^ n)%Z in
  let r := (M mod 2 ^ n)%Z in
  if (2 * r <? 2 ^ n)%Z then q
  else if (2 * r =? 2 ^ n)%Z then (if Z.even q then q else q + 1)%Z
  else (q + 1)%Z.

(** The double with the sign [s], the mantissa [m] and the exponent [e],
    or an infinity when the exponent is too large. *)
Definition rounded (s : bool) (m e : Z) : spec_float :=
  match m with
  | Z0 => S754_zero s
  | Zpos p => if (e <=? emax - prec)%Z then S754_finite s p e
              else S754_infinity s
  | Zneg _ => S754_nan
  end.

Definition bpow (e : Z) : R := powerRZ 2 e.

(** The real number [m * 2^e]. *)
Definition F2R (m e : Z) : R := (IZR m * bpow e)%R.

Definition SF2R (x : spec_float) : R :=
  match x with
  | S754_finite s m e => if s then (- F2R (Z.pos m) e)%R else F2R (Z.pos m) e
  | _ => 0%R
  end.

(** Zero or a positive finite number. *)
Definition finite_nonneg (x : spec_float) : Prop :=
  match x with
  | S754_zero _ | S754_finite false _ _ => True
  | _ => False
  end.

(** [double_to_int] on the specification. *)
Definition sf_to_int (x : spec_float) : option Z :=
  match x with
  | S754_zero _ => Some 0%Z
  | S754_finite s m e =>
      let q := if Z.leb 0 e then (Z.pos m * 2 ^ e)%Z
               else (Z.pos m / 2 ^ (- e))%Z in
      let z := if s then (- q)%Z else q in
      if Z.leb INT_MIN z && Z.leb z INT_MAX then Some z else None
  | S754_infinity _ | S754_nan => None
  end.

(** The double 255, and [if (diff < 0) diff = 0] on the specification. *)
Definition c255 : spec_float := S754_finite false 8972014882652160 (-45).

Definition clampSF (x : spec_float) : spec_float :=
  if SFltb x (S754_zero false) then S754_zero false else x.

Definition clamp255 (c : Z) : Z := if Z.ltb 255 c then 255%Z else c.

(** The place of a double that is not NaN in the order of the doubles:
    [SFcompare] compares these triples lexicographically. *)
Definition orderKey (x : spec_float) : Z * Z * Z :=
  match x with
  | S754_zero _ | S754_nan => (0, 0, 0)%Z
  | S754_infinity s => (if s then (-2)%Z else 2%Z, 0%Z, 0%Z)
  | S754_finite s m e =>
      if s then ((-1)%Z, (- e)%Z, Z.neg m) else (1%Z, e, Z.pos m)
  end.

Definition lexOrder (a b : Z * Z * Z) : comparison :=
  match (fst (fst a) ?= fst (fst b))%Z with
  | Eq => match (snd (fst a) ?= snd (fst b))%Z with
          | Eq => (snd a ?= snd b)%Z
          | c => c
          end
  | c => c
  end.

(** A number that is not above zero, and one that is not below. *)
Definition nonpos (x : spec_float) : Prop :=
  match x with
  | S754_zero _ => True
  | S754_infinity s | S754_finite s _ _ => s = true
  | S754_nan => False
  end.

Definition nonneg (x : spec_float) : Prop :=
  match x with
  | S754_zero _ => True
  | S754_infinity s | S754_finite s _ _ => s = false
  | S754_nan => False
  end.

(** A finite number of magnitude at most [2^k], and a vector of such
    components. *)
Definition magnitude (k : Z) (x : spec_float) : Prop :=
  finite_nonneg (SFabs x) /\ (SF2R (SFabs x) <= bpow k)%R.

Definition vecMagnitude (k : Z) (v : Vec3 float) : Prop :=
  magnitude k (Prim2SF (vx v)) /\ magnitude k (Prim2SF (vy v))
  /\ magnitude k (Prim2SF (vz v)).

(** [|x| <= b], as the doubles compare, for each component of [v]. *)
Definition within (b : float) (v : Vec3 float) : Prop :=
  PrimFloat.leb (PrimFloat.abs (vx v)) b = true
  /\ PrimFloat.leb (PrimFloat.abs (vy v)) b = true
  /\ PrimFloat.leb (PrimFloat.abs (vz v)) b = true.

Definition withinb (b : float) (v : Vec3 float) : bool :=
  PrimFloat.leb (PrimFloat.abs (vx v)) b
  && PrimFloat.leb (PrimFloat.abs (vy v)) b
  && PrimFloat.leb (PrimFloat.abs (vz v)) b.

(** What the slab loop keeps, for the planes [l] it has gone through:
    [tNear] and [tFar] are numbers, [tNear] is not below [-1e9] nor below
    the crossing of a plane the ray enters, and [tFar] is not above [1e9]
    nor above the crossing of a plane the ray leaves. *)
Definition clipped (planes : array (Plane float)) (dir : Vec3 float)
    (l : list Z) (s : slab float) : Prop :=
  Prim2SF (tNear s) <> S754_nan
  /\ Prim2SF (tFar s) <> S754_nan
  /\ flt (tNear s) (fneg lit_1e9) = false
  /\ flt lit_1e9 (tFar s) = false
  /\ forall i, In i l ->
       flt (fabs (denomOf (planes i) dir)) TOL = false ->
       (flt (denomOf (planes i) dir) (of_int 0) = true ->
          flt (tNear s) (crossing (planes i) dir) = false)
       /\ (flt (denomOf (planes i) dir) (of_int 0) = false ->
             flt (crossing (planes i) dir) (tFar s) = false).

(** The real number that a double stands for (0 for an infinity or NaN). *)
Definition val (x : float) : R := SF2R (Prim2SF x).

(** The unit in the last place of the doubles between 1/2 and 1. *)
Definition ulp53 : R := bpow (-53).

(** The value of a rounded number, with its sign. *)
Definition signedR (s : bool) (r : R) : R := if s then (- r)%R else r.

(** The double [x], of magnitude at most [2^k], stands for the real number
    [r], of magnitude at most [2^k], up to [n] times [2^-53]. *)
Definition approx (k n : Z) (x : float) (r : R) : Prop :=
  magnitude k (Prim2SF x)
  /\ (Rabs (val x - r) <= IZR n * ulp53)%R
  /\ (Rabs r <= bpow k)%R.

(** A double that is a number: a zero or a finite number. *)
Definition finite (x : float) : Prop :=
  match Prim2SF x with
  | S754_zero _ | S754_finite _ _ _ => True
  | S754_infinity _ | S754_nan => False
  end.

(** A zero, of either sign. *)
Definition isZero (x : float) : Prop :=
  match Prim2SF x with
  | S754_zero _ => True
  | _ => False
  end.

(** The same number: the same double, or two zeros. *)
Definition sameNumber (a b : float) : Prop :=
  (isZero b -> isZero a) /\ (~ isZero b -> a = b).
End Binary64.

(** ** Exact: the arithmetic of the real numbers *)

Module Exact.

Definition Rltb (a b : R) : bool := if Rlt_dec a b then true else false.
Definition Rleb (a b : R) : bool := if Rle_dec a b then true else false.

(** Truncation towards zero. *)
Definition Rtrunc (x : R) : Z :=
  if Rle_dec 0 x then Zfloor x else (- Zfloor (- x))%Z.

Definition real_to_int (x : R) : option Z :=
  let z := Rtrunc x in
  if Z.leb INT_MIN z && Z.leb z INT_MAX then Some z else None.

#[export] Instance real : Double R := {
  fadd := Rplus;
  fsub := Rminus;
  fmul := Rmult;
  fdiv := Rdiv;
  fneg := Ropp;
  fsqrt := sqrt;
  fabs := Rabs;
  flt := Rltb;
  fle := Rleb;
  of_int := IZR;
  to_int := real_to_int;
  lit_1e_6 := (1 / 1000000)%R;
  lit_1e_3 := (1 / 1000)%R;
  lit_0_5 := (1 / 2)%R
}.

End Exact.

(** ** Loops and arrays *)

Lemma In_range (lo hi i : Z) : In i (range lo hi) <-> (lo <= i < hi)%Z.
Proof.
  unfold range. rewrite in_map_iff. split.
  - intros [n [<- Hn]]. apply in_seq in Hn. lia.
  - intros H. exists (Z.to_nat (i - lo)). split; [lia|].
    apply in_seq. lia.
Qed.

(** A property that every iteration of a loop keeps holds after the loop. *)
Lemma fold_left_invariant {S X : Type} (P : S -> Prop) (f : S -> X -> S)
    (l : list X) (s : S) :
  P s -> (forall s' x, In x l -> P s' -> P (f s' x)) ->
  P (fold_left f l s).
Proof.
  revert s. induction l as [|x l IH]; intros s Hs Hstep; simpl.
  - exact Hs.
  - apply IH.
    + apply Hstep; [now left | exact Hs].
    + intros s' y Hy. apply Hstep. now right.
Qed.

Lemma upd_same {T : Type} (a : array T) (i : Z) (x : T) : upd a i x i = x.
Proof. unfold upd. now rewrite Z.eqb_refl. Qed.

Lemma upd_other {T : Type} (a : array T) (i j : Z) (x : T) :
  j <> i -> upd a i x j = a j.
Proof. unfold upd. intros H. apply Z.eqb_neq in H. now rewrite H. Qed.

(** A loop that stores [g i] at index [i], for a [g] that does not read the
    array it fills. *)
Lemma fold_left_upd {T : Type} (g : Z -> T) (l : list Z) (a : array T)
    (j : Z) :
  (In j l -> fold_left (fun b i => upd b i (g i)) l a j = g j) /\
  (~ In j l -> fold_left (fun b i => upd b i (g i)) l a j = a j).
Proof.
  revert a. induction l as [|x l IH]; intros a; simpl.
  - split; [contradiction | reflexivity].
  - destruct (IH (upd a x (g x))) as [IHin IHout].
    destruct (in_dec Z.eq_dec j l) as [Hin | Hout].
    + split; [intros _; now apply IHin|].
      intros Hn. exfalso. apply Hn. now right.
    + split.
      * intros [-> | Hin]; [|contradiction].
        rewrite IHout by assumption. apply upd_same.
      * intros Hn. rewrite IHout by assumption.
        apply upd_other. intros ->. apply Hn. now left.
Qed.

(** Checking a property of each [a], and of each pair [(a, b)], by
    evaluation. *)
Lemma Forall_checked {A B : Type} (f : A -> bool) (g : A -> B -> bool)
    (la : list A) (lb : list B) :
  forallb (fun a => f a && forallb (g a) lb) la = true ->
  Forall (fun a => f a = true /\ Forall (fun b => g a b = true) lb) la.
Proof.
  intros H. apply Forall_forall. intros a Ha.
  apply (proj1 (forallb_forall _ _) H) in Ha.
  apply andb_true_iff in Ha. destruct Ha as [Hf Hg]. split; [exact Hf|].
  apply Forall_forall. exact (proj1 (forallb_forall _ _) Hg).
Qed.

Section Structure.

Context {num : Type} {D : Double num}.
Local Open Scope dbl_scope.

(** *** The extractor keeps any property that one triple keeps *)

Lemma computeBasePlanes_invariant (P : extractor num -> Prop)
    (vertices : array (Vec3 num)) (numVertices : Z)
    (planes : array (Plane num)) (maxPlanes : Z) :
  P (planes, 0%Z) ->
  (forall i j k st, P st ->
     P (tryTriple vertices numVertices maxPlanes i j k st)) ->
  P (computeBasePlanes vertices numVertices planes maxPlanes).
Proof.
  intros H0 Hstep. unfold computeBasePlanes.
  apply fold_left_invariant; [exact H0|]. intros st i _ Hst.
  apply fold_left_invariant; [exact Hst|]. intros st' j _ Hst'.
  apply fold_left_invariant; [exact Hst'|]. intros st'' k _ Hst''.
  now apply Hstep.
Qed.

(** One triple either leaves the state as it is or stores a plane at index
    [count], which is below [maxPlanes], and no accepted plane duplicates
    the stored one. *)
Lemma tryTriple_cases (vertices : array (Vec3 num)) (numVertices maxPlanes : Z)
    (i j k : Z) (planes : array (Plane num)) (count : Z) :
  tryTriple vertices numVertices maxPlanes i j k (planes, count)
    = (planes, count)
  \/ exists n d,
       tryTriple vertices numVertices maxPlanes i j k (planes, count)
         = (upd planes count (mkPlane n d), (count + 1)%Z)
       /\ (count < maxPlanes)%Z
       /\ forall p, (0 <= p < count)%Z -> isDuplicate (planes p) n d = false.
Proof.
  unfold tryTriple.
  destruct (length _ <? TOL); [now left|].
  destruct (sideFlags _ _ _ _) as [allBelow allAbove].
  destruct (negb (allBelow || allAbove)); [now left|].
  match goal with
  | |- context [existsb ?f ?l] => destruct (existsb f l) eqn:Hdup
  end; simpl; [now left|].
  destruct (Z.ltb count maxPlanes) eqn:Hcap; [|now left].
  right. eexists. eexists. split; [reflexivity|].
  split; [now apply Z.ltb_lt|].
  intros p Hp.
  rewrite <- not_true_iff_false in Hdup.
  apply not_true_is_false. intros Hd. apply Hdup.
  apply existsb_exists. exists p. split; [now apply In_range | exact Hd].
Qed.

(** *** The half-space extractor *)

(** C7: whatever the points, [computeBasePlanes] accepts at most [maxPlanes]
    planes (a capacity, so not negative): the count it returns lies between
    0 and [maxPlanes]; a triple stores at most one plane, at the index
    [count] and only while [count < maxPlanes], so the array keeps its
    entries at every index from [maxPlanes] on; and once [count] has reached
    [maxPlanes] a further triple changes nothing and the function still
    returns. *)
Theorem computeBasePlanes_capacity (vertices : array (Vec3 num))
    (numVertices : Z) (planes : array (Plane num)) (maxPlanes : Z) :
  (0 <= maxPlanes)%Z ->
  (0 <= snd (computeBasePlanes vertices numVertices planes maxPlanes)
     <= maxPlanes)%Z
  /\ (forall i j k stored count,
        tryTriple vertices numVertices maxPlanes i j k (stored, count)
          = (stored, count)
        \/ exists n d,
             tryTriple vertices numVertices maxPlanes i j k (stored, count)
               = (upd stored count (mkPlane n d), (count + 1)%Z)
             /\ (count < maxPlanes)%Z)
  /\ (forall idx, (maxPlanes <= idx)%Z ->
        fst (computeBasePlanes vertices numVertices planes maxPlanes) idx
          = planes idx)
  /\ (forall i j k full,
        tryTriple vertices numVertices maxPlanes i j k (full, maxPlanes)
          = (full, maxPlanes)).
Proof.
  intros Hcap.
  assert (Hstore : forall i j k stored count,
    tryTriple vertices numVertices maxPlanes i j k (stored, count)
      = (stored, count)
    \/ exists n d,
         tryTriple vertices numVertices maxPlanes i j k (stored, count)
           = (upd stored count (mkPlane n d), (count + 1)%Z)
         /\ (count < maxPlanes)%Z).
  { intros i j k stored count.
    destruct (tryTriple_cases vertices numVertices maxPlanes i j k stored
                count) as [H | [n [d [H [Hlt _]]]]]; [now left|].
    right. exists n, d. now split. }
  assert (Hinv :
    (fun st : extractor num =>
       (0 <= snd st <= maxPlanes)%Z
       /\ forall idx, (snd st <= idx)%Z -> fst st idx = planes idx)
      (computeBasePlanes vertices numVertices planes maxPlanes)).
  { apply computeBasePlanes_invariant.
    - simpl. split; [lia | reflexivity].
    - intros i j k [pl count] [Hc Hframe]. cbn [fst snd] in Hc, Hframe.
      destruct (tryTriple_cases vertices numVertices maxPlanes i j k pl count)
        as [-> | [n [d [-> [Hlt _]]]]]; simpl.
      + now split.
      + split; [lia|]. intros idx Hidx.
        rewrite upd_other by lia. apply Hframe. lia. }
  destruct Hinv as [Hc Hframe]. split; [lia|]. split; [exact Hstore|].
  split.
  - intros idx Hidx. apply Hframe. lia.
  - intros i j k full.
    destruct (tryTriple_cases vertices numVertices maxPlanes i j k full
                maxPlanes) as [H | [n [d [_ [Hlt _]]]]]; [exact H | lia].
Qed.

(** The scan keeps the accepted planes apart. *)
Lemma computeBasePlanes_scan (vertices : array (Vec3 num)) (numVertices : Z)
    (planes : array (Plane num)) (maxPlanes : Z) :
  (0 <= snd (computeBasePlanes vertices numVertices planes maxPlanes))%Z
  /\ noDuplicatesInOrder
       (computeBasePlanes vertices numVertices planes maxPlanes).
Proof.
  apply (computeBasePlanes_invariant
    (fun st : extractor num => (0 <= snd st)%Z /\ noDuplicatesInOrder st)).
  - split; [simpl; lia|]. intros p q Hpq Hq. simpl in Hq. lia.
  - intros i j k [pl count] [Hc Hnodup]. cbn [fst snd] in Hc.
    destruct (tryTriple_cases vertices numVertices maxPlanes i j k pl count)
      as [-> | [n [d [-> [_ Hnew]]]]].
    + now split.
    + split; [simpl; lia|]. intros p q Hpq Hq. cbn [fst snd] in *.
      rewrite (upd_other pl count p) by lia.
      destruct (Z.eq_dec q count) as [-> | Hne].
      * rewrite upd_same. simpl. apply Hnew. lia.
      * rewrite upd_other by exact Hne. apply (Hnodup p q); simpl; lia.
Qed.

(** Where the duplicate test does not depend on the order of its two
    planes, one order of each pair is enough. *)
Lemma noDuplicates_of_symmetric (st : extractor num) :
  (forall a b : Plane num,
     isDuplicate a (pn b) (pd b) = isDuplicate b (pn a) (pd a)) ->
  noDuplicatesInOrder st -> noDuplicates st.
Proof.
  intros Hsym Hord p q Hp Hq Hne.
  destruct (Z.lt_ge_cases p q) as [Hlt | Hge].
  - apply Hord; lia.
  - rewrite Hsym. apply Hord; lia.
Qed.

(** *** Vector math *)

(** C8: when the length of [v] is below the tolerance 1e-6, [normalize v]
    is [v] itself: the branch returns before the division, and the result
    is an ordinary value. *)
Theorem normalize_degenerate (v : Vec3 num) :
  (length v <? TOL) = true -> normalize v = v.
Proof. intros H. unfold normalize. now rewrite H. Qed.

(** *** The rotated plane set *)

(** C5: the rotated plane set of a frame has as many planes as the base
    set; plane [i] of it has the normal [rotate] gives for base normal [i]
    at the angle of the frame and the offset of base plane [i]; the loop
    touches no other entry of the array. *)
Theorem rotatePlanes_spec (cos sin : num -> num)
    (basePlanes : array (Plane num)) (numPlanes : Z) (angle : num)
    (rotatedPlanes : array (Plane num)) :
  map (rotatePlanes cos sin basePlanes numPlanes angle rotatedPlanes)
      (range 0 numPlanes)
    = map (fun q => mkPlane (rotate cos sin (pn q) angle) (pd q))
          (map basePlanes (range 0 numPlanes))
  /\ forall i, ~ (0 <= i < numPlanes)%Z ->
       rotatePlanes cos sin basePlanes numPlanes angle rotatedPlanes i
         = rotatedPlanes i.
Proof.
  unfold rotatePlanes. split.
  - rewrite map_map. apply map_ext_in. intros i Hi.
    apply (fold_left_upd
             (fun i => mkPlane (rotate cos sin (pn (basePlanes i)) angle)
                               (pd (basePlanes i)))). exact Hi.
  - intros i Hi.
    apply (fold_left_upd
             (fun i => mkPlane (rotate cos sin (pn (basePlanes i)) angle)
                               (pd (basePlanes i)))).
    now rewrite In_range.
Qed.

(** *** The ray tracer *)

Lemma slabStep_entering (planes : array (Plane num)) (numPlanes : Z)
    (dir : Vec3 num) (s : slab num) (i : Z) :
  (0 <= i < numPlanes)%Z ->
  entering planes numPlanes dir s ->
  entering planes numPlanes dir (slabStep planes dir s i).
Proof.
  intros Hi Hs. unfold slabStep.
  destruct (fabs (denomOf (planes i) dir) <? TOL) eqn:Hpar; [exact Hs|].
  destruct (denomOf (planes i) dir <? of_int 0) eqn:Hneg.
  - destruct (crossing (planes i) dir >? tNear s); [|exact Hs].
    right. simpl. auto.
  - destruct (crossing (planes i) dir <? tFar s); [|exact Hs].
    exact Hs.
Qed.

Lemma slabLoop_entering (planes : array (Plane num)) (numPlanes : Z)
    (dir : Vec3 num) :
  entering planes numPlanes dir (slabLoop planes numPlanes dir).
Proof.
  unfold slabLoop. apply fold_left_invariant.
  - left. split; reflexivity.
  - intros s i Hi Hs. apply slabStep_entering; [|exact Hs].
    now apply In_range.
Qed.

(** C2: for every ray and every plane set, with [s] the variables after
    the slab loop: if [tNear > tFar] or [tFar < 0] the pixel is the fixed
    background colour; otherwise the hit parameter is [tNear] when
    [tNear >= 0] and [tFar] if not, and the pixel is shaded with the normal
    of the recorded entering plane when one was recorded and with the fixed
    fallback normal if not. *)
Theorem tracePixel_cases (planes : array (Plane num)) (numPlanes : Z)
    (dir : Vec3 num) :
  let s := slabLoop planes numPlanes dir in
  let normal :=
    if Z.eqb (activePlaneIndex s) (-1) then fallbackNormal
    else pn (planes (activePlaneIndex s)) in
  entering planes numPlanes dir s
  /\ (((tNear s >? tFar s) || (tFar s <? of_int 0)) = true ->
        tracePixel planes numPlanes dir = Some BACKGROUND)
  /\ (((tNear s >? tFar s) || (tFar s <? of_int 0)) = false ->
        tHit s = (if tNear s >=? of_int 0 then tNear s else tFar s)
        /\ surfNormal planes s = normal
        /\ tracePixel planes numPlanes dir
             = option_map packColor (intensity normal)).
Proof.
  intros s normal.
  assert (He : entering planes numPlanes dir s)
    by apply slabLoop_entering.
  assert (Hn : surfNormal planes s = normal).
  { unfold surfNormal, normal.
    destruct He as [[-> _] | [Hidx _]]; [reflexivity|].
    destruct (Z.leb_spec 0 (activePlaneIndex s)); [|lia].
    destruct (Z.eqb_spec (activePlaneIndex s) (-1)); [lia | reflexivity]. }
  split; [exact He|]. unfold tracePixel. fold s. unfold missed. split.
  - intros ->. reflexivity.
  - intros ->. rewrite Hn. split; [reflexivity|]. split; [reflexivity|].
    destruct (intensity normal); reflexivity.
Qed.

End Structure.

(** ** The real numbers: the empty plane set and the duplicate test *)

Import Exact.

Ltac exact_arith :=
  cbn [fadd fsub fmul fdiv fneg fsqrt fabs flt fle of_int to_int
       lit_1e_6 lit_1e_3 lit_0_5 real] in *.

Section ExactArithmetic.

Local Open Scope R_scope.

Lemma Rltb_false (a b : R) : Rltb a b = false <-> b <= a.
Proof.
  unfold Rltb. destruct (Rlt_dec a b); split; try discriminate; auto; lra.
Qed.

(** *** The light and the shading *)

Lemma sqrt3_gt_1 : 1 < sqrt 3.
Proof. rewrite <- sqrt_1 at 1. apply sqrt_lt_1; lra. Qed.

Lemma lightDir_exact :
  lightDir = mkVec3 (1 / sqrt 3) (1 / sqrt 3) (-1 / sqrt 3).
Proof.
  unfold lightDir, normalize, length, dot, TOL. cbn [vx vy vz]. exact_arith.
  replace (1 * 1 + 1 * 1 + -1 * -1) with 3 by ring.
  pose proof sqrt3_gt_1.
  rewrite (proj2 (Rltb_false _ _)); [reflexivity | lra].
Qed.

Lemma diffuse_exact (n : Vec3 R) : diffuse n = Rmax 0 (dot n lightDir).
Proof.
  unfold diffuse. exact_arith. unfold Rltb, Rmax.
  destruct (Rlt_dec (dot n lightDir) 0), (Rle_dec 0 (dot n lightDir)); lra.
Qed.

Lemma Rtrunc_nonneg (x : R) : 0 <= x -> Rtrunc x = Zfloor x.
Proof.
  intros H. unfold Rtrunc. destruct (Rle_dec 0 x); [reflexivity | lra].
Qed.

Lemma real_to_int_nonneg (x : R) :
  0 <= x -> x < 2 ^ 31 -> real_to_int x = Some (Zfloor x).
Proof.
  intros H0 H1. unfold real_to_int. rewrite Rtrunc_nonneg by exact H0.
  assert (Hlo : (0 <= Zfloor x)%Z) by (apply Zfloor_lub; simpl; lra).
  assert (Hhi : (Zfloor x < 2 ^ 31)%Z).
  { apply lt_IZR. pose proof (Zfloor_bound x) as [Hb _].
    rewrite pow_IZR in H1. simpl Z.of_nat in H1. lra. }
  unfold INT_MIN, INT_MAX.
  destruct (Z.leb_spec (- 2 ^ 31) (Zfloor x)); [|lia].
  destruct (Z.leb_spec (Zfloor x) (2 ^ 31 - 1)); [reflexivity | lia].
Qed.

Lemma clamp_min (z : Z) :
  (if Z.ltb 255 z then 255 else z)%Z = Z.min 255 z.
Proof. destruct (Z.ltb_spec 255 z); lia. Qed.

(** The cast is defined when the scaled term is below [2^31]. *)
Lemma intensity_defined (n : Vec3 R) :
  dot n lightDir * 255 < 2 ^ 31 ->
  intensity n = Some (Z.min 255 (Zfloor (Rmax 0 (dot n lightDir) * 255))).
Proof.
  intros H. unfold intensity. rewrite diffuse_exact. exact_arith.
  rewrite real_to_int_nonneg.
  - f_equal. apply clamp_min.
  - pose proof (Rmax_l 0 (dot n lightDir)). lra.
  - unfold Rmax. destruct (Rle_dec 0 (dot n lightDir)); [exact H|].
    assert (0 < 2 ^ 31) by (apply pow_lt; lra). lra.
Qed.

Lemma fallbackNormal_faces_away :
  dot (fallbackNormal (num := R)) lightDir < 0.
Proof.
  rewrite lightDir_exact. unfold dot, fallbackNormal. cbn [vx vy vz].
  exact_arith. pose proof sqrt3_gt_1 as H1.
  assert (H : 0 < / sqrt 3) by (apply Rinv_0_lt_compat; lra).
  unfold Rdiv. lra.
Qed.

Lemma intensity_fallbackNormal :
  intensity (fallbackNormal (num := R)) = Some 0%Z.
Proof.
  pose proof fallbackNormal_faces_away as Hd.
  rewrite intensity_defined.
  - rewrite Rmax_left by lra. rewrite Rmult_0_l.
    change 0 with (IZR 0). rewrite ZfloorZ. reflexivity.
  - assert (0 < 2 ^ 31) by (apply pow_lt; lra). lra.
Qed.

Lemma empty_plane_set_exact (planes : array (Plane R)) (dir : Vec3 R) :
  slabLoop planes 0 dir = slabInit
  /\ missed (slabLoop planes 0 dir) = false
  /\ surfNormal planes (slabLoop planes 0 dir) = fallbackNormal
  /\ tracePixel planes 0 dir = Some 0%Z.
Proof.
  assert (Hm : missed (slabInit (num := R)) = false).
  { unfold missed, slabInit, lit_1e9. cbn [tNear tFar]. exact_arith.
    rewrite (proj2 (Rltb_false _ _)) by lra.
    rewrite (proj2 (Rltb_false _ _)) by lra. reflexivity. }
  unfold tracePixel. change (slabLoop planes 0 dir) with (slabInit (num := R)).
  rewrite Hm. change (surfNormal planes slabInit) with (fallbackNormal (num := R)).
  rewrite intensity_fallbackNormal. repeat split.
Qed.

Lemma isDuplicate_sym_exact (a b : Plane R) :
  isDuplicate a (pn b) (pd b) = isDuplicate b (pn a) (pd a).
Proof.
  unfold isDuplicate, dot. exact_arith.
  rewrite (Rabs_minus_sym (pd a) (pd b)).
  rewrite (Rmult_comm (vx (pn a))), (Rmult_comm (vy (pn a))),
    (Rmult_comm (vz (pn a))). reflexivity.
Qed.

End ExactArithmetic.

(** ** Binary64: what the program computes *)

Import Binary64.

Section Binary64Arithmetic.

(** *** The sign of a rounded product *)

Lemma binary_round_aux_sign (s : bool) (m e : Z) (l : location) :
  signed_as s (binary_round_aux prec emax s m e l).
Proof.
  unfold binary_round_aux.
  destruct (shr_fexp prec emax m e l) as [mrs' e'].
  destruct (shr_fexp prec emax _ e' loc_Exact) as [mrs'' e''].
  destruct (shr_m mrs''); simpl; auto.
  match goal with |- context [if ?b then _ else _] => destruct b end;
    simpl; auto.
Qed.

Lemma signed_not_negative (x : spec_float) :
  signed_as false x -> not_negative x.
Proof. destruct x as [s | s | | s m e]; simpl; auto. now intros ->. Qed.

Lemma double_to_int_nonneg (x : float) (z : Z) :
  not_negative (Prim2SF x) -> double_to_int x = Some z -> (0 <= z)%Z.
Proof.
  unfold double_to_int. destruct (Prim2SF x) as [s | s | | s m e];
    cbn [not_negative]; intros Hs Hz; try discriminate Hz.
  - injection Hz as <-. lia.
  - destruct s; [contradiction|].
    assert (Hq : (0 <= if Z.leb 0 e then Z.pos m * 2 ^ e
                       else Z.pos m / 2 ^ (- e))%Z).
    { destruct (Z.leb_spec 0 e).
      - apply Z.mul_nonneg_nonneg; [lia|]. apply Z.pow_nonneg. lia.
      - apply Z.div_pos; [lia|]. apply Z.pow_pos_nonneg; lia. }
    destruct (_ && _) in Hz; [|discriminate Hz].
    injection Hz as <-. exact Hq.
Qed.

(** After [if (diff < 0) diff = 0] the value is not a negative number. *)
Lemma diffuse_sign (n : Vec3 float) : not_negative (Prim2SF (diffuse n)).
Proof.
  unfold diffuse.
  change (of_int 0) with 0%float. cbn [flt double].
  destruct (PrimFloat.ltb (dot n lightDir) 0) eqn:Hlt.
  - vm_compute. reflexivity.
  - rewrite ltb_spec in Hlt. change (Prim2SF 0) with (S754_zero false) in Hlt.
    destruct (Prim2SF (dot n lightDir)) as [s | s | | s m e];
      cbn [not_negative]; auto; destruct s; auto; discriminate Hlt.
Qed.

Lemma scaled_diffuse_sign (n : Vec3 float) :
  not_negative (Prim2SF (fmul (diffuse n) (of_int 255))).
Proof.
  cbn [fmul double]. rewrite mul_spec.
  pose proof (diffuse_sign n) as Hs.
  replace (Prim2SF (of_int 255))
    with (S754_finite false 8972014882652160 (-45))
    by (vm_compute; reflexivity).
  destruct (Prim2SF (diffuse n)) as [s | s | | s m e]; cbn in *; auto.
  destruct s; [contradiction|]. apply signed_not_negative.
  apply binary_round_aux_sign.
Qed.

(** Whatever the normal, a defined intensity is an 8-bit value. *)
Lemma intensity_range_binary64 (n : Vec3 float) (c : Z) :
  intensity n = Some c -> (0 <= c <= 255)%Z.
Proof.
  unfold intensity.
  destruct (to_int (fmul (diffuse n) (of_int 255))) as [z|] eqn:Hz;
    [|discriminate].
  apply double_to_int_nonneg in Hz; [|apply scaled_diffuse_sign].
  intros [= <-]. destruct (Z.ltb_spec 255 z); lia.
Qed.

(** *** The duplicate test does not depend on the order of its planes *)

Lemma SFmul_comm (x y : spec_float) :
  SFmul prec emax x y = SFmul prec emax y x.
Proof.
  destruct x as [sx | sx | | sx mx ex], y as [sy | sy | | sy my ey];
    cbn [SFmul]; try reflexivity; try (now rewrite (xorb_comm sx sy)).
  now rewrite (xorb_comm sx sy), (Pos.mul_comm mx my), (Z.add_comm ex ey).
Qed.

Lemma mul_comm_binary64 (a b : float) :
  PrimFloat.mul a b = PrimFloat.mul b a.
Proof. apply Prim2SF_inj. rewrite !mul_spec. apply SFmul_comm. Qed.

Lemma dot_comm_binary64 (a b : Vec3 float) : dot a b = dot b a.
Proof.
  unfold dot. cbn [fmul fadd double].
  now rewrite (mul_comm_binary64 (vx a)), (mul_comm_binary64 (vy a)),
    (mul_comm_binary64 (vz a)).
Qed.

Lemma SFabs_round_aux (s : bool) (m e : Z) (l : location) :
  SFabs (binary_round_aux prec emax s m e l)
    = binary_round_aux prec emax false m e l.
Proof.
  unfold binary_round_aux.
  destruct (shr_fexp prec emax m e l) as [mrs' e'].
  destruct (shr_fexp prec emax _ e' loc_Exact) as [mrs'' e''].
  destruct (shr_m mrs''); try reflexivity.
  match goal with |- context [if ?b then _ else _] => destruct b end;
    reflexivity.
Qed.

Lemma SFabs_normalize_opp (m e : Z) :
  SFabs (binary_normalize prec emax (- m) e false)
    = SFabs (binary_normalize prec emax m e false).
Proof.
  destruct m as [|p|p]; cbn [Z.opp binary_normalize]; try reflexivity;
    unfold binary_round;
    destruct (shl_align p e _) as [mz ez]; now rewrite !SFabs_round_aux.
Qed.

Lemma SFabs_SFsub_sym (x y : spec_float) :
  SFabs (SFsub prec emax x y) = SFabs (SFsub prec emax y x).
Proof.
  destruct x as [sx | sx | | sx mx ex], y as [sy | sy | | sy my ey];
    try reflexivity;
    try (destruct sx, sy; reflexivity);
    try (destruct sx; reflexivity); try (destruct sy; reflexivity).
  cbn [SFsub]. rewrite (Z.min_comm ey ex).
  rewrite <- SFabs_normalize_opp. f_equal. f_equal. lia.
Qed.

Lemma abs_sub_sym_binary64 (a b : float) :
  PrimFloat.abs (PrimFloat.sub a b) = PrimFloat.abs (PrimFloat.sub b a).
Proof.
  apply Prim2SF_inj. rewrite !abs_spec, !sub_spec. apply SFabs_SFsub_sym.
Qed.

Lemma isDuplicate_sym_binary64 (a b : Plane float) :
  isDuplicate a (pn b) (pd b) = isDuplicate b (pn a) (pd a).
Proof.
  unfold isDuplicate. cbn [fsub fabs double].
  now rewrite (dot_comm_binary64 (pn a)), (abs_sub_sym_binary64 (pd a)).
Qed.

(** *** Checking the planes on the exact values of the doubles *)

Lemma Qltb_lt (x y : Q) : Qltb x y = true -> (x < y)%Q.
Proof.
  unfold Qltb. intros H. apply Qnot_le_lt. intros Hle.
  apply Qle_bool_iff in Hle. rewrite Hle in H. discriminate.
Qed.

Lemma exactUnitb_sound (q : Plane float) :
  exactUnitb q = true -> exactUnit q.
Proof.
  unfold exactUnitb, exactUnit.
  destruct (exactVec (pn q)) as [[[a b] c]|]; [|discriminate].
  intros H. apply andb_true_iff in H. destruct H as [H1 H2].
  split; now apply Qltb_lt.
Qed.

Lemma exactInsideb_sound (q : Plane float) (p : Vec3 float) :
  exactInsideb q p = true -> exactInside q p.
Proof.
  unfold exactInsideb, exactInside.
  destruct (exactVec (pn q)) as [[[a b] c]|]; [|discriminate].
  destruct (exactValue (pd q)) as [d|]; [|discriminate].
  destruct (exactVec p) as [[[x y] z]|]; [|discriminate].
  apply Qle_bool_iff.
Qed.

Lemma literals_nearest :
  nearest lit_1e_6 (1 # 1000000) /\ nearest lit_1e_3 (1 # 1000)
  /\ nearest lit_0_5 (1 # 2).
Proof.
  unfold nearest. repeat split; apply Qle_bool_iff; vm_compute; reflexivity.
Qed.

Lemma dodecahedron_planes_exact (basePlanes : array (Plane float)) :
  Forall (fun q => exactUnit q /\ Forall (exactInside q) scaledVertices)
    (map (fst (mainBasePlanes basePlanes))
         (range 0 (snd (mainBasePlanes basePlanes)))).
Proof.
  assert (H : forallb (fun q => exactUnitb q
                                && forallb (exactInsideb q) scaledVertices)
                (map (fst (mainBasePlanes basePlanes))
                     (range 0 (snd (mainBasePlanes basePlanes)))) = true)
    by (vm_compute; reflexivity).
  apply Forall_forall. intros q Hq.
  apply (proj1 (forallb_forall _ _) H) in Hq.
  apply andb_true_iff in Hq. destruct Hq as [Hu Hi].
  split; [now apply exactUnitb_sound|].
  apply Forall_forall. intros p Hp. apply exactInsideb_sound.
  exact (proj1 (forallb_forall _ _) Hi p Hp).
Qed.

(** *** The program at sample inputs *)

Example normalize_3_4_0 :
  normalize (mkVec3 3%float 4%float 0%float)
    = mkVec3 0x1.3333333333333p-1%float 0x1.999999999999ap-1%float 0%float.
Proof. vm_compute. reflexivity. Qed.

Example cross_3_4_0_ahead :
  cross (mkVec3 3%float 4%float 0%float) ahead
    = mkVec3 4%float (-3)%float 0%float.
Proof. vm_compute. reflexivity. Qed.

(** The ray of the pixel in the middle of the window points along [z]. *)
Example rayDir_centre : rayDir 400 300 = ahead.
Proof. vm_compute. reflexivity. Qed.

(** That ray hits the unrotated dodecahedron: it enters through plane 1 and
    the pixel is grey; the ray of the corner pixel misses. *)
Example centre_pixel_hits :
  activePlaneIndex (slabLoop (fst (mainBasePlanes zeroPlanes)) 12 ahead)
    = 1%Z
  /\ renderPixel (fst (mainBasePlanes zeroPlanes)) 12 400 300
       = Some 0x2F2F2F%Z
  /\ renderPixel (fst (mainBasePlanes zeroPlanes)) 12 0 0
       = Some BACKGROUND.
Proof. vm_compute. repeat split. Qed.

(** With room for five planes the extractor stops at five. *)
Example five_planes_only :
  snd (computeBasePlanes mainVertices 20 zeroPlanes 5) = 5%Z.
Proof. vm_compute. reflexivity. Qed.

End Binary64Arithmetic.

(** ** Binary64: rounding, read from its specification

    The operations of binary64 are specified in [SpecFloat]: a product or
    a sum is computed exactly on the mantissas and handed to
    [binary_round_aux], which shifts the mantissa right until it has the
    digits the format keeps and rounds what it shifted out to nearest,
    ties to even.  This part reads that procedure as arithmetic. *)

Section Rounding.

(** *** Shifting a mantissa right *)

Local Open Scope Z_scope.

Lemma iter_pos_nat {A : Type} (f : A -> A) (p : positive) (x : A) :
  SpecFloat.iter_pos f p x = Nat.iter (Pos.to_nat p) f x.
Proof.
  revert x. induction p as [p IH | p IH |]; intros x; cbn [SpecFloat.iter_pos].
  - rewrite !IH, Pos2Nat.inj_xI, <- Nat.iter_add, <- Nat.iter_succ_r.
    f_equal. lia.
  - rewrite !IH, Pos2Nat.inj_xO, <- Nat.iter_add. f_equal. lia.
  - reflexivity.
Qed.

Lemma shr_1_spec (m : Z) (r s : bool) :
  0 <= m ->
  shr_1 (Build_shr_record m r s)
    = Build_shr_record (m / 2) (Z.odd m) (r || s).
Proof.
  intros H. rewrite <- Z.div2_div.
  destruct m as [|[p|p|]|]; try reflexivity; lia.
Qed.

Lemma pow2_pos (k : Z) : 0 <= k -> 0 < 2 ^ k.
Proof. intros H. apply Z.pow_pos_nonneg; lia. Qed.

Lemma pow2_succ (k : Z) : 0 <= k -> 2 ^ (k + 1) = 2 * 2 ^ k.
Proof. intros H. rewrite Z.pow_add_r by lia. lia. Qed.

Lemma mod_pow2_succ (M k : Z) :
  0 <= k ->
  M mod 2 ^ (k + 1) = M mod 2 ^ k + 2 ^ k * Z.b2z (Z.testbit M k).
Proof.
  intros Hk. rewrite pow2_succ by exact Hk.
  rewrite (Z.mul_comm 2), Z.rem_mul_r by (pose proof (pow2_pos k Hk); lia).
  rewrite Z.testbit_odd, Z.shiftr_div_pow2 by exact Hk.
  rewrite Zmod_odd. now destruct (Z.odd (M / 2 ^ k)).
Qed.

(** After [k + 1] shifts: the mantissa [M / 2^(k+1)], the bit that was
    shifted out last, and whether a bit shifted out before was set. *)
Lemma iter_shr (M : Z) (k : nat) :
  0 <= M ->
  Nat.iter (S k) shr_1 (Build_shr_record M false false)
    = Build_shr_record (M / 2 ^ (Z.of_nat k + 1)) (Z.testbit M (Z.of_nat k))
        (negb (M mod 2 ^ Z.of_nat k =? 0)).
Proof.
  intros HM. induction k as [|k IH].
  - cbn [Nat.iter nat_rect]. rewrite shr_1_spec by exact HM.
    cbn [Z.of_nat Z.add]. rewrite Z.pow_1_r, Z.bit0_odd, Z.pow_0_r, Z.mod_1_r.
    reflexivity.
  - rewrite Nat.iter_succ, IH.
    assert (Hk : 0 <= Z.of_nat k) by lia.
    pose proof (pow2_pos (Z.of_nat k + 1) ltac:(lia)) as Hp.
    rewrite shr_1_spec by (apply Z.div_pos; lia).
    replace (Z.of_nat (S k)) with (Z.of_nat k + 1) by lia.
    f_equal.
    + rewrite Z.div_div by lia. f_equal.
      rewrite (pow2_succ (Z.of_nat k + 1)) by lia. lia.
    + rewrite (Z.testbit_odd M (Z.of_nat k + 1)).
      now rewrite Z.shiftr_div_pow2 by lia.
    + rewrite (mod_pow2_succ M (Z.of_nat k)) by lia.
      pose proof (Z.mod_pos_bound M (2 ^ Z.of_nat k) (pow2_pos _ Hk)) as Hb.
      pose proof (pow2_pos _ Hk).
      destruct (Z.testbit M (Z.of_nat k)); cbn [Z.b2z orb].
      * symmetry. apply negb_true_iff, Z.eqb_neq. lia.
      * now rewrite Z.mul_0_r, Z.add_0_r.
Qed.

Lemma round_iter_shr (M : Z) (k : nat) :
  0 <= M ->
  round_nearest_even
    (shr_m (Nat.iter (S k) shr_1 (Build_shr_record M false false)))
    (loc_of_shr_record
       (Nat.iter (S k) shr_1 (Build_shr_record M false false)))
  = rne M (Z.of_nat k + 1).
Proof.
  intros HM. rewrite iter_shr by exact HM.
  assert (Hk : 0 <= Z.of_nat k) by lia.
  unfold rne. rewrite (mod_pow2_succ M _ Hk), (pow2_succ _ Hk).
  pose proof (Z.mod_pos_bound M (2 ^ Z.of_nat k) (pow2_pos _ Hk)) as Hb.
  set (q := M / (2 * 2 ^ Z.of_nat k)).
  set (low := M mod 2 ^ Z.of_nat k) in *.
  set (P := 2 ^ Z.of_nat k) in *.
  cbn [shr_m loc_of_shr_record].
  destruct (Z.testbit M (Z.of_nat k)); cbn [Z.b2z];
    destruct (Z.eqb_spec low 0) as [H0 | H0]; cbn [negb round_nearest_even];
    destruct (Z.ltb_spec (2 * (low + P * 1)) (2 * P));
    destruct (Z.ltb_spec (2 * (low + P * 0)) (2 * P));
    destruct (Z.eqb_spec (2 * (low + P * 1)) (2 * P));
    try reflexivity; try lia.
Qed.

(** *** Rounding to nearest, ties to even *)

Lemma rne_0 (M : Z) : rne M 0 = M.
Proof.
  unfold rne. rewrite Z.pow_0_r, Z.mod_1_r, Z.div_1_r. reflexivity.
Qed.

Lemma rne_bounds (M n : Z) :
  0 <= n -> M / 2 ^ n <= rne M n <= M / 2 ^ n + 1.
Proof.
  intros Hn. unfold rne.
  destruct (_ <? _); [lia|]. destruct (_ =? _); [|lia].
  destruct (Z.even _); lia.
Qed.

Lemma rne_mono (M1 M2 n : Z) :
  0 <= n -> M1 <= M2 -> rne M1 n <= rne M2 n.
Proof.
  intros Hn HM. pose proof (pow2_pos n Hn) as HP.
  pose proof (Z.div_le_mono M1 M2 (2 ^ n) HP HM) as Hq.
  destruct (Z.eq_dec (M1 / 2 ^ n) (M2 / 2 ^ n)) as [Heq | Hne].
  - pose proof (Z.div_mod M1 (2 ^ n) ltac:(lia)) as E1.
    pose proof (Z.div_mod M2 (2 ^ n) ltac:(lia)) as E2.
    unfold rne. rewrite <- Heq in *.
    set (q := M1 / 2 ^ n) in *. set (P := 2 ^ n) in *.
    set (r1 := M1 mod P) in *. set (r2 := M2 mod P) in *.
    destruct (Z.ltb_spec (2 * r1) P), (Z.ltb_spec (2 * r2) P),
      (Z.eqb_spec (2 * r1) P), (Z.eqb_spec (2 * r2) P), (Z.even q); lia.
  - pose proof (rne_bounds M1 n Hn). pose proof (rne_bounds M2 n Hn). lia.
Qed.

Lemma rne_scale (M n k : Z) :
  0 <= n -> 0 <= k -> rne (M * 2 ^ k) (n + k) = rne M n.
Proof.
  intros Hn Hk. pose proof (pow2_pos n Hn). pose proof (pow2_pos k Hk).
  unfold rne. rewrite Z.pow_add_r by lia.
  rewrite Z.div_mul_cancel_r by lia.
  rewrite Z.mul_mod_distr_r by lia.
  set (q := M / 2 ^ n). set (r := M mod 2 ^ n).
  set (P := 2 ^ n) in *. set (K := 2 ^ k) in *.
  destruct (Z.ltb_spec (2 * r) P), (Z.ltb_spec (2 * (r * K)) (P * K)),
    (Z.eqb_spec (2 * r) P), (Z.eqb_spec (2 * (r * K)) (P * K));
    try reflexivity; nia.
Qed.

(** *** The number of binary digits *)

Lemma digits2_size (p : positive) : digits2_pos p = Pos.size p.
Proof. induction p as [p IH | p IH |]; cbn; now rewrite ?IH. Qed.

Lemma Zdigits2_bounds (p : positive) :
  2 ^ (Zdigits2 (Z.pos p) - 1) <= Z.pos p < 2 ^ Zdigits2 (Z.pos p).
Proof.
  cbn [Zdigits2]. rewrite digits2_size.
  pose proof (Pos.size_gt p) as Hgt. pose proof (Pos.size_le p) as Hle.
  apply Pos2Z.pos_lt_pos in Hgt. apply Pos2Z.pos_le_pos in Hle.
  rewrite Pos2Z.inj_pow in Hgt, Hle.
  replace (Z.pos (Pos.size p)) with (Z.pos (Pos.size p) - 1 + 1) in Hle by lia.
  rewrite pow2_succ in Hle by lia. lia.
Qed.

Lemma Zdigits2_le (p : positive) (k : Z) :
  Z.pos p < 2 ^ k -> Zdigits2 (Z.pos p) <= k.
Proof.
  intros H. pose proof (Zdigits2_bounds p) as [Hlo _].
  destruct (Z.le_gt_cases (Zdigits2 (Z.pos p)) k) as [|Hgt]; [assumption|].
  assert (2 ^ k <= 2 ^ (Zdigits2 (Z.pos p) - 1))
    by (apply Z.pow_le_mono_r; lia).
  lia.
Qed.

Lemma Zdigits2_ge (p : positive) (k : Z) :
  2 ^ k <= Z.pos p -> k < Zdigits2 (Z.pos p).
Proof.
  intros H. pose proof (Zdigits2_bounds p) as [_ Hhi].
  destruct (Z.lt_ge_cases k (Zdigits2 (Z.pos p))) as [|Hge]; [assumption|].
  assert (2 ^ Zdigits2 (Z.pos p) <= 2 ^ k)
    by (apply Z.pow_le_mono_r; [lia | exact Hge]).
  lia.
Qed.

(** *** The rounding of binary64 *)

Lemma fexp_eq (x : Z) : fexp prec emax x = Z.max (x - 53) (-1074).
Proof. reflexivity. Qed.

Lemma shr_nonpos (mrs : shr_record) (e n : Z) :
  n <= 0 -> shr mrs e n = (mrs, e).
Proof. destruct n; [reflexivity | lia | reflexivity]. Qed.

Lemma shr_pos (M e n : Z) :
  0 <= M -> 0 < n ->
  exists mrs,
    shr (Build_shr_record M false false) e n = (mrs, e + n)
    /\ round_nearest_even (shr_m mrs) (loc_of_shr_record mrs) = rne M n.
Proof.
  intros HM Hn. destruct n as [|p|p]; try lia.
  cbn [shr]. rewrite iter_pos_nat.
  destruct (Pos2Nat.is_succ p) as [k Hk]. rewrite Hk.
  eexists. split; [reflexivity|].
  rewrite round_iter_shr by exact HM. f_equal. lia.
Qed.

Lemma binary_round_aux_eq (s : bool) (m e : Z) (l : location) :
  binary_round_aux prec emax s m e l
  = rounded s (shr_m (fst (shr_fexp prec emax
                        (round_nearest_even
                           (shr_m (fst (shr_fexp prec emax m e l)))
                           (loc_of_shr_record
                              (fst (shr_fexp prec emax m e l))))
                        (snd (shr_fexp prec emax m e l)) loc_Exact)))
         (snd (shr_fexp prec emax
                 (round_nearest_even
                    (shr_m (fst (shr_fexp prec emax m e l)))
                    (loc_of_shr_record (fst (shr_fexp prec emax m e l))))
                 (snd (shr_fexp prec emax m e l)) loc_Exact)).
Proof.
  unfold binary_round_aux.
  destruct (shr_fexp prec emax m e l) as [mrs' e']. cbn [fst snd].
  destruct (shr_fexp prec emax _ e' loc_Exact) as [mrs'' e'']. reflexivity.
Qed.

(** The rounded mantissa, for an input with at least the digits that the
    format keeps. *)
Lemma rne_range (p : positive) (E : Z) :
  let g := fexp prec emax (Zdigits2 (Z.pos p) + E) in
  E <= g ->
  0 <= rne (Z.pos p) (g - E) <= 2 ^ 53
  /\ (-1074 < g -> 2 ^ 52 <= rne (Z.pos p) (g - E)).
Proof.
  intros g Hg. unfold g in *. rewrite fexp_eq in *.
  set (d := Zdigits2 (Z.pos p)) in *.
  pose proof (Zdigits2_bounds p) as [Hlo Hhi]. fold d in Hlo, Hhi.
  set (n := Z.max (d + E - 53) (-1074) - E) in *.
  assert (Hn : 0 <= n) by lia.
  pose proof (pow2_pos n Hn) as HP.
  pose proof (rne_bounds (Z.pos p) n Hn) as [Hb1 Hb2].
  assert (Hq0 : 0 <= Z.pos p / 2 ^ n) by (apply Z.div_pos; lia).
  assert (Hq : Z.pos p / 2 ^ n < 2 ^ 53).
  { apply Z.div_lt_upper_bound; [lia|].
    rewrite <- Z.pow_add_r by lia.
    assert (2 ^ d <= 2 ^ (n + 53)) by (apply Z.pow_le_mono_r; lia). lia. }
  split; [lia|]. intros Hnorm.
  assert (Hnd : n = d - 53) by lia.
  assert (2 ^ 52 <= Z.pos p / 2 ^ n); [|lia].
  apply Z.div_le_lower_bound; [lia|].
  rewrite <- Z.pow_add_r by lia.
  replace (n + 52) with (d - 1) by lia. exact Hlo.
Qed.

(** What [binary_round_aux] returns for the mantissa [p] and the exponent
    [E]: with [g] the exponent of the format at the magnitude of the
    input, the mantissa [p / 2^(g - E)] rounded to nearest even, at the
    exponent [g], or half of it at [g + 1] when the rounding carried. *)
Lemma round_aux_spec (s : bool) (p : positive) (E : Z) :
  let g := fexp prec emax (Zdigits2 (Z.pos p) + E) in
  E <= g ->
  exists m e,
    binary_round_aux prec emax s (Z.pos p) E loc_Exact = rounded s m e
    /\ g <= e
    /\ m * 2 ^ (e - g) = rne (Z.pos p) (g - E)
    /\ 0 <= m < 2 ^ 53
    /\ (-1074 < e -> 2 ^ 52 <= m).
Proof.
  intros g Hg. pose proof (rne_range p E Hg) as [HR Hnorm]. fold g in HR, Hnorm.
  assert (Hgmin : -1074 <= g) by (unfold g; rewrite fexp_eq; lia).
  rewrite binary_round_aux_eq.
  assert (Hfirst :
    exists mrs, shr_fexp prec emax (Z.pos p) E loc_Exact = (mrs, g)
      /\ round_nearest_even (shr_m mrs) (loc_of_shr_record mrs)
         = rne (Z.pos p) (g - E)).
  { unfold shr_fexp. fold g. cbn [shr_record_of_loc].
    destruct (Z.eq_dec (g - E) 0) as [H0 | H0].
    - rewrite H0, rne_0. exists (Build_shr_record (Z.pos p) false false).
      split; [|reflexivity]. cbn [shr]. f_equal. lia.
    - destruct (shr_pos (Z.pos p) E (g - E)) as [mrs [H1 H2]]; try lia.
      exists mrs. split; [|exact H2]. rewrite H1. f_equal. lia. }
  destruct Hfirst as [mrs [H1 H2]]. rewrite H1. cbn [fst snd]. rewrite H2.
  set (R := rne (Z.pos p) (g - E)) in *.
  destruct (Z.eq_dec R (2 ^ 53)) as [Hcarry | Hnc].
  - exists (2 ^ 52), (g + 1). rewrite Hcarry.
    replace (shr_fexp prec emax (2 ^ 53) g loc_Exact)
      with (Build_shr_record (2 ^ 52) false false, g + 1).
    + cbn [fst snd shr_m]. split; [reflexivity|]. split; [lia|].
      split; [replace (g + 1 - g) with 1 by lia; reflexivity|].
      split; [lia|]. intros _. lia.
    + unfold shr_fexp. rewrite fexp_eq.
      replace (Zdigits2 (2 ^ 53)) with 54 by reflexivity.
      replace (Z.max (54 + g - 53) (-1074) - g) with 1 by lia.
      reflexivity.
  - exists R, g.
    replace (shr_fexp prec emax R g loc_Exact)
      with (Build_shr_record R false false, g).
    + cbn [fst snd shr_m]. split; [reflexivity|]. split; [lia|].
      split; [rewrite Z.sub_diag; lia|]. split; [lia|]. exact Hnorm.
    + unfold shr_fexp. cbn [shr_record_of_loc]. symmetry.
      apply shr_nonpos. rewrite fexp_eq.
      destruct R as [|r|r]; [cbn [Zdigits2]; lia | | lia].
      pose proof (Zdigits2_le r 53 ltac:(lia)). lia.
Qed.

End Rounding.

Section Values.

(** *** The real number that a mantissa and an exponent stand for *)

Local Open Scope R_scope.

Lemma bpow_pos (e : Z) : 0 < bpow e.
Proof. apply powerRZ_lt. lra. Qed.

Lemma bpow_add (a b : Z) : bpow (a + b) = bpow a * bpow b.
Proof. apply powerRZ_add. lra. Qed.

Lemma bpow_IZR (k : Z) : (0 <= k)%Z -> bpow k = IZR (2 ^ k).
Proof.
  intros Hk. unfold bpow. rewrite <- (Z2Nat.id k Hk) at 1.
  rewrite <- pow_powerRZ, pow_IZR. now rewrite Z2Nat.id.
Qed.

Lemma bpow_le (a b : Z) : (a <= b)%Z -> bpow a <= bpow b.
Proof.
  intros H. replace b with (a + (b - a))%Z by lia.
  rewrite bpow_add, (bpow_IZR (b - a)) by lia.
  pose proof (bpow_pos a).
  assert (1 <= IZR (2 ^ (b - a))).
  { apply IZR_le. pose proof (pow2_pos (b - a) ltac:(lia)). lia. }
  nra.
Qed.

Lemma bpow_lt_inv (a b : Z) : bpow a < bpow b -> (a < b)%Z.
Proof.
  intros H. destruct (Z.lt_ge_cases a b) as [|Hge]; [assumption|].
  apply bpow_le in Hge. lra.
Qed.

Lemma F2R_shift (m e k : Z) :
  (0 <= k)%Z -> F2R (m * 2 ^ k) e = F2R m (e + k).
Proof.
  intros Hk. unfold F2R. rewrite mult_IZR, bpow_add, (bpow_IZR k Hk). ring.
Qed.

Lemma F2R_le_compat (m1 m2 e : Z) :
  (m1 <= m2)%Z -> F2R m1 e <= F2R m2 e.
Proof.
  intros H. unfold F2R. apply IZR_le in H. pose proof (bpow_pos e). nra.
Qed.

Lemma F2R_le_inv (m1 m2 e : Z) :
  F2R m1 e <= F2R m2 e -> (m1 <= m2)%Z.
Proof.
  unfold F2R. intros H. apply le_IZR. pose proof (bpow_pos e). nra.
Qed.

(** A positive number with [d] digits lies in [[2^(d-1), 2^d)]. *)
Lemma F2R_digits (p : positive) (e : Z) :
  bpow (Zdigits2 (Z.pos p) - 1 + e) <= F2R (Z.pos p) e
  < bpow (Zdigits2 (Z.pos p) + e).
Proof.
  pose proof (Zdigits2_bounds p) as [Hlo Hhi].
  assert (Hd : (1 <= Zdigits2 (Z.pos p))%Z) by (cbn; lia).
  rewrite !bpow_add. unfold F2R.
  rewrite (bpow_IZR (Zdigits2 (Z.pos p) - 1)), (bpow_IZR (Zdigits2 (Z.pos p)))
    by lia.
  apply IZR_le in Hlo. apply IZR_lt in Hhi. pose proof (bpow_pos e).
  split; [apply Rmult_le_compat_r | apply Rmult_lt_compat_r];
    assumption || lra.
Qed.

Lemma F2R_pow (k e : Z) : (0 <= k)%Z -> F2R (2 ^ k) e = bpow (e + k).
Proof.
  intros Hk. unfold F2R. rewrite bpow_add, (bpow_IZR k Hk). ring.
Qed.

Lemma F2R_0 (e : Z) : F2R 0 e = 0.
Proof. unfold F2R. ring. Qed.

Lemma mk_finite (m e : Z) :
  (0 <= m)%Z ->
  finite_nonneg (rounded false m e) <-> (m = 0 \/ e <= 971)%Z.
Proof.
  intros Hm. destruct m as [|p|p]; cbn [rounded]; [| | lia].
  { cbn [finite_nonneg]. split; auto. }
  change (emax - prec)%Z with 971%Z.
  destruct (Z.leb_spec e 971); cbn [finite_nonneg].
  - split; auto.
  - split; [contradiction|]. intros [H0 | H0]; [discriminate H0 | lia].
Qed.

Lemma mk_value (m e : Z) :
  (0 <= m)%Z -> finite_nonneg (rounded false m e) ->
  SF2R (rounded false m e) = F2R m e.
Proof.
  intros Hm. destruct m as [|p|p]; cbn [rounded]; [| | lia].
  - intros _. cbn [SF2R]. now rewrite F2R_0.
  - destruct (_ <=? _)%Z; cbn [finite_nonneg SF2R]; [reflexivity | tauto].
Qed.

(** Rounding is monotone: of two inputs that have the digits the format
    keeps, the smaller one rounds to the smaller double, and it does not
    overflow when the larger one does not. *)
Lemma round_aux_mono (p1 p2 : positive) (E1 E2 : Z) :
  (E1 <= fexp prec emax (Zdigits2 (Z.pos p1) + E1))%Z ->
  (E2 <= fexp prec emax (Zdigits2 (Z.pos p2) + E2))%Z ->
  F2R (Z.pos p1) E1 <= F2R (Z.pos p2) E2 ->
  finite_nonneg (binary_round_aux prec emax false (Z.pos p2) E2 loc_Exact) ->
  finite_nonneg (binary_round_aux prec emax false (Z.pos p1) E1 loc_Exact)
  /\ SF2R (binary_round_aux prec emax false (Z.pos p1) E1 loc_Exact)
     <= SF2R (binary_round_aux prec emax false (Z.pos p2) E2 loc_Exact).
Proof.
  intros Hn1 Hn2 HV.
  destruct (round_aux_spec false p1 E1 Hn1)
    as [m1 [e1 [Hr1 [Hge1 [HR1 [Hb1 Hnorm1]]]]]].
  destruct (round_aux_spec false p2 E2 Hn2)
    as [m2 [e2 [Hr2 [Hge2 [HR2 [Hb2 Hnorm2]]]]]].
  destruct (rne_range p1 E1 Hn1) as [HRb1 _].
  destruct (rne_range p2 E2 Hn2) as [_ HRn2].
  rewrite Hr1, Hr2. clear Hr1 Hr2.
  set (g1 := fexp prec emax (Zdigits2 (Z.pos p1) + E1)) in *.
  set (g2 := fexp prec emax (Zdigits2 (Z.pos p2) + E2)) in *.
  set (R1 := rne (Z.pos p1) (g1 - E1)) in *.
  set (R2 := rne (Z.pos p2) (g2 - E2)) in *.
  assert (HW1 : F2R m1 e1 = F2R R1 g1).
  { rewrite <- HR1, F2R_shift by lia. f_equal. lia. }
  assert (HW2 : F2R m2 e2 = F2R R2 g2).
  { rewrite <- HR2, F2R_shift by lia. f_equal. lia. }
  assert (Hg : (g1 <= g2)%Z).
  { pose proof (F2R_digits p1 E1) as [Hlo _].
    pose proof (F2R_digits p2 E2) as [_ Hhi].
    assert (Hd : (Zdigits2 (Z.pos p1) - 1 + E1 < Zdigits2 (Z.pos p2) + E2)%Z)
      by (apply bpow_lt_inv; lra).
    unfold g1, g2. rewrite !fexp_eq. lia. }
  assert (Hgmin : (-1074 <= g1)%Z) by (unfold g1; rewrite fexp_eq; lia).
  assert (HW : F2R m1 e1 <= F2R m2 e2).
  { rewrite HW1, HW2.
    destruct (Z.eq_dec g1 g2) as [Heq | Hne].
    - rewrite <- Heq. apply F2R_le_compat. unfold R1, R2. rewrite <- Heq.
      set (E0 := Z.min E1 E2).
      assert (HM : (Z.pos p1 * 2 ^ (E1 - E0) <= Z.pos p2 * 2 ^ (E2 - E0))%Z).
      { apply (F2R_le_inv _ _ E0). rewrite !F2R_shift by lia.
        replace (E0 + (E1 - E0))%Z with E1 by lia.
        replace (E0 + (E2 - E0))%Z with E2 by lia. exact HV. }
      apply (rne_mono _ _ (g1 - E0)) in HM; [|lia].
      replace (g1 - E0)%Z with ((g1 - E1) + (E1 - E0))%Z in HM at 1 by lia.
      replace (g1 - E0)%Z with ((g1 - E2) + (E2 - E0))%Z in HM by lia.
      rewrite !rne_scale in HM by lia. exact HM.
    - apply Rle_trans with (F2R (2 ^ 53) g1);
        [apply F2R_le_compat; lia|].
      apply Rle_trans with (F2R (2 ^ 52) g2);
        [|apply F2R_le_compat; apply HRn2; lia].
      rewrite !F2R_pow by lia. apply bpow_le. lia. }
  assert (Hfin : finite_nonneg (rounded false m2 e2) ->
                 finite_nonneg (rounded false m1 e1)).
  { rewrite !mk_finite by lia. intros [H0 | He2].
    - left. subst m2. rewrite F2R_0 in HW.
      assert (m1 <= 0)%Z; [|lia].
      apply (F2R_le_inv _ _ e1). now rewrite F2R_0.
    - destruct (Z.le_gt_cases e1 971) as [|He1]; [now right|]. exfalso.
      assert (H1 : bpow 1024 <= F2R m1 e1).
      { apply Rle_trans with (F2R (2 ^ 52) e1);
          [|apply F2R_le_compat; apply Hnorm1; lia].
        rewrite F2R_pow by lia. apply bpow_le. lia. }
      assert (H2 : F2R m2 e2 < bpow 1024).
      { apply Rlt_le_trans with (F2R (2 ^ 53) e2).
        - unfold F2R. apply Rmult_lt_compat_r; [apply bpow_pos|].
          apply IZR_lt. lia.
        - rewrite F2R_pow by lia. apply bpow_le. lia. }
      lra. }
  intros Hf2. split; [now apply Hfin|].
  rewrite !mk_value; try lia; auto.
Qed.

(** *** The cast to [int] is monotone *)

Lemma sf_to_int_floor (m : positive) (e : Z) :
  let q := if Z.leb 0 e then (Z.pos m * 2 ^ e)%Z
           else (Z.pos m / 2 ^ (- e))%Z in
  IZR q <= F2R (Z.pos m) e < IZR q + 1.
Proof.
  destruct (Z.leb_spec 0 e) as [He | He]; cbn zeta.
  - unfold F2R. rewrite mult_IZR, (bpow_IZR e He). lra.
  - pose proof (pow2_pos (- e) ltac:(lia)) as HP.
    pose proof (Z.div_mod (Z.pos m) (2 ^ (- e)) ltac:(lia)) as Hdm.
    pose proof (Z.mod_pos_bound (Z.pos m) (2 ^ (- e)) HP) as [Hr0 Hr1].
    set (q := (Z.pos m / 2 ^ (- e))%Z) in *.
    set (r := (Z.pos m mod 2 ^ (- e))%Z) in *.
    assert (Hinv : bpow e * IZR (2 ^ (- e)) = 1).
    { rewrite <- bpow_IZR, <- bpow_add by lia.
      replace (e + - e)%Z with 0%Z by lia. reflexivity. }
    apply IZR_lt in HP. apply IZR_le in Hr0. apply IZR_lt in Hr1.
    apply (f_equal IZR) in Hdm. rewrite plus_IZR, mult_IZR in Hdm.
    unfold F2R. rewrite Hdm.
    set (P := IZR (2 ^ (- e))) in *. set (b := bpow e) in *.
    pose proof (bpow_pos e) as Hb. fold b in Hb.
    replace ((P * IZR q + IZR r) * b) with (IZR q * (b * P) + IZR r * b)
      by ring.
    rewrite Hinv.
    assert (0 <= IZR r * b) by nra.
    assert (IZR r * b < b * P) by nra.
    lra.
Qed.

Lemma sf_to_int_mono (x y : spec_float) (z2 : Z) :
  finite_nonneg x -> finite_nonneg y -> SF2R x <= SF2R y ->
  sf_to_int y = Some z2 ->
  exists z1, sf_to_int x = Some z1 /\ (0 <= z1 <= z2)%Z.
Proof.
  assert (Hpos : forall m e, 0 < F2R (Z.pos m) e).
  { intros m e. unfold F2R. apply Rmult_lt_0_compat; [|apply bpow_pos].
    apply IZR_lt. lia. }
  assert (Hq0 : forall m e,
            (0 <= if Z.leb 0 e then Z.pos m * 2 ^ e
                  else Z.pos m / 2 ^ (- e))%Z).
  { intros m e. destruct (Z.leb_spec 0 e).
    - apply Z.mul_nonneg_nonneg; [lia|]. apply Z.pow_nonneg. lia.
    - apply Z.div_pos; [lia|]. apply pow2_pos. lia. }
  destruct x as [sx | sx | | [|] mx ex]; cbn [finite_nonneg]; try contradiction;
    destruct y as [sy | sy | | [|] my ey]; cbn [finite_nonneg];
    try contradiction; intros _ _;
    cbv beta iota zeta delta [SF2R sf_to_int INT_MIN INT_MAX]; intros Hle Hz.
  - exists 0%Z. split; [reflexivity|]. injection Hz as <-. lia.
  - exists 0%Z. split; [reflexivity|].
    destruct (_ && _) in Hz; [|discriminate].
    assert (Hz2 : z2 = if Z.leb 0 ey then (Z.pos my * 2 ^ ey)%Z
                       else (Z.pos my / 2 ^ (- ey))%Z) by congruence.
    pose proof (Hq0 my ey). lia.
  - pose proof (Hpos mx ex). lra.
  - pose proof (sf_to_int_floor mx ex) as Hx.
    pose proof (sf_to_int_floor my ey) as Hy. cbn zeta in Hx, Hy.
    pose proof (Hq0 mx ex) as Hx0.
    set (qx := if Z.leb 0 ex then (Z.pos mx * 2 ^ ex)%Z
               else (Z.pos mx / 2 ^ (- ex))%Z) in *.
    set (qy := if Z.leb 0 ey then (Z.pos my * 2 ^ ey)%Z
               else (Z.pos my / 2 ^ (- ey))%Z) in *.
    assert (Hqq : (qx <= qy)%Z).
    { assert (IZR qx < IZR qy + 1) by lra.
      rewrite <- plus_IZR in H. apply lt_IZR in H. lia. }
    destruct (Z.leb_spec (- 2 ^ 31) qy); [|discriminate].
    destruct (Z.leb_spec qy (2 ^ 31 - 1)); [|discriminate].
    cbn [andb] in Hz. assert (Hz2 : z2 = qy) by congruence. exists qx.
    destruct (Z.leb_spec (- 2 ^ 31) qx); [|lia].
    destruct (Z.leb_spec qx (2 ^ 31 - 1)); [|lia].
    split; [reflexivity | lia].
Qed.

(** *** The order of two doubles and the order of their values *)

Lemma bounded_canonical (m : positive) (e : Z) :
  SpecFloat.bounded prec emax m e = true ->
  Z.max (Zdigits2 (Z.pos m) + e - 53) (-1074) = e.
Proof.
  unfold SpecFloat.bounded, canonical_mantissa. intros H.
  apply andb_true_iff in H. destruct H as [H _].
  apply Z.eqb_eq in H. rewrite fexp_eq in H. exact H.
Qed.

Lemma SFleb_value (m1 m2 : positive) (e1 e2 : Z) :
  SpecFloat.bounded prec emax m1 e1 = true ->
  SpecFloat.bounded prec emax m2 e2 = true ->
  SFleb (S754_finite false m1 e1) (S754_finite false m2 e2) = true ->
  F2R (Z.pos m1) e1 <= F2R (Z.pos m2) e2.
Proof.
  intros H1 H2. apply bounded_canonical in H1, H2.
  unfold SFleb, SFcompare.
  destruct (Z.compare_spec e1 e2) as [He | He | He].
  - subst e2. change (Pos.compare_cont Eq m1 m2) with (Pos.compare m1 m2).
    destruct (Pos.compare_spec m1 m2) as [Hm | Hm | Hm];
      try discriminate; intros _; apply F2R_le_compat; lia.
  - intros _.
    pose proof (F2R_digits m1 e1) as [_ Hhi].
    pose proof (F2R_digits m2 e2) as [Hlo _].
    assert (bpow (Zdigits2 (Z.pos m1) + e1)
            <= bpow (Zdigits2 (Z.pos m2) - 1 + e2))
      by (apply bpow_le; lia).
    lra.
  - discriminate.
Qed.

(** *** Products with a constant that has a full mantissa *)

Lemma F2R_mul (m1 m2 : positive) (e1 e2 : Z) :
  F2R (Z.pos (m1 * m2)) (e1 + e2) = F2R (Z.pos m1) e1 * F2R (Z.pos m2) e2.
Proof.
  unfold F2R. rewrite Pos2Z.inj_mul, mult_IZR, bpow_add. ring.
Qed.

Lemma product_has_digits (m c : positive) (E : Z) :
  (2 ^ 52 <= Z.pos c)%Z ->
  (E <= fexp prec emax (Zdigits2 (Z.pos (m * c)) + E))%Z.
Proof.
  intros Hc. rewrite fexp_eq.
  assert (52 < Zdigits2 (Z.pos (m * c)))%Z; [|lia].
  apply Zdigits2_ge. rewrite Pos2Z.inj_mul. nia.
Qed.

Lemma SFmul_const_mono (m1 m2 c : positive) (e1 e2 ec : Z) :
  (2 ^ 52 <= Z.pos c)%Z ->
  F2R (Z.pos m1) e1 <= F2R (Z.pos m2) e2 ->
  finite_nonneg (SFmul prec emax (S754_finite false m2 e2)
                   (S754_finite false c ec)) ->
  finite_nonneg (SFmul prec emax (S754_finite false m1 e1)
                   (S754_finite false c ec))
  /\ SF2R (SFmul prec emax (S754_finite false m1 e1)
             (S754_finite false c ec))
     <= SF2R (SFmul prec emax (S754_finite false m2 e2)
                (S754_finite false c ec)).
Proof.
  intros Hc HV. cbn [SFmul xorb].
  apply round_aux_mono; try (apply product_has_digits; exact Hc).
  rewrite !F2R_mul.
  apply Rmult_le_compat_r; [|exact HV].
  unfold F2R. apply Rmult_le_pos; [apply IZR_le; lia|].
  apply Rlt_le, bpow_pos.
Qed.

End Values.

Section Order.

(** *** The order of the doubles *)

Local Open Scope Z_scope.

Lemma SFcompare_key (x y : spec_float) :
  x <> S754_nan -> y <> S754_nan ->
  SFcompare x y = Some (lexOrder (orderKey x) (orderKey y)).
Proof.
  intros Hx Hy.
  destruct x as [sx | sx | | sx mx ex]; try contradiction;
    destruct y as [sy | sy | | sy my ey]; try contradiction;
    try (destruct sx; reflexivity); try (destruct sy; reflexivity);
    try (destruct sx, sy; reflexivity); try reflexivity.
  destruct sx, sy; try reflexivity. unfold SFcompare, lexOrder, orderKey.
  cbn [fst snd]. rewrite Z.compare_opp, (Z.compare_antisym ex ey).
  cbn [Z.compare]. destruct (ex ?= ey); reflexivity.
Qed.

Lemma lex_trans (a b c : Z * Z * Z) :
  lexOrder a b = Lt -> lexOrder b c = Lt -> lexOrder a c = Lt.
Proof.
  destruct a as [[a1 a2] a3], b as [[b1 b2] b3], c as [[c1 c2] c3].
  unfold lexOrder. cbn [fst snd].
  destruct (Z.compare_spec a1 b1), (Z.compare_spec b1 c1),
    (Z.compare_spec a1 c1); try discriminate; try lia; try reflexivity;
    destruct (Z.compare_spec a2 b2), (Z.compare_spec b2 c2),
      (Z.compare_spec a2 c2); try discriminate; try lia; try reflexivity;
    destruct (Z.compare_spec a3 b3), (Z.compare_spec b3 c3),
      (Z.compare_spec a3 c3); try discriminate; try lia; try reflexivity.
Qed.

Lemma lex_antisym (a b : Z * Z * Z) : lexOrder b a = CompOpp (lexOrder a b).
Proof.
  destruct a as [[a1 a2] a3], b as [[b1 b2] b3]. unfold lexOrder. cbn [fst snd].
  rewrite (Z.compare_antisym a1 b1), (Z.compare_antisym a2 b2),
    (Z.compare_antisym a3 b3).
  destruct (a1 ?= b1), (a2 ?= b2), (a3 ?= b3); reflexivity.
Qed.

Lemma lex_refl (a : Z * Z * Z) : lexOrder a a = Eq.
Proof. unfold lexOrder. now rewrite !Z.compare_refl. Qed.

Lemma SFltb_numbers (x y : spec_float) :
  SFltb x y = true -> x <> S754_nan /\ y <> S754_nan.
Proof.
  destruct x, y; cbn; intros H; split; discriminate.
Qed.

(** [<] on the doubles is transitive and irreflexive, and two numbers
    are comparable. *)
Lemma SFltb_trans (x y z : spec_float) :
  SFltb x y = true -> SFltb y z = true -> SFltb x z = true.
Proof.
  intros Hxy Hyz.
  destruct (SFltb_numbers _ _ Hxy) as [Hx Hy].
  destruct (SFltb_numbers _ _ Hyz) as [_ Hz].
  unfold SFltb in *. rewrite SFcompare_key in * by assumption.
  destruct (lexOrder (orderKey x) (orderKey y)) eqn:H1; try discriminate.
  destruct (lexOrder (orderKey y) (orderKey z)) eqn:H2; try discriminate.
  now rewrite (lex_trans _ _ _ H1 H2).
Qed.

Lemma SFltb_irrefl (x : spec_float) : SFltb x x = false.
Proof.
  assert (Hx : x = S754_nan \/ x <> S754_nan)
    by (destruct x; (now left) || (right; discriminate)).
  destruct Hx as [-> | Hx]; [reflexivity|].
  unfold SFltb. rewrite SFcompare_key by assumption. now rewrite lex_refl.
Qed.

(** For two numbers, [not (x < y)] is [y <= x]. *)
Lemma SFltb_false_SFleb (x y : spec_float) :
  x <> S754_nan -> y <> S754_nan -> SFltb x y = false -> SFleb y x = true.
Proof.
  intros Hx Hy. unfold SFltb, SFleb.
  rewrite (SFcompare_key x y), (SFcompare_key y x) by assumption.
  rewrite (lex_antisym (orderKey x) (orderKey y)).
  destruct (lexOrder (orderKey x) (orderKey y)); cbn [CompOpp]; congruence.
Qed.

Lemma SFleb_refl (x : spec_float) : x <> S754_nan -> SFleb x x = true.
Proof.
  intros Hx. apply SFltb_false_SFleb; try assumption. apply SFltb_irrefl.
Qed.

Lemma ltb_trans_binary64 (a b c : float) :
  PrimFloat.ltb a b = true -> PrimFloat.ltb b c = true ->
  PrimFloat.ltb a c = true.
Proof. rewrite !ltb_spec. apply SFltb_trans. Qed.

Lemma ltb_irrefl_binary64 (a : float) : PrimFloat.ltb a a = false.
Proof. rewrite ltb_spec. apply SFltb_irrefl. Qed.

Lemma ltb_false_leb_binary64 (a b : float) :
  Prim2SF a <> S754_nan -> Prim2SF b <> S754_nan ->
  PrimFloat.ltb a b = false -> PrimFloat.leb b a = true.
Proof. rewrite ltb_spec, leb_spec. apply SFltb_false_SFleb. Qed.

Lemma leb_refl_binary64 (a : float) :
  Prim2SF a <> S754_nan -> PrimFloat.leb a a = true.
Proof. rewrite leb_spec. apply SFleb_refl. Qed.

End Order.

Section Signs.

(** *** Signs of products and sums *)

Local Open Scope Z_scope.

Lemma shr_1_nonneg (mrs : shr_record) :
  0 <= shr_m mrs -> 0 <= shr_m (shr_1 mrs).
Proof.
  destruct mrs as [m r s]. cbn [shr_m].
  destruct m as [|[p|p|]|[p|p|]]; cbn; lia.
Qed.

Lemma shr_nonneg (mrs : shr_record) (e n : Z) :
  0 <= shr_m mrs -> 0 <= shr_m (fst (shr mrs e n)).
Proof.
  intros H. destruct n as [|p|p]; cbn [shr fst]; try exact H.
  rewrite iter_pos_nat. apply Nat.iter_invariant; [|exact H].
  apply shr_1_nonneg.
Qed.

Lemma shr_fexp_nonneg (m e : Z) (l : location) :
  0 <= m -> 0 <= shr_m (fst (shr_fexp prec emax m e l)).
Proof.
  intros H. unfold shr_fexp. apply shr_nonneg.
  destruct l as [|[| |]]; exact H.
Qed.

Lemma round_nearest_even_nonneg (m : Z) (l : location) :
  0 <= m -> 0 <= round_nearest_even m l.
Proof.
  intros H. destruct l as [|[| |]]; cbn [round_nearest_even];
    try destruct (Z.even m); lia.
Qed.

(** The rounding of a positive mantissa is a number with the sign it was
    given. *)
Lemma binary_round_aux_signed (s : bool) (p : positive) (E : Z)
    (l : location) :
  if s then nonpos (binary_round_aux prec emax s (Z.pos p) E l)
  else nonneg (binary_round_aux prec emax s (Z.pos p) E l).
Proof.
  rewrite binary_round_aux_eq.
  match goal with |- context [rounded s ?m ?e] =>
    assert (H : 0 <= m)
      by (apply shr_fexp_nonneg, round_nearest_even_nonneg,
            shr_fexp_nonneg; lia);
    destruct m as [|q|q]; [| |lia]; cbn [rounded]
  end.
  - destruct s; exact I.
  - destruct (_ <=? _); destruct s; reflexivity.
Qed.

Lemma binary_round_signed (s : bool) (p : positive) (E : Z) :
  if s then nonpos (binary_round prec emax s p E)
  else nonneg (binary_round prec emax s p E).
Proof.
  unfold binary_round. destruct (shl_align p E _) as [mz ez].
  apply binary_round_aux_signed.
Qed.

Lemma SFmul_nonpos_pos (x : spec_float) (c : positive) (ec : Z) :
  nonpos x -> nonpos (SFmul prec emax x (S754_finite false c ec)).
Proof.
  destruct x as [s | s | | s m e]; cbn [nonpos SFmul]; auto.
  - intros ->. reflexivity.
  - intros ->. apply (binary_round_aux_signed true).
Qed.

Lemma SFmul_nonneg_neg (x : spec_float) (c : positive) (ec : Z) :
  nonneg x -> nonpos (SFmul prec emax x (S754_finite true c ec)).
Proof.
  destruct x as [s | s | | s m e]; cbn [nonneg nonpos SFmul]; auto.
  - intros ->. reflexivity.
  - intros ->. apply (binary_round_aux_signed true).
Qed.

Lemma SFmul_nonpos_neg (x : spec_float) (c : positive) (ec : Z) :
  nonpos x -> nonneg (SFmul prec emax x (S754_finite true c ec)).
Proof.
  destruct x as [s | s | | s m e]; cbn [nonpos nonneg SFmul]; auto.
  - intros ->. reflexivity.
  - intros ->. apply (binary_round_aux_signed false).
Qed.

Lemma SFadd_nonpos (x y : spec_float) :
  nonpos x -> nonpos y -> nonpos (SFadd prec emax x y).
Proof.
  destruct x as [sx | sx | | sx mx ex], y as [sy | sy | | sy my ey];
    cbn [nonpos]; try contradiction; intros Hx Hy; subst;
    try exact I; try reflexivity.
  - destruct sx, sy; exact I.
  - cbn [SFadd cond_Zopp Z.opp Z.add binary_normalize].
    apply (binary_round_signed true).
Qed.

Lemma SFleb_zero_nonpos (x : spec_float) :
  SFleb x (S754_zero false) = true <-> nonpos x.
Proof.
  destruct x as [[|] | [|] | | [|] m e]; cbn; split; auto; discriminate.
Qed.

Lemma SFleb_zero_nonneg (x : spec_float) :
  SFleb (S754_zero false) x = true <-> nonneg x.
Proof.
  destruct x as [[|] | [|] | | [|] m e]; cbn; split; auto; discriminate.
Qed.

End Signs.

Section Magnitude.

(** *** Bounds on the magnitude *)

Local Open Scope Z_scope.

Lemma shl_align_spec (m : positive) (e e' : Z) :
  snd (shl_align m e e') = Z.min e e'
  /\ Z.pos (fst (shl_align m e e'))
     = Z.pos m * 2 ^ (e - snd (shl_align m e e')).
Proof.
  unfold shl_align. destruct (e' - e) as [|d|d] eqn:Hd; cbn [fst snd].
  - split; [lia|]. rewrite Z.sub_diag. lia.
  - split; [lia|]. rewrite Z.sub_diag. lia.
  - split; [lia|].
    change (Pos.iter xO m d) with (shift_pos d m).
    rewrite shift_pos_correct. change (Z.pow_pos 2 d) with (2 ^ Z.pos d).
    replace (e - e') with (Z.pos d) by lia. lia.
Qed.

Lemma shl_align_value (m : positive) (e e' : Z) :
  F2R (Z.pos (fst (shl_align m e e'))) (snd (shl_align m e e'))
  = F2R (Z.pos m) e.
Proof.
  destruct (shl_align_spec m e e') as [Hs Hm]. rewrite Hm.
  rewrite F2R_shift by lia. f_equal. lia.
Qed.

Lemma Zdigits2_shift (m : positive) (d : Z) (q : positive) :
  0 <= d -> Z.pos q = Z.pos m * 2 ^ d ->
  Zdigits2 (Z.pos q) = Zdigits2 (Z.pos m) + d.
Proof.
  intros Hd Hq. pose proof (Zdigits2_bounds m) as [Hlo Hhi].
  pose proof (pow2_pos d Hd) as HP.
  assert (H1 : Zdigits2 (Z.pos m) >= 1) by (cbn; lia).
  assert (Hle : Zdigits2 (Z.pos q) <= Zdigits2 (Z.pos m) + d).
  { apply Zdigits2_le. rewrite Hq, Z.pow_add_r by lia. nia. }
  assert (Hge : Zdigits2 (Z.pos m) + d - 1 < Zdigits2 (Z.pos q)).
  { apply Zdigits2_ge. rewrite Hq.
    replace (Zdigits2 (Z.pos m) + d - 1) with (Zdigits2 (Z.pos m) - 1 + d)
      by lia.
    rewrite Z.pow_add_r by lia. nia. }
  lia.
Qed.

(** [binary_round] hands [binary_round_aux] an input with the digits the
    format keeps. *)
Lemma binary_round_has_digits (p : positive) (e : Z) :
  let a := shl_align p e (fexp prec emax (Z.pos (digits2_pos p) + e)) in
  snd a <= fexp prec emax (Zdigits2 (Z.pos (fst a)) + snd a).
Proof.
  intros a. unfold a.
  destruct (shl_align_spec p e (fexp prec emax (Z.pos (digits2_pos p) + e)))
    as [Hs Hm].
  set (f := fexp prec emax (Z.pos (digits2_pos p) + e)) in *.
  rewrite (Zdigits2_shift p (e - snd (shl_align p e f)) _ ltac:(lia) Hm).
  replace (Zdigits2 (Z.pos p) + (e - snd (shl_align p e f))
           + snd (shl_align p e f))
    with (Z.pos (digits2_pos p) + e) by (cbn [Zdigits2]; lia).
  fold f. lia.
Qed.

Lemma round_pow (k : Z) :
  -1022 <= k <= 1023 ->
  binary_round_aux prec emax false (2 ^ 52) (k - 52) loc_Exact
  = S754_finite false 4503599627370496 (k - 52).
Proof.
  intros Hk.
  assert (Hg : fexp prec emax (Zdigits2 (2 ^ 52) + (k - 52)) = k - 52).
  { rewrite fexp_eq. replace (Zdigits2 (2 ^ 52)) with 53 by reflexivity.
    lia. }
  destruct (round_aux_spec false 4503599627370496 (k - 52))
    as [m [e [Hr [Hge [HR [Hb Hnorm]]]]]].
  { change (Z.pos 4503599627370496) with (2 ^ 52). lia. }
  change (Z.pos 4503599627370496) with (2 ^ 52) in *.
  rewrite Hg in *. rewrite Z.sub_diag, rne_0 in HR. rewrite Hr.
  assert (He : e = k - 52).
  { destruct (Z.eq_dec e (k - 52)) as [|Hne]; [assumption|]. exfalso.
    assert (2 ^ 1 <= 2 ^ (e - (k - 52))) by (apply Z.pow_le_mono_r; lia).
    assert (2 ^ 52 <= m) by (apply Hnorm; lia).
    change (2 ^ 1) with 2 in *. nia. }
  subst e. rewrite Z.sub_diag, Z.pow_0_r, Z.mul_1_r in HR. subst m.
  change (2 ^ 52) with (Z.pos 4503599627370496). cbn [rounded].
  change (emax - prec) with 971.
  destruct (Z.leb_spec (k - 52) 971); [reflexivity | lia].
Qed.

(** The product of the mantissas of two doubles has the digits that the
    format keeps. *)
Lemma valid_product_has_digits (m1 m2 : positive) (e1 e2 : Z) :
  SpecFloat.bounded prec emax m1 e1 = true ->
  SpecFloat.bounded prec emax m2 e2 = true ->
  e1 + e2 <= fexp prec emax (Zdigits2 (Z.pos (m1 * m2)) + (e1 + e2)).
Proof.
  intros H1 H2. apply bounded_canonical in H1, H2. rewrite fexp_eq.
  pose proof (Zdigits2_bounds m1) as [Hl1 _].
  pose proof (Zdigits2_bounds m2) as [Hl2 _].
  assert (Hd1 : 1 <= Zdigits2 (Z.pos m1)) by (cbn; lia).
  assert (Hd2 : 1 <= Zdigits2 (Z.pos m2)) by (cbn; lia).
  assert (Hd : Zdigits2 (Z.pos m1) - 1 + (Zdigits2 (Z.pos m2) - 1)
               < Zdigits2 (Z.pos (m1 * m2))).
  { apply Zdigits2_ge. rewrite Z.pow_add_r, Pos2Z.inj_mul by lia.
    apply Z.mul_le_mono_nonneg; try assumption; apply Z.pow_nonneg; lia. }
  lia.
Qed.

Local Open Scope R_scope.

(** A rounded value does not exceed a power of two that the input does not
    exceed. *)
Lemma round_aux_bound (p : positive) (E k : Z) :
  (E <= fexp prec emax (Zdigits2 (Z.pos p) + E))%Z ->
  (-1022 <= k <= 1023)%Z ->
  F2R (Z.pos p) E <= bpow k ->
  finite_nonneg (binary_round_aux prec emax false (Z.pos p) E loc_Exact)
  /\ SF2R (binary_round_aux prec emax false (Z.pos p) E loc_Exact) <= bpow k.
Proof.
  intros Hn Hk HV.
  assert (Hpow : F2R (Z.pos 4503599627370496) (k - 52) = bpow k).
  { change (Z.pos 4503599627370496) with (2 ^ 52)%Z.
    rewrite F2R_pow by lia. f_equal. lia. }
  pose proof (round_aux_mono p 4503599627370496 E (k - 52) Hn) as H.
  change (Z.pos 4503599627370496) with (2 ^ 52)%Z in H.
  rewrite (round_pow k Hk) in H. cbn [finite_nonneg SF2R] in H.
  rewrite Hpow in H. apply H; auto.
  - rewrite fexp_eq. replace (Zdigits2 (2 ^ 52)) with 53%Z by reflexivity.
    lia.
  - change (2 ^ 52)%Z with (Z.pos 4503599627370496). now rewrite Hpow.
Qed.

Lemma mag_zero (s : bool) (k : Z) : magnitude k (S754_zero s).
Proof.
  split; [exact I|]. cbn [SFabs SF2R]. apply Rlt_le, bpow_pos.
Qed.

Lemma mag_weaken (k k' : Z) (x : spec_float) :
  (k <= k')%Z -> magnitude k x -> magnitude k' x.
Proof.
  intros Hk [Hf Hv]. split; [exact Hf|].
  apply Rle_trans with (bpow k); [exact Hv | now apply bpow_le].
Qed.

Lemma F2R_nonneg (m : positive) (e : Z) : 0 <= F2R (Z.pos m) e.
Proof.
  unfold F2R. apply Rmult_le_pos; [apply IZR_le; lia|].
  apply Rlt_le, bpow_pos.
Qed.

Lemma SFabs_binary_round (s : bool) (p : positive) (e : Z) :
  SFabs (binary_round prec emax s p e) = binary_round prec emax false p e.
Proof.
  unfold binary_round. destruct (shl_align p e _) as [mz ez].
  apply SFabs_round_aux.
Qed.

Lemma binary_round_bound (p : positive) (e k : Z) :
  (-1022 <= k <= 1023)%Z -> F2R (Z.pos p) e <= bpow k ->
  finite_nonneg (binary_round prec emax false p e)
  /\ SF2R (binary_round prec emax false p e) <= bpow k.
Proof.
  intros Hk HV. unfold binary_round.
  pose proof (binary_round_has_digits p e) as Hd.
  pose proof (shl_align_value p e
                (fexp prec emax (Z.pos (digits2_pos p) + e))) as Hval.
  cbn zeta in Hd.
  destruct (shl_align p e (fexp prec emax (Z.pos (digits2_pos p) + e)))
    as [mz ez]. cbn [fst snd] in *.
  apply round_aux_bound; [exact Hd | exact Hk | now rewrite Hval].
Qed.

(** A sum of two numbers of magnitude at most [2^k] has magnitude at
    most [2^(k+1)], and a product has at most the product of the
    bounds. *)
Lemma SFadd_mag (x y : spec_float) (k : Z) :
  magnitude k x -> magnitude k y -> (-1022 <= k + 1 <= 1023)%Z ->
  magnitude (k + 1) (SFadd prec emax x y).
Proof.
  intros Hx Hy Hk.
  assert (Hx' := mag_weaken k (k + 1) x ltac:(lia) Hx).
  assert (Hy' := mag_weaken k (k + 1) y ltac:(lia) Hy).
  destruct x as [sx | sx | | sx mx ex];
    try (destruct Hx as [[] _]; fail);
    destruct y as [sy | sy | | sy my ey];
    try (destruct Hy as [[] _]; fail); try assumption.
  - destruct sx, sy; apply mag_zero.
  - destruct Hx as [_ Hxv], Hy as [_ Hyv]. cbn [SFabs SF2R] in Hxv, Hyv.
    cbn [SFadd].
    set (ez := Z.min ex ey).
    pose proof (shl_align_value mx ex ez) as Ha.
    pose proof (shl_align_value my ey ez) as Hb.
    destruct (shl_align_spec mx ex ez) as [Ha1 _].
    destruct (shl_align_spec my ey ez) as [Hb1 _].
    replace (snd (shl_align mx ex ez)) with ez in Ha by (unfold ez in *; lia).
    replace (snd (shl_align my ey ez)) with ez in Hb by (unfold ez in *; lia).
    set (ma := fst (shl_align mx ex ez)) in *.
    set (mb := fst (shl_align my ey ez)) in *.
    assert (Hsum : forall p : positive,
              (Z.pos p <= Z.pos ma + Z.pos mb)%Z ->
              F2R (Z.pos p) ez <= bpow (k + 1)).
    { intros p Hp. apply Rle_trans with (F2R (Z.pos ma + Z.pos mb) ez).
      - now apply F2R_le_compat.
      - unfold F2R in *. rewrite plus_IZR, Rmult_plus_distr_r, Ha, Hb.
        rewrite bpow_add.
        replace (bpow 1) with 2 by (unfold bpow; simpl; lra). lra. }
    destruct (cond_Zopp sx (Z.pos ma) + cond_Zopp sy (Z.pos mb))%Z
      as [|p|p] eqn:HS; cbn [binary_normalize].
    + apply mag_zero.
    + unfold magnitude. rewrite SFabs_binary_round.
      apply binary_round_bound; [exact Hk|]. apply Hsum.
      destruct sx, sy; cbn [cond_Zopp] in HS; lia.
    + unfold magnitude. rewrite SFabs_binary_round.
      apply binary_round_bound; [exact Hk|]. apply Hsum.
      destruct sx, sy; cbn [cond_Zopp] in HS; lia.
Qed.

Lemma SFmul_mag (x y : spec_float) (k j : Z) :
  SpecFloat.valid_binary prec emax x = true ->
  SpecFloat.valid_binary prec emax y = true ->
  magnitude k x -> magnitude j y -> (-1022 <= k + j <= 1023)%Z ->
  magnitude (k + j) (SFmul prec emax x y).
Proof.
  intros Hvx Hvy [Hfx Hx] [Hfy Hy] Hk.
  destruct x as [sx | sx | | sx mx ex]; cbn [SFabs finite_nonneg] in Hfx;
    try contradiction;
    destruct y as [sy | sy | | sy my ey]; cbn [SFabs finite_nonneg] in Hfy;
    try contradiction; try apply mag_zero.
  cbn [SFabs SF2R] in Hx, Hy. cbn [SpecFloat.valid_binary] in Hvx, Hvy.
  unfold magnitude. cbn [SFmul].
  rewrite SFabs_round_aux. apply round_aux_bound; [|exact Hk|].
  - now apply valid_product_has_digits.
  - rewrite F2R_mul, bpow_add.
    pose proof (F2R_nonneg mx ex). pose proof (F2R_nonneg my ey).
    apply Rmult_le_compat; assumption.
Qed.

Lemma SFsub_mag (x y : spec_float) (k : Z) :
  magnitude k x -> magnitude k y -> (-1022 <= k + 1 <= 1023)%Z ->
  magnitude (k + 1) (SFsub prec emax x y).
Proof.
  intros Hx Hy Hk.
  assert (Hx' := mag_weaken k (k + 1) x ltac:(lia) Hx).
  assert (Hy' := mag_weaken k (k + 1) y ltac:(lia) Hy).
  destruct x as [sx | sx | | sx mx ex];
    try (destruct Hx as [[] _]; fail);
    destruct y as [sy | sy | | sy my ey];
    try (destruct Hy as [[] _]; fail); try assumption.
  - destruct sx, sy; apply mag_zero.
  - destruct Hx as [_ Hxv], Hy as [_ Hyv]. cbn [SFabs SF2R] in Hxv, Hyv.
    cbn [SFsub].
    set (ez := Z.min ex ey).
    pose proof (shl_align_value mx ex ez) as Ha.
    pose proof (shl_align_value my ey ez) as Hb.
    destruct (shl_align_spec mx ex ez) as [Ha1 _].
    destruct (shl_align_spec my ey ez) as [Hb1 _].
    replace (snd (shl_align mx ex ez)) with ez in Ha by (unfold ez in *; lia).
    replace (snd (shl_align my ey ez)) with ez in Hb by (unfold ez in *; lia).
    set (ma := fst (shl_align mx ex ez)) in *.
    set (mb := fst (shl_align my ey ez)) in *.
    assert (Hsum : forall p : positive,
              (Z.pos p <= Z.pos ma + Z.pos mb)%Z ->
              F2R (Z.pos p) ez <= bpow (k + 1)).
    { intros p Hp. apply Rle_trans with (F2R (Z.pos ma + Z.pos mb) ez).
      - now apply F2R_le_compat.
      - unfold F2R in *. rewrite plus_IZR, Rmult_plus_distr_r, Ha, Hb.
        rewrite bpow_add.
        replace (bpow 1) with 2 by (unfold bpow; simpl; lra). lra. }
    destruct (cond_Zopp sx (Z.pos ma) - cond_Zopp sy (Z.pos mb))%Z
      as [|p|p] eqn:HS; cbn [binary_normalize].
    + apply mag_zero.
    + unfold magnitude. rewrite SFabs_binary_round.
      apply binary_round_bound; [exact Hk|]. apply Hsum.
      destruct sx, sy; cbn [cond_Zopp] in HS; lia.
    + unfold magnitude. rewrite SFabs_binary_round.
      apply binary_round_bound; [exact Hk|]. apply Hsum.
      destruct sx, sy; cbn [cond_Zopp] in HS; lia.
Qed.

Lemma SFopp_mag (x : spec_float) (k : Z) :
  magnitude k x -> magnitude k (SFopp x).
Proof. destruct x; exact (fun H => H). Qed.

(** The operations on doubles. *)
Lemma mul_mag (a b : float) (k j : Z) :
  magnitude k (Prim2SF a) -> magnitude j (Prim2SF b) ->
  (-1022 <= k + j <= 1023)%Z ->
  magnitude (k + j) (Prim2SF (PrimFloat.mul a b)).
Proof.
  intros Ha Hb Hk. rewrite mul_spec.
  apply SFmul_mag; try assumption; apply Prim2SF_valid.
Qed.

Lemma add_mag (a b : float) (k : Z) :
  magnitude k (Prim2SF a) -> magnitude k (Prim2SF b) ->
  (-1022 <= k + 1 <= 1023)%Z ->
  magnitude (k + 1) (Prim2SF (PrimFloat.add a b)).
Proof. intros Ha Hb Hk. rewrite add_spec. now apply SFadd_mag. Qed.

Lemma sub_mag (a b : float) (k : Z) :
  magnitude k (Prim2SF a) -> magnitude k (Prim2SF b) ->
  (-1022 <= k + 1 <= 1023)%Z ->
  magnitude (k + 1) (Prim2SF (PrimFloat.sub a b)).
Proof. intros Ha Hb Hk. rewrite sub_spec. now apply SFsub_mag. Qed.

Lemma opp_mag (a : float) (k : Z) :
  magnitude k (Prim2SF a) -> magnitude k (Prim2SF (PrimFloat.opp a)).
Proof. intros Ha. rewrite opp_spec. now apply SFopp_mag. Qed.

(** [|x| <= 2^k], as the doubles compare. *)
Lemma mag_of_leb (x B : float) (k : Z) :
  Prim2SF B = S754_finite false 4503599627370496 (k - 52) ->
  PrimFloat.leb (PrimFloat.abs x) B = true -> magnitude k (Prim2SF x).
Proof.
  intros HB. rewrite leb_spec, abs_spec.
  pose proof (Prim2SF_valid B) as HvB. rewrite HB in *.
  pose proof (Prim2SF_valid x) as Hv. unfold valid_binary in Hv, HvB.
  destruct (Prim2SF x) as [s | s | | s m e]; cbn [SFabs]; try discriminate.
  - intros _. apply mag_zero.
  - intros H. split; [exact I|]. cbn [SFabs SF2R].
    cbn [SpecFloat.valid_binary] in Hv, HvB.
    apply (SFleb_value m _ e _ Hv HvB) in H.
    change (Z.pos 4503599627370496) with (2 ^ 52)%Z in H.
    rewrite F2R_pow in H by lia.
    replace (k - 52 + 52)%Z with k in H by lia. exact H.
Qed.

End Magnitude.

(** ** The shading in binary64 *)

Section Shading.

Local Open Scope Z_scope.

Lemma intensity_shade (n : Vec3 float) :
  intensity n = shade (dot n lightDir).
Proof. reflexivity. Qed.

Lemma double_to_int_sf (x : float) :
  double_to_int x = sf_to_int (Prim2SF x).
Proof. reflexivity. Qed.

Lemma shade_sf (d : float) :
  shade d
  = option_map clamp255
      (sf_to_int (SFmul prec emax (clampSF (Prim2SF d)) c255)).
Proof.
  unfold shade. cbn [to_int fmul flt double].
  change (of_int 0) with 0%float.
  rewrite double_to_int_sf, mul_spec, ltb_spec.
  change (Prim2SF 0) with (S754_zero false).
  replace (Prim2SF (of_int 255)) with c255 by (vm_compute; reflexivity).
  unfold clampSF.
  destruct (SFltb (Prim2SF d) (S754_zero false));
    [change (Prim2SF 0) with (S754_zero false)|];
    destruct (sf_to_int _); reflexivity.
Qed.

Lemma sf_to_int_nonneg (x : spec_float) (z : Z) :
  not_negative x -> sf_to_int x = Some z -> 0 <= z.
Proof.
  intros Hs Hz.
  destruct x as [s | s | | s m e]; cbn [not_negative] in Hs;
    try discriminate Hz.
  - cbn in Hz. assert (z = 0) by congruence. lia.
  - destruct s; [contradiction|].
    destruct (sf_to_int_mono (S754_zero false) (S754_finite false m e) z)
      as [z1 [_ H]]; cbn [finite_nonneg SF2R]; auto; try lia.
    unfold F2R. apply Rmult_le_pos; [apply IZR_le; lia|].
    apply Rlt_le, bpow_pos.
Qed.

Lemma clamp_product_sign (x : spec_float) :
  not_negative (SFmul prec emax (clampSF x) c255).
Proof.
  unfold clampSF, c255.
  destruct x as [[|] | [|] | | [|] m e]; cbn; auto.
  apply signed_not_negative. apply binary_round_aux_sign.
Qed.

Lemma round_result_finite (p : positive) (E z : Z) :
  E <= fexp prec emax (Zdigits2 (Z.pos p) + E) ->
  sf_to_int (binary_round_aux prec emax false (Z.pos p) E loc_Exact)
    = Some z ->
  finite_nonneg (binary_round_aux prec emax false (Z.pos p) E loc_Exact).
Proof.
  intros Hn.
  destruct (round_aux_spec false p E Hn) as [m [e [-> [_ [_ [Hm _]]]]]].
  destruct m as [|q|q]; cbn [rounded]; [cbn; auto | | lia].
  destruct (e <=? emax - prec); cbn [finite_nonneg sf_to_int];
    [auto | discriminate].
Qed.

(** On the specification: of two numbers in the order of the doubles, the
    smaller one gets the smaller integer, and a defined one when the
    larger one does. *)
Lemma sf_shade_mono (x1 x2 : spec_float) (z2 : Z) :
  valid_binary x1 = true -> valid_binary x2 = true ->
  SFleb x1 x2 = true ->
  sf_to_int (SFmul prec emax (clampSF x2) c255) = Some z2 ->
  exists z1, sf_to_int (SFmul prec emax (clampSF x1) c255) = Some z1
             /\ 0 <= z1 <= z2.
Proof.
  intros Hv1 Hv2 Hle Hz.
  pose proof (sf_to_int_nonneg _ _ (clamp_product_sign x2) Hz) as Hz0.
  assert (Hzero : forall x,
            SFmul prec emax (clampSF x) c255 = S754_zero false ->
            exists z1, sf_to_int (SFmul prec emax (clampSF x) c255) = Some z1
                       /\ 0 <= z1 <= z2).
  { intros x ->. exists 0. split; [reflexivity | lia]. }
  destruct x1 as [[|] | [|] | | [|] m1 e1];
    try (apply Hzero; reflexivity); try discriminate Hle.
  - exists 0. split; [reflexivity | lia].
  - destruct x2 as [[|] | [|] | | [|] m2 e2]; try discriminate Hle;
      discriminate Hz.
  - destruct x2 as [[|] | [|] | | [|] m2 e2]; try discriminate Hle;
      try discriminate Hz.
    unfold valid_binary in Hv1, Hv2.
    cbn [SpecFloat.valid_binary] in Hv1, Hv2.
    pose proof (SFleb_value m1 m2 e1 e2 Hv1 Hv2 Hle) as HV.
    change (clampSF (S754_finite false m1 e1)) with (S754_finite false m1 e1).
    change (clampSF (S754_finite false m2 e2)) with (S754_finite false m2 e2)
      in Hz.
    unfold c255 in *.
    assert (Hc : 2 ^ 52 <= Z.pos 8972014882652160) by lia.
    assert (Hf2 : finite_nonneg
                    (SFmul prec emax (S754_finite false m2 e2)
                       (S754_finite false 8972014882652160 (-45)))).
    { cbn [SFmul xorb] in *. apply (round_result_finite _ _ z2); [|exact Hz].
      apply product_has_digits. exact Hc. }
    destruct (SFmul_const_mono m1 m2 _ e1 e2 (-45) Hc HV Hf2) as [Hf1 Hle12].
    exact (sf_to_int_mono _ _ z2 Hf1 Hf2 Hle12 Hz).
Qed.

(** The shade does not decrease when [diff] grows, and it is defined for
    every [diff] below one for which it is defined. *)
Lemma shade_mono (d1 d2 : float) (c2 : Z) :
  PrimFloat.leb d1 d2 = true -> shade d2 = Some c2 ->
  exists c1, shade d1 = Some c1 /\ 0 <= c1 <= c2 /\ c2 <= 255.
Proof.
  rewrite leb_spec, !shade_sf. intros Hle H2.
  destruct (sf_to_int (SFmul prec emax (clampSF (Prim2SF d2)) c255))
    as [z2|] eqn:Hz2; [|discriminate H2].
  destruct (sf_shade_mono _ _ z2 (Prim2SF_valid d1) (Prim2SF_valid d2) Hle Hz2)
    as [z1 [-> Hz]].
  cbn [option_map] in *. exists (clamp255 z1). split; [reflexivity|].
  assert (c2 = clamp255 z2) by congruence. subst c2. unfold clamp255.
  destruct (Z.ltb_spec 255 z1), (Z.ltb_spec 255 z2); lia.
Qed.

Lemma SFleb_false_SFltb (x y : spec_float) :
  x <> S754_nan -> y <> S754_nan -> SFleb x y = false -> SFltb y x = true.
Proof.
  intros Hx Hy. unfold SFltb, SFleb.
  rewrite (SFcompare_key x y), (SFcompare_key y x) by assumption.
  rewrite (lex_antisym (orderKey x) (orderKey y)).
  destruct (lexOrder (orderKey x) (orderKey y)); cbn [CompOpp]; congruence.
Qed.

Lemma shade_nan (d : float) : Prim2SF d = S754_nan -> shade d = None.
Proof. intros H. rewrite shade_sf, H. reflexivity. Qed.

(** No double lies between [shadeMax] and [shadeMaxNext]. *)
Lemma above_shadeMax (d : float) :
  PrimFloat.ltb shadeMax d = true -> PrimFloat.leb shadeMaxNext d = true.
Proof.
  rewrite ltb_spec, leb_spec. intros H.
  destruct (SFltb_numbers _ _ H) as [_ Hd].
  unfold SFltb, SFleb in *.
  rewrite SFcompare_key in * by (assumption || (vm_compute; discriminate)).
  replace (orderKey (Prim2SF shadeMax))
    with (1, -29, 4521260802379791) in H by (vm_compute; reflexivity).
  replace (orderKey (Prim2SF shadeMaxNext))
    with (1, -29, 4521260802379792) by (vm_compute; reflexivity).
  destruct (orderKey (Prim2SF d)) as [[k1 k2] k3]. unfold lexOrder in *.
  cbn [fst snd] in *.
  destruct (Z.compare_spec 1 k1); try discriminate; try reflexivity.
  destruct (Z.compare_spec (-29) k2); try discriminate; try reflexivity.
  destruct (Z.compare_spec 4521260802379791 k3); try discriminate.
  destruct (Z.compare_spec 4521260802379792 k3); try reflexivity. lia.
Qed.

(** The cast is defined exactly for the values of [diff] up to
    [shadeMax]. *)
Lemma shade_defined (d : float) :
  shade d <> None <-> PrimFloat.leb d shadeMax = true.
Proof.
  split.
  - intros Hs. destruct (PrimFloat.leb d shadeMax) eqn:Hle; [reflexivity|].
    exfalso. apply Hs.
    assert (Hd : Prim2SF d = S754_nan \/ Prim2SF d <> S754_nan)
      by (destruct (Prim2SF d); (now left) || (right; discriminate)).
    destruct Hd as [Hd | Hd]; [now apply shade_nan|].
    assert (Hlt : PrimFloat.ltb shadeMax d = true).
    { rewrite ltb_spec. rewrite leb_spec in Hle.
      apply SFleb_false_SFltb;
        [exact Hd | vm_compute; discriminate | exact Hle]. }
    apply above_shadeMax in Hlt.
    destruct (shade d) as [c|] eqn:Hc; [|reflexivity].
    destruct (shade_mono _ _ c Hlt Hc) as [c1 [H1 _]].
    vm_compute in H1. discriminate H1.
  - intros Hle.
    destruct (shade_mono d shadeMax 255 Hle) as [c [-> _]];
      [vm_compute; reflexivity | discriminate].
Qed.

Lemma shade_nonpos (d : float) :
  PrimFloat.leb d 0 = true -> shade d = Some 0.
Proof.
  intros H. destruct (shade_mono d 0 0 H) as [c [-> Hc]];
    [vm_compute; reflexivity|].
  f_equal. lia.
Qed.

(** *** Normals that face away from the light *)

(** The components of [lightDir] are [(a, a, -a)] with [a] about 0.577. *)
Lemma lightDir_binary64 :
  Prim2SF (vx (lightDir (num := float)))
    = S754_finite false 5200308914369309 (-53)
  /\ Prim2SF (vy (lightDir (num := float)))
     = S754_finite false 5200308914369309 (-53)
  /\ Prim2SF (vz (lightDir (num := float)))
     = S754_finite true 5200308914369309 (-53).
Proof. vm_compute. repeat split. Qed.

(** A normal in the octant opposite to the light has a dot product with
    the light that is not above zero. *)
Lemma dot_against_light (n : Vec3 float) :
  PrimFloat.leb (vx n) 0 = true -> PrimFloat.leb (vy n) 0 = true ->
  PrimFloat.leb 0 (vz n) = true ->
  PrimFloat.leb (dot n lightDir) 0 = true.
Proof.
  rewrite !leb_spec. change (Prim2SF 0) with (S754_zero false).
  rewrite !SFleb_zero_nonpos, SFleb_zero_nonneg. intros Hx Hy Hz.
  unfold dot. cbn [fadd fmul double]. rewrite !add_spec, !mul_spec.
  destruct lightDir_binary64 as [-> [-> ->]].
  apply SFadd_nonpos; [apply SFadd_nonpos|].
  - now apply SFmul_nonpos_pos.
  - now apply SFmul_nonpos_pos.
  - now apply SFmul_nonneg_neg.
Qed.

(** The light direction scaled by a negative factor lies in that
    octant. *)
Lemma scaled_light_octant (k : float) :
  PrimFloat.ltb k 0 = true ->
  PrimFloat.leb (vx (scale lightDir k)) 0 = true
  /\ PrimFloat.leb (vy (scale lightDir k)) 0 = true
  /\ PrimFloat.leb 0 (vz (scale lightDir k)) = true.
Proof.
  rewrite ltb_spec. intros Hk.
  assert (Hneg : nonpos (Prim2SF k)).
  { apply SFleb_zero_nonpos. change (Prim2SF 0) with (S754_zero false) in Hk.
    unfold SFltb in Hk. unfold SFleb.
    destruct (SFcompare _ _) as [[| |]|]; congruence. }
  unfold scale. cbn [vx vy vz fmul double].
  rewrite !leb_spec, !mul_spec. change (Prim2SF 0) with (S754_zero false).
  destruct lightDir_binary64 as [-> [-> ->]].
  rewrite !SFleb_zero_nonpos, SFleb_zero_nonneg.
  rewrite (SFmul_comm (S754_finite false _ _)).
  rewrite (SFmul_comm (S754_finite true _ _)).
  split; [|split].
  - now apply SFmul_nonpos_pos.
  - now apply SFmul_nonpos_pos.
  - now apply SFmul_nonpos_neg.
Qed.

(** *** Normals of bounded components *)

Local Open Scope R_scope.

Lemma lightDir_magnitude : vecMagnitude 0 (lightDir (num := float)).
Proof.
  assert (H : F2R (Z.pos 5200308914369309) (-53) <= bpow 0).
  { replace (bpow 0) with (F2R (2 ^ 53) (-53))
      by (rewrite F2R_pow by lia; reflexivity).
    apply F2R_le_compat. lia. }
  unfold vecMagnitude. destruct lightDir_binary64 as [-> [-> ->]].
  split; [|split]; (split; [exact I | exact H]).
Qed.

Lemma dot_magnitude (a b : Vec3 float) (k j : Z) :
  (-1022 <= k + j <= 1021)%Z ->
  vecMagnitude k a -> vecMagnitude j b ->
  magnitude (k + j + 2) (Prim2SF (dot a b)).
Proof.
  intros Hk [Hax [Hay Haz]] [Hbx [Hby Hbz]].
  unfold dot. cbn [fadd fmul double].
  replace (k + j + 2)%Z with (k + j + 1 + 1)%Z by lia.
  apply add_mag; [| |lia].
  - apply add_mag; [| |lia]; apply mul_mag; auto; lia.
  - apply (mag_weaken (k + j)); [lia|]. apply mul_mag; auto; lia.
Qed.

Lemma within_magnitude (b : float) (v : Vec3 float) (k : Z) :
  Prim2SF b = S754_finite false 4503599627370496 (k - 52) ->
  within b v -> vecMagnitude k v.
Proof.
  intros Hb [Hx [Hy Hz]].
  split; [|split]; now apply (mag_of_leb _ b).
Qed.

Lemma magnitude_below_shadeMax (d : float) :
  magnitude 22 (Prim2SF d) -> PrimFloat.leb d shadeMax = true.
Proof.
  rewrite leb_spec.
  replace (Prim2SF shadeMax)
    with (S754_finite false 4521260802379791 (-29))
    by (vm_compute; reflexivity).
  pose proof (Prim2SF_valid d) as Hv. unfold valid_binary in Hv.
  intros [Hf Hm].
  destruct (Prim2SF d) as [s | s | | s m e]; cbn [SFabs finite_nonneg] in Hf;
    try contradiction; [reflexivity|].
  destruct s; [reflexivity|]. cbn [SFabs SF2R] in Hm.
  cbn [SpecFloat.valid_binary] in Hv.
  apply SFltb_false_SFleb; try discriminate.
  destruct (SFltb _ _) eqn:Hlt; [exfalso | reflexivity].
  assert (Hle : SFleb (S754_finite false 4521260802379791 (-29))
                  (S754_finite false m e) = true).
  { unfold SFltb in Hlt. unfold SFleb.
    destruct (SFcompare _ _) as [[| |]|]; congruence. }
  apply SFleb_value in Hle; [|reflexivity | exact Hv].
  assert (Hb : bpow 22 = F2R (2 ^ 51) (-29))
    by (rewrite F2R_pow by lia; reflexivity).
  rewrite Hb in Hm.
  assert (H : F2R 4521260802379791 (-29) <= F2R (2 ^ 51) (-29)) by lra.
  apply F2R_le_inv in H. lia.
Qed.

(** The cast is defined for every normal with components of magnitude at
    most [2^20]. *)
Lemma intensity_of_bounded (n : Vec3 float) :
  vecMagnitude 20 n ->
  exists c, intensity n = Some c /\ (0 <= c <= 255)%Z.
Proof.
  intros Hn.
  assert (Hd : PrimFloat.leb (dot n lightDir) shadeMax = true).
  { apply magnitude_below_shadeMax.
    apply (dot_magnitude n lightDir 20 0); [lia | exact Hn |].
    exact lightDir_magnitude. }
  rewrite intensity_shade.
  destruct (shade_mono _ shadeMax 255 Hd) as [c [Hc Hr]];
    [vm_compute; reflexivity|].
  exists c. split; [exact Hc | lia].
Qed.

End Shading.

(** ** Rotated normals stay bounded in binary64 *)

Section RotateBound.

Local Open Scope R_scope.

Lemma SFltb_value (m1 m2 : positive) (e1 e2 : Z) :
  SpecFloat.bounded prec emax m1 e1 = true ->
  SpecFloat.bounded prec emax m2 e2 = true ->
  SFltb (S754_finite false m1 e1) (S754_finite false m2 e2) = true ->
  F2R (Z.pos m1) e1 < F2R (Z.pos m2) e2.
Proof.
  intros H1 H2. apply bounded_canonical in H1, H2.
  unfold SFltb, SFcompare.
  destruct (Z.compare_spec e1 e2) as [He | He | He].
  - subst e2. change (Pos.compare_cont Eq m1 m2) with (Pos.compare m1 m2).
    destruct (Pos.compare_spec m1 m2) as [Hm | Hm | Hm];
      try discriminate; intros _.
    unfold F2R. apply Rmult_lt_compat_r; [apply bpow_pos|].
    apply IZR_lt. lia.
  - intros _.
    pose proof (F2R_digits m1 e1) as [_ Hhi].
    pose proof (F2R_digits m2 e2) as [Hlo _].
    assert (bpow (Zdigits2 (Z.pos m1) + e1)
            <= bpow (Zdigits2 (Z.pos m2) - 1 + e2))
      by (apply bpow_le; lia).
    lra.
  - discriminate.
Qed.

Lemma leb_of_mag (x B : float) (k : Z) :
  Prim2SF B = S754_finite false 4503599627370496 (k - 52) ->
  magnitude k (Prim2SF x) -> PrimFloat.leb (PrimFloat.abs x) B = true.
Proof.
  intros HB. rewrite leb_spec, abs_spec.
  pose proof (Prim2SF_valid B) as HvB. rewrite HB in *.
  pose proof (Prim2SF_valid x) as Hv. unfold valid_binary in Hv, HvB.
  intros [Hf Hm].
  destruct (Prim2SF x) as [s | s | | s m e]; cbn [SFabs finite_nonneg] in *;
    try contradiction; [reflexivity|].
  cbn [SF2R] in Hm. cbn [SpecFloat.valid_binary] in Hv, HvB.
  apply SFltb_false_SFleb; try discriminate.
  destruct (SFltb _ _) eqn:Hlt; [exfalso | reflexivity].
  apply SFltb_value in Hlt; [|exact HvB | exact Hv].
  change (Z.pos 4503599627370496) with (2 ^ 52)%Z in Hlt.
  rewrite F2R_pow in Hlt by lia.
  replace (k - 52 + 52)%Z with k in Hlt by lia. lra.
Qed.

Variables cos sin : float -> float.

Hypothesis cos_sin_within :
  forall a, PrimFloat.leb (PrimFloat.abs (cos a)) 1 = true
            /\ PrimFloat.leb (PrimFloat.abs (sin a)) 1 = true.

Lemma cos_magnitude (a : float) : magnitude 0 (Prim2SF (cos a)).
Proof. apply (mag_of_leb _ 1%float); [reflexivity|]. apply cos_sin_within. Qed.

Lemma sin_magnitude (a : float) : magnitude 0 (Prim2SF (sin a)).
Proof. apply (mag_of_leb _ 1%float); [reflexivity|]. apply cos_sin_within. Qed.

(** The components of a rotated vector are at most four times the bound of
    the components of the vector. *)
Lemma rotate_mag (v : Vec3 float) (angle : float) (k : Z) :
  (-1022 <= k <= 1021)%Z ->
  vecMagnitude k v -> vecMagnitude (k + 2) (rotate cos sin v angle).
Proof.
  intros Hk [Hx [Hy Hz]]. unfold rotate. cbn [fadd fsub fmul fneg double].
  set (cA := cos angle). set (sA := sin angle).
  set (cB := cos (PrimFloat.mul angle lit_0_5)).
  set (sB := sin (PrimFloat.mul angle lit_0_5)).
  assert (HcA : magnitude 0 (Prim2SF cA)) by apply cos_magnitude.
  assert (HsA : magnitude 0 (Prim2SF sA)) by apply sin_magnitude.
  assert (HcB : magnitude 0 (Prim2SF cB)) by apply cos_magnitude.
  assert (HsB : magnitude 0 (Prim2SF sB)) by apply sin_magnitude.
  assert (Hx1 : magnitude (k + 1)
            (Prim2SF (PrimFloat.add (PrimFloat.mul cA (vx v))
                                    (PrimFloat.mul sA (vz v))))).
  { apply add_mag; [| |lia].
    - apply (mul_mag _ _ 0 k); auto; lia.
    - apply (mul_mag _ _ 0 k); auto; lia. }
  assert (Hz1 : magnitude (k + 1)
            (Prim2SF (PrimFloat.add (PrimFloat.mul (PrimFloat.opp sA) (vx v))
                                    (PrimFloat.mul cA (vz v))))).
  { apply add_mag; [| |lia].
    - apply (mul_mag _ _ 0 k); auto; [now apply opp_mag | lia].
    - apply (mul_mag _ _ 0 k); auto; lia. }
  split; [|split]; cbn [vx vy vz].
  - apply (mag_weaken (k + 1)); [lia | exact Hx1].
  - replace (k + 2)%Z with (k + 1 + 1)%Z by lia. apply sub_mag; [| |lia].
    + apply (mag_weaken k); [lia|]. apply (mul_mag _ _ 0 k); auto; lia.
    + apply (mul_mag _ _ 0 (k + 1)); auto; lia.
  - replace (k + 2)%Z with (k + 1 + 1)%Z by lia. apply add_mag; [| |lia].
    + apply (mag_weaken k); [lia|]. apply (mul_mag _ _ 0 k); auto; lia.
    + apply (mul_mag _ _ 0 (k + 1)); auto; lia.
Qed.

Lemma rotate_within (v : Vec3 float) (angle : float) :
  within 2 v -> within 8 (rotate cos sin v angle).
Proof.
  intros Hv. apply (within_magnitude 2 v 1) in Hv; [|reflexivity].
  apply (rotate_mag v angle 1) in Hv; [|lia].
  destruct Hv as [Hx [Hy Hz]].
  split; [|split]; apply (leb_of_mag _ 8%float 3); auto.
Qed.

(** The shade of a rotated normal is defined. *)
Lemma intensity_of_rotated (v : Vec3 float) (angle : float) :
  within 2 v ->
  exists c, intensity (rotate cos sin v angle) = Some c /\ (0 <= c <= 255)%Z.
Proof.
  intros Hv. apply (within_magnitude 2 v 1) in Hv; [|reflexivity].
  apply (rotate_mag v angle 1) in Hv; [|lia].
  apply intensity_of_bounded.
  destruct Hv as [Hx [Hy Hz]].
  split; [|split]; apply (mag_weaken 3); auto; lia.
Qed.

(** The surface normal of a pixel, after the slab loop over rotated
    planes: the shade is defined. *)
Lemma intensity_of_surfNormal (basePlanes : array (Plane float))
    (numPlanes : Z) (angle : float) (rotatedPlanes : array (Plane float))
    (dir : Vec3 float) :
  (forall i, (0 <= i < numPlanes)%Z -> within 2 (pn (basePlanes i))) ->
  exists c,
    intensity
      (surfNormal
         (rotatePlanes cos sin basePlanes numPlanes angle rotatedPlanes)
         (slabLoop
            (rotatePlanes cos sin basePlanes numPlanes angle rotatedPlanes)
            numPlanes dir))
    = Some c
    /\ (0 <= c <= 255)%Z.
Proof.
  intros Hbase.
  set (rot := rotatePlanes cos sin basePlanes numPlanes angle rotatedPlanes).
  unfold surfNormal.
  destruct (slabLoop_entering rot numPlanes dir) as [[-> _] | [Hidx _]].
  - exists 0%Z. split; [vm_compute; reflexivity | lia].
  - destruct (Z.leb_spec 0 (activePlaneIndex (slabLoop rot numPlanes dir)));
      [|lia].
    unfold rot at 1, rotatePlanes.
    rewrite (proj1 (fold_left_upd
               (fun i => mkPlane (rotate cos sin (pn (basePlanes i)) angle)
                                 (pd (basePlanes i)))
               (range 0 numPlanes) rotatedPlanes _)
               (proj2 (In_range _ _ _) Hidx)).
    cbn [pn]. apply intensity_of_rotated. now apply Hbase.
Qed.

End RotateBound.
(** ** Binary64: the rounding error

    A product, a sum or a square root of doubles is the real product, sum
    or square root, moved by the rounding: by at most half a unit in the
    last place of the result for [*], [+] and [-], and by at most one unit
    for [sqrt].  This part bounds the error of a computation by adding up
    these errors. *)

Section Errors.

(** *** The error of one rounding *)

Local Open Scope Z_scope.

(** Rounding [M / 2^n] to the nearest integer moves it by at most 1/2. *)
Lemma rne_error (M n : Z) :
  1 <= n -> 2 * Z.abs (rne M n * 2 ^ n - M) <= 2 ^ n.
Proof.
  intros Hn. pose proof (pow2_pos n ltac:(lia)) as HP.
  pose proof (Z.div_mod M (2 ^ n) ltac:(lia)) as Hdm.
  pose proof (Z.mod_pos_bound M (2 ^ n) HP) as Hr.
  unfold rne.
  set (q := M / 2 ^ n) in *. set (r := M mod 2 ^ n) in *.
  set (P := 2 ^ n) in *.
  destruct (Z.ltb_spec (2 * r) P); [nia|].
  destruct (Z.eqb_spec (2 * r) P); [destruct (Z.even q); nia | nia].
Qed.

Local Open Scope R_scope.

Lemma bpow_lt (a b : Z) : (a < b)%Z -> bpow a < bpow b.
Proof.
  intros H. replace b with (a + (b - a))%Z by lia.
  rewrite bpow_add, (bpow_IZR (b - a)) by lia.
  pose proof (bpow_pos a).
  assert (2 <= IZR (2 ^ (b - a))).
  { apply IZR_le. change 2%Z with (2 ^ 1)%Z at 1.
    apply Z.pow_le_mono_r; lia. }
  nra.
Qed.

Lemma bpow_le_inv (a b : Z) : bpow a <= bpow b -> (a <= b)%Z.
Proof.
  intros H. destruct (Z.le_gt_cases a b) as [|Hgt]; [assumption|].
  apply bpow_lt in Hgt. lra.
Qed.

Lemma F2R_sub (a b e : Z) : F2R (a - b) e = F2R a e - F2R b e.
Proof. unfold F2R. rewrite minus_IZR. ring. Qed.

Lemma F2R_add (a b e : Z) : F2R (a + b) e = F2R a e + F2R b e.
Proof. unfold F2R. rewrite plus_IZR. ring. Qed.

Lemma F2R_opp (a e : Z) : F2R (- a) e = - F2R a e.
Proof. unfold F2R. rewrite opp_IZR. ring. Qed.

Lemma F2R_abs (a e : Z) : Rabs (F2R a e) = F2R (Z.abs a) e.
Proof.
  unfold F2R. rewrite Rabs_mult, abs_IZR.
  now rewrite (Rabs_pos_eq (bpow e)) by (apply Rlt_le, bpow_pos).
Qed.

Lemma SF2R_rounded (s : bool) (m e : Z) :
  (0 <= m)%Z -> finite_nonneg (rounded false m e) ->
  SF2R (rounded s m e) = signedR s (F2R m e).
Proof.
  intros Hm. destruct m as [|p|p]; cbn [rounded]; [| | lia].
  - intros _. cbn [SF2R]. rewrite F2R_0. destruct s; cbn; lra.
  - destruct (_ <=? _)%Z; cbn [finite_nonneg SF2R signedR];
      [reflexivity | tauto].
Qed.

(** Rounding moves a number of magnitude at most [2^k] by at most
    [2^(k-53)], half a unit in its last place. *)
Lemma round_aux_error (s : bool) (p : positive) (E k : Z) :
  (E <= fexp prec emax (Zdigits2 (Z.pos p) + E))%Z ->
  (-1022 <= k <= 1023)%Z ->
  F2R (Z.pos p) E <= bpow k ->
  Rabs (SF2R (binary_round_aux prec emax s (Z.pos p) E loc_Exact)
        - signedR s (F2R (Z.pos p) E)) <= bpow (k - 53).
Proof.
  intros Hn Hk HV.
  destruct (round_aux_bound p E k Hn Hk HV) as [Hfin _].
  destruct (round_aux_spec false p E Hn) as [m' [e' [Hr' _]]].
  destruct (round_aux_spec s p E Hn) as [m [e [Hr [Hge [HR [Hb _]]]]]].
  assert (Hsame : binary_round_aux prec emax false (Z.pos p) E loc_Exact
                  = rounded false m e).
  { rewrite <- (SFabs_round_aux s), Hr.
    destruct m as [|q|q]; cbn [rounded SFabs]; try reflexivity.
    destruct (_ <=? _)%Z; reflexivity. }
  rewrite Hsame in Hfin. rewrite Hr.
  rewrite (SF2R_rounded s m e) by (lia || assumption).
  set (g := fexp prec emax (Zdigits2 (Z.pos p) + E)) in *.
  assert (HW : F2R m e = F2R (rne (Z.pos p) (g - E)) g).
  { rewrite <- HR, F2R_shift by lia. f_equal. lia. }
  assert (Hg : (g - 1 <= k - 53)%Z).
  { pose proof (F2R_digits p E) as [Hlo _].
    assert (Zdigits2 (Z.pos p) - 1 + E <= k)%Z by (apply bpow_le_inv; lra).
    unfold g. rewrite fexp_eq. lia. }
  assert (Herr : Rabs (F2R m e - F2R (Z.pos p) E) <= bpow (g - 1)).
  { rewrite HW. destruct (Z.eq_dec (g - E) 0) as [H0 | H0].
    - rewrite H0, rne_0. replace g with E by lia.
      unfold Rminus. rewrite Rplus_opp_r, Rabs_R0.
      apply Rlt_le, bpow_pos.
    - replace g with (E + (g - E))%Z at 2 by lia.
      rewrite <- F2R_shift by lia. rewrite <- F2R_sub, F2R_abs.
      pose proof (rne_error (Z.pos p) (g - E) ltac:(lia)) as He.
      replace (bpow (g - 1)) with (F2R (2 ^ (g - E - 1)) E)
        by (rewrite F2R_pow by lia; f_equal; lia).
      apply F2R_le_compat.
      assert (Hpow : (2 ^ (g - E) = 2 * 2 ^ (g - E - 1))%Z)
        by (rewrite <- pow2_succ by lia; f_equal; lia).
      lia. }
  apply Rle_trans with (bpow (g - 1)); [|now apply bpow_le].
  destruct s; cbn [signedR]; [|exact Herr].
  replace (- F2R m e - - F2R (Z.pos p) E)
    with (- (F2R m e - F2R (Z.pos p) E)) by ring.
  now rewrite Rabs_Ropp.
Qed.

(** *** The error of a product, a sum and a difference *)

Lemma SF2R_abs (x : spec_float) : SF2R (SFabs x) = Rabs (SF2R x).
Proof.
  destruct x as [s | s | | s m e]; cbn [SFabs SF2R];
    try (now rewrite Rabs_R0).
  pose proof (F2R_nonneg m e).
  destruct s; [rewrite Rabs_Ropp|]; now rewrite Rabs_pos_eq.
Qed.

Lemma SF2R_opp (x : spec_float) : SF2R (SFopp x) = - SF2R x.
Proof.
  destruct x as [s | s | | [|] m e]; cbn [SFopp SF2R negb]; lra.
Qed.

Lemma magnitude_value (k : Z) (x : spec_float) :
  magnitude k x -> Rabs (SF2R x) <= bpow k.
Proof. intros [_ H]. now rewrite <- SF2R_abs. Qed.

(** The product of two doubles of magnitude at most [2^k] and [2^j] is the
    real product up to [2^(k+j-53)]. *)
Lemma SFmul_error (x y : spec_float) (k j : Z) :
  SpecFloat.valid_binary prec emax x = true ->
  SpecFloat.valid_binary prec emax y = true ->
  magnitude k x -> magnitude j y -> (-1022 <= k + j <= 1023)%Z ->
  Rabs (SF2R (SFmul prec emax x y) - SF2R x * SF2R y) <= bpow (k + j - 53).
Proof.
  intros Hvx Hvy [Hfx Hx] [Hfy Hy] Hk.
  assert (H0 : Rabs (0 - 0) <= bpow (k + j - 53)).
  { unfold Rminus. rewrite Rplus_opp_r, Rabs_R0. apply Rlt_le, bpow_pos. }
  destruct x as [sx | sx | | sx mx ex]; cbn [SFabs finite_nonneg] in Hfx;
    try contradiction;
    destruct y as [sy | sy | | sy my ey]; cbn [SFabs finite_nonneg] in Hfy;
    try contradiction; cbn [SFmul SF2R];
    rewrite ?Rmult_0_l, ?Rmult_0_r; try exact H0.
  cbn [SFabs SF2R] in Hx, Hy. cbn [SpecFloat.valid_binary] in Hvx, Hvy.
  replace ((if sx then - F2R (Z.pos mx) ex else F2R (Z.pos mx) ex)
           * (if sy then - F2R (Z.pos my) ey else F2R (Z.pos my) ey))
    with (signedR (xorb sx sy) (F2R (Z.pos (mx * my)) (ex + ey)))
    by (rewrite F2R_mul; destruct sx, sy; cbn [xorb signedR]; ring).
  apply round_aux_error; [|exact Hk|].
  - now apply valid_product_has_digits.
  - rewrite F2R_mul, bpow_add.
    pose proof (F2R_nonneg mx ex). pose proof (F2R_nonneg my ey).
    apply Rmult_le_compat; assumption.
Qed.

(** The same for [binary_round] and [binary_normalize], which first align
    the mantissa. *)
Lemma binary_round_error (s : bool) (p : positive) (e k : Z) :
  (-1022 <= k <= 1023)%Z -> F2R (Z.pos p) e <= bpow k ->
  Rabs (SF2R (binary_round prec emax s p e) - signedR s (F2R (Z.pos p) e))
  <= bpow (k - 53).
Proof.
  intros Hk HV. unfold binary_round.
  pose proof (binary_round_has_digits p e) as Hd.
  pose proof (shl_align_value p e
                (fexp prec emax (Z.pos (digits2_pos p) + e))) as Hval.
  cbn zeta in Hd.
  destruct (shl_align p e (fexp prec emax (Z.pos (digits2_pos p) + e)))
    as [mz ez]. cbn [fst snd] in *.
  rewrite <- Hval. apply round_aux_error; [exact Hd | exact Hk |].
  now rewrite Hval.
Qed.

Lemma binary_normalize_error (S e k : Z) :
  (-1022 <= k <= 1023)%Z -> Rabs (F2R S e) <= bpow k ->
  Rabs (SF2R (binary_normalize prec emax S e false) - F2R S e)
  <= bpow (k - 53).
Proof.
  intros Hk HV. destruct S as [|p|p]; cbn [binary_normalize].
  - cbn [SF2R]. rewrite F2R_0. unfold Rminus.
    rewrite Rplus_opp_r, Rabs_R0. apply Rlt_le, bpow_pos.
  - apply (binary_round_error false); [exact Hk|].
    now rewrite Rabs_pos_eq in HV by apply F2R_nonneg.
  - change (Z.neg p) with (- Z.pos p)%Z. rewrite F2R_opp.
    apply (binary_round_error true); [exact Hk|].
    change (Z.neg p) with (- Z.pos p)%Z in HV.
    rewrite F2R_opp, Rabs_Ropp in HV.
    now rewrite Rabs_pos_eq in HV by apply F2R_nonneg.
Qed.

Lemma cond_Zopp_value (s : bool) (m : positive) (e : Z) :
  F2R (cond_Zopp s (Z.pos m)) e = signedR s (F2R (Z.pos m) e).
Proof. destruct s; cbn [cond_Zopp signedR]; [apply F2R_opp | reflexivity]. Qed.

Lemma aligned_value (m : positive) (e e' : Z) :
  (e' <= e)%Z ->
  F2R (Z.pos (fst (shl_align m e e'))) e' = F2R (Z.pos m) e.
Proof.
  intros H. pose proof (shl_align_value m e e') as Hv.
  destruct (shl_align_spec m e e') as [Hs _].
  replace (snd (shl_align m e e')) with e' in Hv by lia. exact Hv.
Qed.

(** The sum of two doubles of magnitude at most [2^k] is the real sum up
    to [2^(k-52)]; so is the difference. *)
Lemma SFadd_error (x y : spec_float) (k : Z) :
  magnitude k x -> magnitude k y -> (-1022 <= k + 1 <= 1023)%Z ->
  Rabs (SF2R (SFadd prec emax x y) - (SF2R x + SF2R y)) <= bpow (k + 1 - 53).
Proof.
  intros Hx Hy Hk.
  pose proof (magnitude_value k x Hx) as Hxv.
  pose proof (magnitude_value k y Hy) as Hyv.
  assert (H0 : forall r, Rabs (r - r) <= bpow (k + 1 - 53)).
  { intros r. unfold Rminus. rewrite Rplus_opp_r, Rabs_R0.
    apply Rlt_le, bpow_pos. }
  destruct x as [sx | sx | | sx mx ex];
    try (destruct Hx as [[] _]; fail);
    destruct y as [sy | sy | | sy my ey];
    try (destruct Hy as [[] _]; fail).
  - destruct sx, sy; cbn [SFadd SF2R]; rewrite Rplus_0_l; apply H0.
  - cbn [SFadd]. replace (SF2R (S754_zero sx)) with 0 by reflexivity.
    rewrite Rplus_0_l. apply H0.
  - cbn [SFadd]. replace (SF2R (S754_zero sy)) with 0 by reflexivity.
    rewrite Rplus_0_r. apply H0.
  - cbn [SFadd]. set (ez := Z.min ex ey).
    assert (Hsum : F2R (cond_Zopp sx (Z.pos (fst (shl_align mx ex ez)))
                        + cond_Zopp sy (Z.pos (fst (shl_align my ey ez)))) ez
                   = SF2R (S754_finite sx mx ex) + SF2R (S754_finite sy my ey)).
    { rewrite F2R_add, !cond_Zopp_value, !aligned_value by (unfold ez; lia).
      reflexivity. }
    rewrite <- Hsum. apply binary_normalize_error; [exact Hk|].
    rewrite Hsum, bpow_add.
    replace (bpow 1) with 2 by (unfold bpow; simpl; lra).
    pose proof (Rabs_triang (SF2R (S754_finite sx mx ex))
                  (SF2R (S754_finite sy my ey))). lra.
Qed.

Lemma SFsub_error (x y : spec_float) (k : Z) :
  magnitude k x -> magnitude k y -> (-1022 <= k + 1 <= 1023)%Z ->
  Rabs (SF2R (SFsub prec emax x y) - (SF2R x - SF2R y)) <= bpow (k + 1 - 53).
Proof.
  intros Hx Hy Hk.
  pose proof (magnitude_value k x Hx) as Hxv.
  pose proof (magnitude_value k y Hy) as Hyv.
  assert (H0 : forall r, Rabs (r - r) <= bpow (k + 1 - 53)).
  { intros r. unfold Rminus. rewrite Rplus_opp_r, Rabs_R0.
    apply Rlt_le, bpow_pos. }
  destruct x as [sx | sx | | sx mx ex];
    try (destruct Hx as [[] _]; fail);
    destruct y as [sy | sy | | sy my ey];
    try (destruct Hy as [[] _]; fail).
  - destruct sx, sy; cbn [SFsub SF2R]; rewrite Rminus_0_r; apply H0.
  - cbn [SFsub]. replace (SF2R (S754_zero sx)) with 0 by reflexivity.
    cbn [SF2R]. destruct sy; cbn [negb];
      match goal with |- Rabs (?a - ?b) <= _ => replace b with a by ring end;
      apply H0.
  - cbn [SFsub]. replace (SF2R (S754_zero sy)) with 0 by reflexivity.
    rewrite Rminus_0_r. apply H0.
  - cbn [SFsub]. set (ez := Z.min ex ey).
    assert (Hsum : F2R (cond_Zopp sx (Z.pos (fst (shl_align mx ex ez)))
                        - cond_Zopp sy (Z.pos (fst (shl_align my ey ez)))) ez
                   = SF2R (S754_finite sx mx ex) - SF2R (S754_finite sy my ey)).
    { rewrite F2R_sub, !cond_Zopp_value, !aligned_value by (unfold ez; lia).
      reflexivity. }
    rewrite <- Hsum. apply binary_normalize_error; [exact Hk|].
    rewrite Hsum, bpow_add.
    replace (bpow 1) with 2 by (unfold bpow; simpl; lra).
    pose proof (Rabs_triang (SF2R (S754_finite sx mx ex))
                  (- SF2R (S754_finite sy my ey))) as Ht.
    rewrite Rabs_Ropp in Ht. unfold Rminus. lra.
Qed.

End Errors.

(** *** Doubles that stand for real numbers *)

Section Approx.

Local Open Scope R_scope.

Lemma ulp53_pos : 0 < ulp53.
Proof. apply bpow_pos. Qed.

Lemma bpow_ulp53 (k : Z) : (0 <= k)%Z -> bpow (k - 53) = IZR (2 ^ k) * ulp53.
Proof.
  intros Hk. unfold ulp53. replace (k - 53)%Z with (k + -53)%Z by lia.
  now rewrite bpow_add, bpow_IZR.
Qed.

Lemma approx_exact (k : Z) (x : float) :
  magnitude k (Prim2SF x) -> approx k 0 x (val x).
Proof.
  intros H. split; [exact H|]. split.
  - unfold Rminus. rewrite Rplus_opp_r, Rabs_R0. lra.
  - now apply magnitude_value.
Qed.

Lemma approx_weaken (k k' n n' : Z) (x : float) (r : R) :
  (k <= k')%Z -> (n <= n')%Z -> approx k n x r -> approx k' n' x r.
Proof.
  intros Hk Hn [Hm [He Hr]]. split; [now apply (mag_weaken k)|]. split.
  - apply IZR_le in Hn. pose proof ulp53_pos. nra.
  - apply Rle_trans with (bpow k); [exact Hr | now apply bpow_le].
Qed.

Lemma approx_opp (k n : Z) (x : float) (r : R) :
  approx k n x r -> approx k n (PrimFloat.opp x) (- r).
Proof.
  intros [Hm [He Hr]]. split; [now apply opp_mag|]. split.
  - unfold val. rewrite opp_spec, SF2R_opp.
    replace (- SF2R (Prim2SF x) - - r) with (- (val x - r))
      by (unfold val; ring).
    now rewrite Rabs_Ropp.
  - now rewrite Rabs_Ropp.
Qed.

Lemma product_error (a a' b b' ea eb Ba Bb : R) :
  Rabs (a' - a) <= ea -> Rabs (b' - b) <= eb ->
  Rabs a <= Ba -> Rabs b' <= Bb ->
  Rabs (a' * b' - a * b) <= ea * Bb + Ba * eb.
Proof.
  intros Ha Hb HBa HBb.
  replace (a' * b' - a * b) with ((a' - a) * b' + a * (b' - b)) by ring.
  apply Rle_trans with (Rabs ((a' - a) * b') + Rabs (a * (b' - b)));
    [apply Rabs_triang|].
  rewrite !Rabs_mult.
  pose proof (Rabs_pos (a' - a)). pose proof (Rabs_pos b').
  pose proof (Rabs_pos a). pose proof (Rabs_pos (b' - b)).
  apply Rplus_le_compat; apply Rmult_le_compat; assumption.
Qed.

(** The error of a product: the errors of the factors, each times the
    magnitude of the other factor, and the rounding. *)
Lemma approx_mul (k j na nb : Z) (a b : float) (ra rb : R) :
  approx k na a ra -> approx j nb b rb ->
  (0 <= k)%Z -> (0 <= j)%Z -> (k + j <= 1023)%Z ->
  approx (k + j) (na * 2 ^ j + 2 ^ k * nb + 2 ^ (k + j))
    (PrimFloat.mul a b) (ra * rb).
Proof.
  intros [Hma [Hea Hra]] [Hmb [Heb Hrb]] Hk Hj Hkj.
  split; [apply mul_mag; auto; lia|]. split.
  - pose proof (magnitude_value j _ Hmb) as Hvb. fold (val b) in Hvb.
    pose proof (product_error ra (val a) rb (val b) _ _ _ _ Hea Heb Hra Hvb)
      as Hp.
    pose proof (SFmul_error (Prim2SF a) (Prim2SF b) k j
                  (Prim2SF_valid a) (Prim2SF_valid b) Hma Hmb ltac:(lia))
      as Hr.
    rewrite <- mul_spec in Hr. fold (val (PrimFloat.mul a b)) in Hr.
    fold (val a) (val b) in Hr.
    rewrite (bpow_ulp53 (k + j)) in Hr by lia.
    rewrite (bpow_IZR j), (bpow_IZR k) in Hp by lia.
    replace (val (PrimFloat.mul a b) - ra * rb)
      with ((val (PrimFloat.mul a b) - val a * val b)
            + (val a * val b - ra * rb)) by ring.
    apply Rle_trans with (Rabs (val (PrimFloat.mul a b) - val a * val b)
                          + Rabs (val a * val b - ra * rb));
      [apply Rabs_triang|].
    rewrite !plus_IZR, !mult_IZR. lra.
  - rewrite Rabs_mult, bpow_add.
    pose proof (Rabs_pos ra). pose proof (Rabs_pos rb).
    apply Rmult_le_compat; assumption.
Qed.

(** The error of a sum: the errors of the terms, and the rounding. *)
Lemma approx_add (k na nb : Z) (a b : float) (ra rb : R) :
  approx k na a ra -> approx k nb b rb -> (0 <= k)%Z -> (k + 1 <= 1023)%Z ->
  approx (k + 1) (na + nb + 2 ^ (k + 1)) (PrimFloat.add a b) (ra + rb).
Proof.
  intros [Hma [Hea Hra]] [Hmb [Heb Hrb]] Hk Hk1.
  split; [apply add_mag; auto; lia|]. split.
  - pose proof (SFadd_error (Prim2SF a) (Prim2SF b) k Hma Hmb ltac:(lia))
      as Hr.
    rewrite <- add_spec in Hr. fold (val (PrimFloat.add a b)) in Hr.
    fold (val a) (val b) in Hr.
    rewrite (bpow_ulp53 (k + 1)) in Hr by lia.
    replace (val (PrimFloat.add a b) - (ra + rb))
      with ((val (PrimFloat.add a b) - (val a + val b))
            + ((val a - ra) + (val b - rb))) by ring.
    pose proof (Rabs_triang (val (PrimFloat.add a b) - (val a + val b))
                  ((val a - ra) + (val b - rb))).
    pose proof (Rabs_triang (val a - ra) (val b - rb)).
    rewrite !plus_IZR. lra.
  - rewrite bpow_add.
    replace (bpow 1) with 2 by (unfold bpow; simpl; lra).
    pose proof (Rabs_triang ra rb). lra.
Qed.

Lemma approx_sub (k na nb : Z) (a b : float) (ra rb : R) :
  approx k na a ra -> approx k nb b rb -> (0 <= k)%Z -> (k + 1 <= 1023)%Z ->
  approx (k + 1) (na + nb + 2 ^ (k + 1)) (PrimFloat.sub a b) (ra - rb).
Proof.
  intros [Hma [Hea Hra]] [Hmb [Heb Hrb]] Hk Hk1.
  split; [apply sub_mag; auto; lia|]. split.
  - pose proof (SFsub_error (Prim2SF a) (Prim2SF b) k Hma Hmb ltac:(lia))
      as Hr.
    rewrite <- sub_spec in Hr. fold (val (PrimFloat.sub a b)) in Hr.
    fold (val a) (val b) in Hr.
    rewrite (bpow_ulp53 (k + 1)) in Hr by lia.
    replace (val (PrimFloat.sub a b) - (ra - rb))
      with ((val (PrimFloat.sub a b) - (val a - val b))
            + ((val a - ra) + - (val b - rb))) by ring.
    pose proof (Rabs_triang (val (PrimFloat.sub a b) - (val a - val b))
                  ((val a - ra) + - (val b - rb))).
    pose proof (Rabs_triang (val a - ra) (- (val b - rb))) as Ht.
    rewrite Rabs_Ropp in Ht.
    rewrite !plus_IZR. lra.
  - rewrite bpow_add.
    replace (bpow 1) with 2 by (unfold bpow; simpl; lra).
    pose proof (Rabs_triang ra (- rb)) as Ht. rewrite Rabs_Ropp in Ht.
    unfold Rminus. lra.
Qed.

(** The dot product of a vector with itself. *)
Lemma approx_dot_self (k n : Z) (w : Vec3 float) (a b c : R) :
  approx k n (vx w) a -> approx k n (vy w) b -> approx k n (vz w) c ->
  (0 <= k)%Z -> (2 * k + 2 <= 1023)%Z -> (0 <= n)%Z ->
  approx (2 * k + 2) (6 * n * 2 ^ k + 3 * 2 ^ (2 * k) + 6 * 2 ^ (2 * k))
    (dot w w) (a * a + b * b + c * c).
Proof.
  intros Ha Hb Hc Hk Hk2 Hn. unfold dot. cbn [fadd fmul double].
  pose proof (approx_mul _ _ _ _ _ _ _ _ Ha Ha Hk Hk ltac:(lia)) as Haa.
  pose proof (approx_mul _ _ _ _ _ _ _ _ Hb Hb Hk Hk ltac:(lia)) as Hbb.
  pose proof (approx_mul _ _ _ _ _ _ _ _ Hc Hc Hk Hk ltac:(lia)) as Hcc.
  pose proof (approx_add _ _ _ _ _ _ _ Haa Hbb ltac:(lia) ltac:(lia)) as Hab.
  apply (approx_weaken _ (k + k + 1) _
           (n * 2 ^ k + 2 ^ k * n + 2 ^ (k + k))) in Hcc; try lia.
  pose proof (approx_add _ _ _ _ _ _ _ Hab Hcc ltac:(lia) ltac:(lia)) as H.
  revert H. apply approx_weaken; [lia|].
  replace (2 * k)%Z with (k + k)%Z by lia.
  rewrite !(pow2_succ (k + k + 1)), !(pow2_succ (k + k)) by lia.
  lia.
Qed.

End Approx.

(** *** The error of [dot] and [cross] *)

Section VectorErrors.

Local Open Scope R_scope.

(** The dot product of two vectors. *)
Lemma approx_dot (k j n : Z) (u w : Vec3 float) (a b c a' b' c' : R) :
  approx k n (vx u) a -> approx k n (vy u) b -> approx k n (vz u) c ->
  approx j n (vx w) a' -> approx j n (vy w) b' -> approx j n (vz w) c' ->
  (0 <= k)%Z -> (0 <= j)%Z -> (k + j + 2 <= 1023)%Z -> (0 <= n)%Z ->
  approx (k + j + 2) (3 * n * (2 ^ k + 2 ^ j) + 9 * 2 ^ (k + j))
    (dot u w) (a * a' + b * b' + c * c').
Proof.
  intros Ha Hb Hc Ha' Hb' Hc' Hk Hj Hkj Hn. unfold dot.
  cbn [fadd fmul double].
  pose proof (approx_mul _ _ _ _ _ _ _ _ Ha Ha' Hk Hj ltac:(lia)) as Haa.
  pose proof (approx_mul _ _ _ _ _ _ _ _ Hb Hb' Hk Hj ltac:(lia)) as Hbb.
  pose proof (approx_mul _ _ _ _ _ _ _ _ Hc Hc' Hk Hj ltac:(lia)) as Hcc.
  pose proof (approx_add _ _ _ _ _ _ _ Haa Hbb ltac:(lia) ltac:(lia)) as Hab.
  apply (approx_weaken _ (k + j + 1) _
           (n * 2 ^ j + 2 ^ k * n + 2 ^ (k + j))) in Hcc; try lia.
  pose proof (approx_add _ _ _ _ _ _ _ Hab Hcc ltac:(lia) ltac:(lia)) as H.
  revert H. replace (k + j + 1 + 1)%Z with (k + j + 2)%Z by lia.
  apply approx_weaken; [lia|].
  pose proof (pow2_succ (k + j + 1) ltac:(lia)) as H1.
  replace (k + j + 1 + 1)%Z with (k + j + 2)%Z in H1 by lia.
  pose proof (pow2_succ (k + j) ltac:(lia)) as H2.
  pose proof (pow2_pos (k + j) ltac:(lia)) as H3.
  pose proof (pow2_pos k Hk) as H4. pose proof (pow2_pos j Hj) as H5.
  nia.
Qed.

Lemma approx_vec (b : float) (v : Vec3 float) (k' : Z) (k n : Z) :
  Prim2SF b = S754_finite false 4503599627370496 (k' - 52) ->
  within b v -> (k' <= k)%Z -> (0 <= n)%Z ->
  approx k n (vx v) (val (vx v)) /\ approx k n (vy v) (val (vy v))
  /\ approx k n (vz v) (val (vz v)).
Proof.
  intros Hb Hv Hk Hn. apply (within_magnitude b v k' Hb) in Hv.
  destruct Hv as [Hx [Hy Hz]].
  split; [|split];
    (apply (approx_weaken k' _ 0); [exact Hk | exact Hn |]);
    now apply approx_exact.
Qed.

Lemma ulp53_bpow (k : Z) (n : Z) (x : R) :
  (0 <= k)%Z -> (n <= 2 ^ k)%Z -> x <= IZR n * ulp53 -> x <= bpow (k - 53).
Proof.
  intros Hk Hn Hx. rewrite bpow_ulp53 by exact Hk.
  apply IZR_le in Hn. pose proof ulp53_pos. nra.
Qed.

(** The rounding error of [dot]. *)
Lemma dot_error (a b : Vec3 float) :
  within 2 a -> within 2 b ->
  magnitude 4 (Prim2SF (dot a b))
  /\ Rabs (val (dot a b)
           - (val (vx a) * val (vx b) + val (vy a) * val (vy b)
              + val (vz a) * val (vz b))) <= bpow (-47).
Proof.
  intros Ha Hb.
  destruct (approx_vec 2 a 1 1 0 eq_refl Ha ltac:(lia) ltac:(lia))
    as [Hax [Hay Haz]].
  destruct (approx_vec 2 b 1 1 0 eq_refl Hb ltac:(lia) ltac:(lia))
    as [Hbx [Hby Hbz]].
  destruct (approx_dot 1 1 0 a b _ _ _ _ _ _ Hax Hay Haz Hbx Hby Hbz
              ltac:(lia) ltac:(lia) ltac:(lia) ltac:(lia)) as [Hm [He _]].
  split; [exact Hm|].
  refine (ulp53_bpow 6 _ _ _ _ He); [lia | now vm_compute].
Qed.

(** The rounding error of [cross], and the two dot products that vanish on
    the real numbers. *)
Lemma cross_approx (a b : Vec3 float) :
  within 2 a -> within 2 b ->
  let r (x : float) := val x in
  approx 3 16 (vx (cross a b)) (r (vy a) * r (vz b) - r (vz a) * r (vy b))
  /\ approx 3 16 (vy (cross a b)) (r (vz a) * r (vx b) - r (vx a) * r (vz b))
  /\ approx 3 16 (vz (cross a b)) (r (vx a) * r (vy b) - r (vy a) * r (vx b)).
Proof.
  intros Ha Hb r.
  destruct (approx_vec 2 a 1 1 0 eq_refl Ha ltac:(lia) ltac:(lia))
    as [Hax [Hay Haz]].
  destruct (approx_vec 2 b 1 1 0 eq_refl Hb ltac:(lia) ltac:(lia))
    as [Hbx [Hby Hbz]].
  assert (Hm : forall (x y : float),
             approx 1 0 x (val x) -> approx 1 0 y (val y) ->
             approx 2 4 (PrimFloat.mul x y) (val x * val y)).
  { intros x y Hx Hy.
    exact (approx_mul _ _ _ _ _ _ _ _ Hx Hy ltac:(lia) ltac:(lia)
             ltac:(lia)). }
  assert (Hs : forall (x y : float) (rx ry : R),
             approx 2 4 x rx -> approx 2 4 y ry ->
             approx 3 16 (PrimFloat.sub x y) (rx - ry)).
  { intros x y rx ry Hx Hy.
    exact (approx_sub _ _ _ _ _ _ _ Hx Hy ltac:(lia) ltac:(lia)). }
  unfold cross, r. cbn [vx vy vz fsub fmul double].
  split; [|split]; apply Hs; apply Hm; assumption.
Qed.

Lemma cross_dot_error (a b : Vec3 float) :
  within 2 a -> within 2 b ->
  (magnitude 6 (Prim2SF (dot (cross a b) a))
   /\ Rabs (val (dot (cross a b) a)) <= bpow (-43))
  /\ (magnitude 6 (Prim2SF (dot (cross a b) b))
      /\ Rabs (val (dot (cross a b) b)) <= bpow (-43)).
Proof.
  intros Ha Hb.
  destruct (cross_approx a b Ha Hb) as [Hx [Hy Hz]].
  cbv zeta beta in Hx, Hy, Hz.
  destruct (approx_vec 2 a 1 1 16 eq_refl Ha ltac:(lia) ltac:(lia))
    as [Hax [Hay Haz]].
  destruct (approx_vec 2 b 1 1 16 eq_refl Hb ltac:(lia) ltac:(lia))
    as [Hbx [Hby Hbz]].
  pose proof (approx_dot 3 1 16 (cross a b) a _ _ _ _ _ _ Hx Hy Hz
                Hax Hay Haz ltac:(lia) ltac:(lia) ltac:(lia) ltac:(lia))
    as [Hma [Hea _]].
  pose proof (approx_dot 3 1 16 (cross a b) b _ _ _ _ _ _ Hx Hy Hz
                Hbx Hby Hbz ltac:(lia) ltac:(lia) ltac:(lia) ltac:(lia))
    as [Hmb [Heb _]].
  split; (split; [assumption|]).
  - match type of Hea with
    | Rabs (_ - ?z) <= _ => replace z with 0 in Hea by ring
    end.
    rewrite Rminus_0_r in Hea.
    refine (ulp53_bpow 10 _ _ _ _ Hea); [lia | now vm_compute].
  - match type of Heb with
    | Rabs (_ - ?z) <= _ => replace z with 0 in Heb by ring
    end.
    rewrite Rminus_0_r in Heb.
    refine (ulp53_bpow 10 _ _ _ _ Heb); [lia | now vm_compute].
Qed.

End VectorErrors.

(** *** The error of [rotate] *)

Section RotateError.

Local Open Scope R_scope.

Variables cos sin : float -> float.

(** What is assumed of [math.h]: the values of [cos] and [sin] are at most
    1 in magnitude and lie on the unit circle up to [2^-50]. *)
Hypothesis cos_sin_within :
  forall a, PrimFloat.leb (PrimFloat.abs (cos a)) 1 = true
            /\ PrimFloat.leb (PrimFloat.abs (sin a)) 1 = true.

Hypothesis cos_sin_circle :
  forall a,
    Rabs (val (cos a) * val (cos a) + val (sin a) * val (sin a) - 1)
    <= bpow (-50).

Lemma cos_approx (a : float) : approx 0 0 (cos a) (val (cos a)).
Proof.
  apply approx_exact. apply (mag_of_leb _ 1%float); [reflexivity|].
  apply cos_sin_within.
Qed.

Lemma sin_approx (a : float) : approx 0 0 (sin a) (val (sin a)).
Proof.
  apply approx_exact. apply (mag_of_leb _ 1%float); [reflexivity|].
  apply cos_sin_within.
Qed.

(** The components of [rotate v angle], against the same formulas on the
    real numbers. *)
Lemma rotate_approx (v : Vec3 float) (angle : float) :
  within 2 v ->
  let cA := val (cos angle) in
  let sA := val (sin angle) in
  let cB := val (cos (PrimFloat.mul angle lit_0_5)) in
  let sB := val (sin (PrimFloat.mul angle lit_0_5)) in
  let x := cA * val (vx v) + sA * val (vz v) in
  let z := - sA * val (vx v) + cA * val (vz v) in
  approx 3 22 (vx (rotate cos sin v angle)) x
  /\ approx 3 22 (vy (rotate cos sin v angle)) (cB * val (vy v) - sB * z)
  /\ approx 3 22 (vz (rotate cos sin v angle)) (sB * val (vy v) + cB * z).
Proof.
  intros Hv. apply (within_magnitude 2 v 1) in Hv; [|reflexivity].
  destruct Hv as [Hx [Hy Hz]].
  apply approx_exact in Hx, Hy, Hz.
  pose proof (cos_approx angle) as HcA.
  pose proof (sin_approx angle) as HsA.
  pose proof (cos_approx (PrimFloat.mul angle lit_0_5)) as HcB.
  pose proof (sin_approx (PrimFloat.mul angle lit_0_5)) as HsB.
  cbv zeta. unfold rotate. cbn [fadd fsub fmul fneg double vx vy vz].
  assert (HX : approx 2 8 (PrimFloat.add (PrimFloat.mul (cos angle) (vx v))
                             (PrimFloat.mul (sin angle) (vz v)))
                 (val (cos angle) * val (vx v) + val (sin angle) * val (vz v))).
  { eapply approx_weaken;
      [| | exact (approx_add _ _ _ _ _ _ _
                    (approx_mul _ _ _ _ _ _ _ _ HcA Hx ltac:(lia) ltac:(lia)
                       ltac:(lia))
                    (approx_mul _ _ _ _ _ _ _ _ HsA Hz ltac:(lia) ltac:(lia)
                       ltac:(lia))
                    ltac:(lia) ltac:(lia))];
      now vm_compute. }
  assert (HZ : approx 2 8
                 (PrimFloat.add
                    (PrimFloat.mul (PrimFloat.opp (sin angle)) (vx v))
                    (PrimFloat.mul (cos angle) (vz v)))
                 (- val (sin angle) * val (vx v)
                  + val (cos angle) * val (vz v))).
  { eapply approx_weaken;
      [| | exact (approx_add _ _ _ _ _ _ _
                    (approx_mul _ _ _ _ _ _ _ _ (approx_opp _ _ _ _ HsA) Hx
                       ltac:(lia) ltac:(lia) ltac:(lia))
                    (approx_mul _ _ _ _ _ _ _ _ HcA Hz ltac:(lia) ltac:(lia)
                       ltac:(lia))
                    ltac:(lia) ltac:(lia))];
      now vm_compute. }
  set (z1 := PrimFloat.add (PrimFloat.mul (PrimFloat.opp (sin angle)) (vx v))
               (PrimFloat.mul (cos angle) (vz v))) in *.
  set (rz1 := - val (sin angle) * val (vx v) + val (cos angle) * val (vz v))
    in *.
  assert (Hmul : forall (c y : float) (ry : R) (j n : Z),
             approx 0 0 c (val c) -> approx j n y ry ->
             (0 <= j <= 2)%Z -> (0 <= n)%Z ->
             approx 2 (n + 2 ^ j) (PrimFloat.mul c y) (val c * ry)).
  { intros c y ry j n Hc Hy' Hj Hn.
    eapply approx_weaken;
      [| | exact (approx_mul _ _ _ _ _ _ _ _ Hc Hy' ltac:(lia) ltac:(lia)
                    ltac:(lia))].
    - lia.
    - change (2 ^ 0)%Z with 1%Z. rewrite !Z.add_0_l. lia. }
  split; [|split].
  - revert HX. apply approx_weaken; lia.
  - eapply approx_weaken;
      [| | exact (approx_sub _ _ _ _ _ _ _
                    (Hmul _ _ _ _ _ HcB Hy ltac:(lia) ltac:(lia))
                    (Hmul _ _ _ _ _ HsB HZ ltac:(lia) ltac:(lia))
                    ltac:(lia) ltac:(lia))];
      now vm_compute.
  - eapply approx_weaken;
      [| | exact (approx_add _ _ _ _ _ _ _
                    (Hmul _ _ _ _ _ HsB Hy ltac:(lia) ltac:(lia))
                    (Hmul _ _ _ _ _ HcB HZ ltac:(lia) ltac:(lia))
                    ltac:(lia) ltac:(lia))];
      now vm_compute.
Qed.

(** On the real numbers the rotation changes the squared length by what
    [cos^2 + sin^2] differs from 1. *)
Lemma rotate_identity (cA sA cB sB x y z dA dB : R) :
  dA = cA * cA + sA * sA - 1 -> dB = cB * cB + sB * sB - 1 ->
  let X := cA * x + sA * z in
  let Z1 := - sA * x + cA * z in
  let Y2 := cB * y - sB * Z1 in
  let Z2 := sB * y + cB * Z1 in
  X * X + Y2 * Y2 + Z2 * Z2 - (x * x + y * y + z * z)
  = dA * (x * x) + dB * (y * y) + (dA + dB + dA * dB) * (z * z)
    - dB * (2 * sA * cA * x * z - sA * sA * (x * x) + sA * sA * (z * z)).
Proof. intros -> ->. cbv zeta. ring. Qed.

Lemma Rabs_mul_le (a b A B : R) :
  Rabs a <= A -> Rabs b <= B -> Rabs (a * b) <= A * B.
Proof.
  intros Ha Hb. rewrite Rabs_mult.
  pose proof (Rabs_pos a). pose proof (Rabs_pos b).
  apply Rmult_le_compat; assumption.
Qed.

Lemma rotate_identity_bound (cA sA cB sB x y z : R) :
  Rabs cA <= 1 -> Rabs sA <= 1 ->
  Rabs x <= 2 -> Rabs y <= 2 -> Rabs z <= 2 ->
  Rabs (cA * cA + sA * sA - 1) <= 8 * ulp53 ->
  Rabs (cB * cB + sB * sB - 1) <= 8 * ulp53 ->
  let X := cA * x + sA * z in
  let Z1 := - sA * x + cA * z in
  let Y2 := cB * y - sB * Z1 in
  let Z2 := sB * y + cB * Z1 in
  Rabs (X * X + Y2 * Y2 + Z2 * Z2 - (x * x + y * y + z * z))
  <= 257 * ulp53.
Proof.
  intros HcA HsA Hx Hy Hz HdA HdB. cbv zeta.
  rewrite (rotate_identity cA sA cB sB x y z _ _ eq_refl eq_refl).
  set (dA := cA * cA + sA * sA - 1) in *.
  set (dB := cB * cB + sB * sB - 1) in *.
  assert (Hu : 0 < ulp53) by apply ulp53_pos.
  assert (Hu1 : 512 * ulp53 <= 1).
  { unfold ulp53. replace 512 with (bpow 9) by (unfold bpow; simpl; lra).
    rewrite <- bpow_add. replace 1 with (bpow 0) by reflexivity.
    apply bpow_le. lia. }
  pose proof (Rabs_mul_le _ _ _ _ Hx Hx) as Hxx.
  pose proof (Rabs_mul_le _ _ _ _ Hy Hy) as Hyy.
  pose proof (Rabs_mul_le _ _ _ _ Hz Hz) as Hzz.
  pose proof (Rabs_mul_le _ _ _ _ HsA HsA) as Hss.
  pose proof (Rabs_mul_le _ _ _ _ HsA HcA) as Hsc.
  pose proof (Rabs_mul_le _ _ _ _ Hx Hz) as Hxz.
  pose proof (Rabs_mul_le _ _ _ _ HdA HdB) as Hdd.
  pose proof (Rabs_mul_le _ _ _ _ Hsc Hxz) as Hscxz.
  pose proof (Rabs_mul_le _ _ _ _ Hss Hxx) as Hssxx.
  pose proof (Rabs_mul_le _ _ _ _ Hss Hzz) as Hsszz.
  assert (Hin : Rabs (2 * sA * cA * x * z - sA * sA * (x * x)
                      + sA * sA * (z * z)) <= 16).
  { replace (2 * sA * cA * x * z - sA * sA * (x * x) + sA * sA * (z * z))
      with (sA * cA * (x * z) + sA * cA * (x * z)
            + (- (sA * sA * (x * x)) + sA * sA * (z * z))) by ring.
    pose proof (Rabs_triang (sA * cA * (x * z) + sA * cA * (x * z))
                  (- (sA * sA * (x * x)) + sA * sA * (z * z))).
    pose proof (Rabs_triang (sA * cA * (x * z)) (sA * cA * (x * z))).
    pose proof (Rabs_triang (- (sA * sA * (x * x))) (sA * sA * (z * z)))
      as Ht.
    rewrite Rabs_Ropp in Ht. lra. }
  assert (Hsum : Rabs (dA + dB + dA * dB) <= 16 * ulp53 + 64 * ulp53 * ulp53).
  { pose proof (Rabs_triang (dA + dB) (dA * dB)).
    pose proof (Rabs_triang dA dB). lra. }
  pose proof (Rabs_mul_le _ _ _ _ HdA Hxx) as H1.
  pose proof (Rabs_mul_le _ _ _ _ HdB Hyy) as H2.
  pose proof (Rabs_mul_le _ _ _ _ Hsum Hzz) as H3.
  pose proof (Rabs_mul_le _ _ _ _ HdB Hin) as H4.
  set (t1 := dA * (x * x)) in *. set (t2 := dB * (y * y)) in *.
  set (t3 := (dA + dB + dA * dB) * (z * z)) in *.
  set (t4 := dB * (2 * sA * cA * x * z - sA * sA * (x * x)
                   + sA * sA * (z * z))) in *.
  pose proof (Rabs_triang (t1 + t2 + t3) (- t4)) as Ha.
  pose proof (Rabs_triang (t1 + t2) t3) as Hb.
  pose proof (Rabs_triang t1 t2) as Hc.
  rewrite Rabs_Ropp in Ha.
  assert (Hq : 64 * ulp53 * ulp53 * (2 * 2) <= ulp53) by nra.
  unfold Rminus. lra.
Qed.

(** The squared length of a rotated vector, as the doubles compute it. *)
Lemma rotate_squared_length (v : Vec3 float) (angle : float) :
  within 2 v ->
  Rabs (val (dot (rotate cos sin v angle) (rotate cos sin v angle))
        - val (dot v v)) <= bpow (-42).
Proof.
  intros Hv.
  destruct (rotate_approx v angle Hv) as [HX [HY HZ]]. cbv zeta in HX, HY, HZ.
  pose proof (approx_dot_self 3 22 _ _ _ _ HX HY HZ
                ltac:(lia) ltac:(lia) ltac:(lia)) as [_ [Hr _]].
  pose proof Hv as Hv'.
  apply (within_magnitude 2 v 1) in Hv'; [|reflexivity].
  destruct Hv' as [Hx [Hy Hz]].
  pose proof (approx_dot_self 1 0 v _ _ _ (approx_exact _ _ Hx)
                (approx_exact _ _ Hy) (approx_exact _ _ Hz)
                ltac:(lia) ltac:(lia) ltac:(lia)) as [_ [Hd _]].
  destruct (cos_sin_within angle) as [HcA HsA].
  destruct (cos_sin_within (PrimFloat.mul angle lit_0_5)) as [HcB HsB].
  pose proof (cos_sin_circle angle) as HdA.
  pose proof (cos_sin_circle (PrimFloat.mul angle lit_0_5)) as HdB.
  assert (H8 : bpow (-50) = 8 * ulp53).
  { replace (-50)%Z with (3 - 53)%Z by lia. rewrite bpow_ulp53 by lia.
    reflexivity. }
  rewrite H8 in HdA, HdB.
  pose proof (rotate_identity_bound (val (cos angle)) (val (sin angle))
                (val (cos (PrimFloat.mul angle lit_0_5)))
                (val (sin (PrimFloat.mul angle lit_0_5)))
                (val (vx v)) (val (vy v)) (val (vz v))) as Hid.
  cbv zeta in Hid.
  assert (Hb1 : forall x : float,
            magnitude 0 (Prim2SF x) -> Rabs (val x) <= 1).
  { intros x Hm. apply magnitude_value in Hm. exact Hm. }
  assert (Hb2 : forall x : float,
            magnitude 1 (Prim2SF x) -> Rabs (val x) <= 2).
  { intros x Hm. apply magnitude_value in Hm.
    replace (bpow 1) with 2 in Hm by (unfold bpow; simpl; lra). exact Hm. }
  specialize (Hid
    (Hb1 _ (mag_of_leb _ 1%float 0 eq_refl HcA))
    (Hb1 _ (mag_of_leb _ 1%float 0 eq_refl HsA))
    (Hb2 _ Hx) (Hb2 _ Hy) (Hb2 _ Hz) HdA HdB).
  assert (H2048 : bpow (-42) = 2048 * ulp53).
  { replace (-42)%Z with (11 - 53)%Z by lia. rewrite bpow_ulp53 by lia.
    reflexivity. }
  rewrite H2048.
  match type of Hr with
  | _ <= IZR ?n * _ => let n' := eval vm_compute in n in change n with n' in Hr
  end.
  match type of Hd with
  | _ <= IZR ?n * _ => let n' := eval vm_compute in n in change n with n' in Hd
  end.
  set (R3 := val (dot (rotate cos sin v angle) (rotate cos sin v angle))) in *.
  set (D := val (dot v v)) in *.
  match type of Hr with Rabs (_ - ?i) <= _ => set (I3 := i) in * end.
  match type of Hd with Rabs (_ - ?i) <= _ => set (I0 := i) in * end.
  replace (R3 - D) with ((R3 - I3) + (I3 - I0) + - (D - I0)) by ring.
  pose proof (Rabs_triang ((R3 - I3) + (I3 - I0)) (- (D - I0))) as Ha.
  pose proof (Rabs_triang (R3 - I3) (I3 - I0)) as Hb.
  rewrite Rabs_Ropp in Ha.
  pose proof ulp53_pos. lra.
Qed.

End RotateError.

(** *** The dot product of two rotated vectors *)

Section RotateDot.

Local Open Scope R_scope.

Variables cos sin : float -> float.

Hypothesis cos_sin_within :
  forall a, PrimFloat.leb (PrimFloat.abs (cos a)) 1 = true
            /\ PrimFloat.leb (PrimFloat.abs (sin a)) 1 = true.

Hypothesis cos_sin_circle :
  forall a,
    Rabs (val (cos a) * val (cos a) + val (sin a) * val (sin a) - 1)
    <= bpow (-50).

(** On the real numbers the rotation changes a dot product by what
    [cos^2 + sin^2] differs from 1. *)
Lemma rotate_dot_identity (cA sA cB sB x y z x' y' z' dA dB : R) :
  dA = cA * cA + sA * sA - 1 -> dB = cB * cB + sB * sB - 1 ->
  let X := cA * x + sA * z in
  let Z1 := - sA * x + cA * z in
  let X' := cA * x' + sA * z' in
  let Z1' := - sA * x' + cA * z' in
  X * X' + (cB * y - sB * Z1) * (cB * y' - sB * Z1')
  + (sB * y + cB * Z1) * (sB * y' + cB * Z1')
  - (x * x' + y * y' + z * z')
  = dA * (x * x') + dB * (y * y') + (dA + dB + dA * dB) * (z * z')
    - dB * (sA * cA * (x * z') + sA * cA * (x' * z) - sA * sA * (x * x')
            + sA * sA * (z * z')).
Proof. intros -> ->. cbv zeta. ring. Qed.

Lemma rotate_dot_identity_bound (cA sA cB sB x y z x' y' z' : R) :
  Rabs cA <= 1 -> Rabs sA <= 1 ->
  Rabs x <= 2 -> Rabs y <= 2 -> Rabs z <= 2 ->
  Rabs x' <= 2 -> Rabs y' <= 2 -> Rabs z' <= 2 ->
  Rabs (cA * cA + sA * sA - 1) <= 8 * ulp53 ->
  Rabs (cB * cB + sB * sB - 1) <= 8 * ulp53 ->
  let X := cA * x + sA * z in
  let Z1 := - sA * x + cA * z in
  let X' := cA * x' + sA * z' in
  let Z1' := - sA * x' + cA * z' in
  Rabs (X * X' + (cB * y - sB * Z1) * (cB * y' - sB * Z1')
        + (sB * y + cB * Z1) * (sB * y' + cB * Z1')
        - (x * x' + y * y' + z * z'))
  <= 257 * ulp53.
Proof.
  intros HcA HsA Hx Hy Hz Hx' Hy' Hz' HdA HdB. cbv zeta.
  rewrite (rotate_dot_identity cA sA cB sB x y z x' y' z' _ _
             eq_refl eq_refl).
  set (dA := cA * cA + sA * sA - 1) in *.
  set (dB := cB * cB + sB * sB - 1) in *.
  assert (Hu : 0 < ulp53) by apply ulp53_pos.
  assert (Hu1 : 512 * ulp53 <= 1).
  { unfold ulp53. replace 512 with (bpow 9) by (unfold bpow; simpl; lra).
    rewrite <- bpow_add. replace 1 with (bpow 0) by reflexivity.
    apply bpow_le. lia. }
  pose proof (Rabs_mul_le _ _ _ _ Hx Hx') as Hxx.
  pose proof (Rabs_mul_le _ _ _ _ Hy Hy') as Hyy.
  pose proof (Rabs_mul_le _ _ _ _ Hz Hz') as Hzz.
  pose proof (Rabs_mul_le _ _ _ _ HsA HsA) as Hss.
  pose proof (Rabs_mul_le _ _ _ _ HsA HcA) as Hsc.
  pose proof (Rabs_mul_le _ _ _ _ Hx Hz') as Hxz.
  pose proof (Rabs_mul_le _ _ _ _ Hx' Hz) as Hzx.
  pose proof (Rabs_mul_le _ _ _ _ HdA HdB) as Hdd.
  pose proof (Rabs_mul_le _ _ _ _ Hsc Hxz) as Hscxz.
  pose proof (Rabs_mul_le _ _ _ _ Hsc Hzx) as Hsczx.
  pose proof (Rabs_mul_le _ _ _ _ Hss Hxx) as Hssxx.
  pose proof (Rabs_mul_le _ _ _ _ Hss Hzz) as Hsszz.
  assert (Hin : Rabs (sA * cA * (x * z') + sA * cA * (x' * z)
                      - sA * sA * (x * x') + sA * sA * (z * z')) <= 16).
  { replace (sA * cA * (x * z') + sA * cA * (x' * z)
             - sA * sA * (x * x') + sA * sA * (z * z'))
      with (sA * cA * (x * z') + sA * cA * (x' * z)
            + (- (sA * sA * (x * x')) + sA * sA * (z * z'))) by ring.
    pose proof (Rabs_triang (sA * cA * (x * z') + sA * cA * (x' * z))
                  (- (sA * sA * (x * x')) + sA * sA * (z * z'))).
    pose proof (Rabs_triang (sA * cA * (x * z')) (sA * cA * (x' * z))).
    pose proof (Rabs_triang (- (sA * sA * (x * x'))) (sA * sA * (z * z')))
      as Ht.
    rewrite Rabs_Ropp in Ht. lra. }
  assert (Hsum : Rabs (dA + dB + dA * dB)
                 <= 16 * ulp53 + 64 * ulp53 * ulp53).
  { pose proof (Rabs_triang (dA + dB) (dA * dB)).
    pose proof (Rabs_triang dA dB). lra. }
  pose proof (Rabs_mul_le _ _ _ _ HdA Hxx) as H1.
  pose proof (Rabs_mul_le _ _ _ _ HdB Hyy) as H2.
  pose proof (Rabs_mul_le _ _ _ _ Hsum Hzz) as H3.
  pose proof (Rabs_mul_le _ _ _ _ HdB Hin) as H4.
  set (t1 := dA * (x * x')) in *. set (t2 := dB * (y * y')) in *.
  set (t3 := (dA + dB + dA * dB) * (z * z')) in *.
  set (t4 := dB * (sA * cA * (x * z') + sA * cA * (x' * z)
                   - sA * sA * (x * x') + sA * sA * (z * z'))) in *.
  pose proof (Rabs_triang (t1 + t2 + t3) (- t4)) as Ha.
  pose proof (Rabs_triang (t1 + t2) t3) as Hb.
  pose proof (Rabs_triang t1 t2) as Hc.
  rewrite Rabs_Ropp in Ha.
  assert (Hq : 64 * ulp53 * ulp53 * (2 * 2) <= ulp53) by nra.
  unfold Rminus. lra.
Qed.

(** The dot product of two rotated vectors, as the doubles compute it. *)
Lemma rotate_dot (a b : Vec3 float) (angle : float) :
  within 2 a -> within 2 b ->
  magnitude 8 (Prim2SF (dot (rotate cos sin a angle) (rotate cos sin b angle)))
  /\ Rabs (val (dot (rotate cos sin a angle) (rotate cos sin b angle))
           - val (dot a b)) <= bpow (-42).
Proof.
  intros Ha Hb.
  destruct (rotate_approx cos sin cos_sin_within a angle Ha)
    as [HX [HY HZ]]. cbv zeta in HX, HY, HZ.
  destruct (rotate_approx cos sin cos_sin_within b angle Hb)
    as [HX' [HY' HZ']]. cbv zeta in HX', HY', HZ'.
  pose proof (approx_dot 3 3 22 _ _ _ _ _ _ _ _ HX HY HZ HX' HY' HZ'
                ltac:(lia) ltac:(lia) ltac:(lia) ltac:(lia)) as [Hm [Hr _]].
  split; [exact Hm|].
  destruct (approx_vec 2 a 1 1 0 eq_refl Ha ltac:(lia) ltac:(lia))
    as [Hax [Hay Haz]].
  destruct (approx_vec 2 b 1 1 0 eq_refl Hb ltac:(lia) ltac:(lia))
    as [Hbx [Hby Hbz]].
  pose proof (approx_dot 1 1 0 a b _ _ _ _ _ _ Hax Hay Haz Hbx Hby Hbz
                ltac:(lia) ltac:(lia) ltac:(lia) ltac:(lia)) as [_ [Hd _]].
  destruct (cos_sin_within angle) as [HcA HsA].
  destruct (cos_sin_within (PrimFloat.mul angle lit_0_5)) as [HcB HsB].
  pose proof (cos_sin_circle angle) as HdA.
  pose proof (cos_sin_circle (PrimFloat.mul angle lit_0_5)) as HdB.
  assert (H8 : bpow (-50) = 8 * ulp53).
  { replace (-50)%Z with (3 - 53)%Z by lia. rewrite bpow_ulp53 by lia.
    reflexivity. }
  rewrite H8 in HdA, HdB.
  assert (Hb1 : forall x : float,
            magnitude 0 (Prim2SF x) -> Rabs (val x) <= 1).
  { intros x Hx. apply magnitude_value in Hx. exact Hx. }
  assert (Hb2 : forall x : float,
            approx 1 0 x (val x) -> Rabs (val x) <= 2).
  { intros x [_ [_ Hx]].
    replace (bpow 1) with 2 in Hx by (unfold bpow; simpl; lra). exact Hx. }
  pose proof (rotate_dot_identity_bound (val (cos angle)) (val (sin angle))
                (val (cos (PrimFloat.mul angle lit_0_5)))
                (val (sin (PrimFloat.mul angle lit_0_5)))
                (val (vx a)) (val (vy a)) (val (vz a))
                (val (vx b)) (val (vy b)) (val (vz b))
                (Hb1 _ (mag_of_leb _ 1%float 0 eq_refl HcA))
                (Hb1 _ (mag_of_leb _ 1%float 0 eq_refl HsA))
                (Hb2 _ Hax) (Hb2 _ Hay) (Hb2 _ Haz)
                (Hb2 _ Hbx) (Hb2 _ Hby) (Hb2 _ Hbz) HdA HdB) as Hid.
  cbv zeta in Hid.
  assert (H2048 : bpow (-42) = 2048 * ulp53).
  { replace (-42)%Z with (11 - 53)%Z by lia. rewrite bpow_ulp53 by lia.
    reflexivity. }
  rewrite H2048.
  match type of Hr with
  | _ <= IZR ?n * _ => let n' := eval vm_compute in n in change n with n' in Hr
  end.
  match type of Hd with
  | _ <= IZR ?n * _ => let n' := eval vm_compute in n in change n with n' in Hd
  end.
  set (R3 := val (dot (rotate cos sin a angle) (rotate cos sin b angle)))
    in *.
  set (D := val (dot a b)) in *.
  match type of Hr with Rabs (_ - ?i) <= _ => set (I3 := i) in * end.
  match type of Hd with Rabs (_ - ?i) <= _ => set (I0 := i) in * end.
  replace (R3 - D) with ((R3 - I3) + (I3 - I0) + - (D - I0)) by ring.
  pose proof (Rabs_triang ((R3 - I3) + (I3 - I0)) (- (D - I0))) as Hta.
  pose proof (Rabs_triang (R3 - I3) (I3 - I0)) as Htb.
  rewrite Rabs_Ropp in Hta.
  pose proof ulp53_pos. lra.
Qed.

End RotateDot.

(** *** The square root *)

Section SquareRoot.

Local Open Scope Z_scope.

Lemma shr_1_m (mrs : shr_record) :
  0 <= shr_m mrs -> shr_m (shr_1 mrs) = shr_m mrs / 2.
Proof.
  destruct mrs as [m r s]. cbn [shr_m]. intros H.
  now rewrite shr_1_spec.
Qed.

Lemma iter_shr_m (mrs : shr_record) (k : nat) :
  0 <= shr_m mrs ->
  shr_m (Nat.iter k shr_1 mrs) = shr_m mrs / 2 ^ Z.of_nat k.
Proof.
  intros H. induction k as [|k IH].
  - cbn [Nat.iter nat_rect Z.of_nat]. now rewrite Z.pow_0_r, Z.div_1_r.
  - rewrite Nat.iter_succ.
    pose proof (pow2_pos (Z.of_nat k) ltac:(lia)) as Hp.
    rewrite shr_1_m by (rewrite IH; apply Z.div_pos; lia).
    rewrite IH, Z.div_div by lia.
    replace (Z.of_nat (S k)) with (Z.of_nat k + 1) by lia.
    now rewrite pow2_succ, (Z.mul_comm 2) by lia.
Qed.

Lemma shr_record_of_loc_m (m : Z) (l : location) :
  shr_m (shr_record_of_loc m l) = m.
Proof. now destruct l as [|[| |]]. Qed.

Lemma round_nearest_even_bounds (m : Z) (l : location) :
  m <= round_nearest_even m l <= m + 1.
Proof.
  destruct l as [|[| |]]; cbn [round_nearest_even]; try lia.
  destruct (Z.even m); lia.
Qed.

(** The first shift of [binary_round_aux], whatever the location. *)
Lemma shr_fexp_m (q e : Z) (l : location) :
  0 <= q ->
  let G := Z.max (fexp prec emax (Zdigits2 q + e)) e in
  exists mrs,
    shr_fexp prec emax q e l = (mrs, G)
    /\ shr_m mrs = q / 2 ^ (G - e).
Proof.
  intros Hq G. unfold shr_fexp.
  set (g := fexp prec emax (Zdigits2 q + e)) in *.
  destruct (g - e) as [|p|p] eqn:Hn.
  - exists (shr_record_of_loc q l). cbn [shr]. split; [f_equal; lia|].
    rewrite shr_record_of_loc_m. replace (G - e) with 0 by lia.
    now rewrite Z.pow_0_r, Z.div_1_r.
  - exists (SpecFloat.iter_pos shr_1 p (shr_record_of_loc q l)).
    cbn [shr]. split; [f_equal; lia|].
    rewrite iter_pos_nat, iter_shr_m by now rewrite shr_record_of_loc_m.
    rewrite shr_record_of_loc_m, positive_nat_Z. f_equal. f_equal. lia.
  - exists (shr_record_of_loc q l). cbn [shr]. split; [f_equal; lia|].
    rewrite shr_record_of_loc_m. replace (G - e) with 0 by lia.
    now rewrite Z.pow_0_r, Z.div_1_r.
Qed.

(** The second shift: one place when the rounding carried to [2^53]. *)
Lemma shr_fexp_carry (R g : Z) :
  -1074 <= g -> 0 <= R <= 2 ^ 53 ->
  exists m e,
    shr_fexp prec emax R g loc_Exact = (Build_shr_record m false false, e)
    /\ m * 2 ^ (e - g) = R /\ g <= e <= g + 1 /\ 0 <= m < 2 ^ 53.
Proof.
  intros Hg HR. destruct (Z.eq_dec R (2 ^ 53)) as [Hcarry | Hnc].
  - exists (2 ^ 52), (g + 1). rewrite Hcarry. split.
    + unfold shr_fexp. rewrite fexp_eq.
      replace (Zdigits2 (2 ^ 53)) with 54 by reflexivity.
      replace (Z.max (54 + g - 53) (-1074) - g) with 1 by lia.
      reflexivity.
    + replace (g + 1 - g) with 1 by lia. split; [reflexivity|]. lia.
  - exists R, g. split.
    + unfold shr_fexp. cbn [shr_record_of_loc].
      apply shr_nonpos. rewrite fexp_eq.
      destruct R as [|r|r]; [cbn [Zdigits2]; lia | | lia].
      pose proof (Zdigits2_le r 53 ltac:(lia)). lia.
    + rewrite Z.sub_diag. lia.
Qed.

(** [binary_round_aux] on a mantissa [q] that stands for a number in
    [[q, q + 1)]: the result is the quotient of [q] by the power of two
    that the format asks for, or the next integer. *)
Lemma round_aux_loc (s : bool) (q e : Z) (l : location) :
  0 <= q ->
  let G := Z.max (fexp prec emax (Zdigits2 q + e)) e in
  exists m e',
    binary_round_aux prec emax s q e l = rounded s m e'
    /\ G <= e' <= G + 1 /\ 0 <= m
    /\ q / 2 ^ (G - e) <= m * 2 ^ (e' - G) <= q / 2 ^ (G - e) + 1.
Proof.
  intros Hq G. rewrite binary_round_aux_eq.
  destruct (shr_fexp_m q e l Hq) as [mrs [H1 H2]].
  fold G in H1, H2. rewrite H1. cbn [fst snd]. rewrite H2.
  set (f := q / 2 ^ (G - e)) in *.
  pose proof (round_nearest_even_bounds f (loc_of_shr_record mrs)) as HR.
  set (R := round_nearest_even f (loc_of_shr_record mrs)) in *.
  assert (HG : -1074 <= G) by (unfold G; rewrite fexp_eq; lia).
  assert (Hn : 0 <= G - e) by lia.
  pose proof (pow2_pos (G - e) Hn) as HP.
  assert (Hf0 : 0 <= f) by (apply Z.div_pos; lia).
  assert (Hf : f < 2 ^ 53).
  { apply Z.div_lt_upper_bound; [lia|].
    rewrite <- Z.pow_add_r by lia.
    destruct q as [|p|p]; [apply Z.pow_pos_nonneg; lia | | lia].
    pose proof (Zdigits2_bounds p) as [_ Hhi].
    assert (2 ^ Zdigits2 (Z.pos p) <= 2 ^ (G - e + 53)).
    { apply Z.pow_le_mono_r; [lia|]. unfold G. rewrite fexp_eq. lia. }
    lia. }
  destruct (shr_fexp_carry R G HG ltac:(lia)) as [m [e' [H3 [H4 [H5 H6]]]]].
  rewrite H3. cbn [fst snd shr_m]. exists m, e'.
  split; [reflexivity|]. split; [exact H5|]. split; [lia|]. lia.
Qed.

Local Open Scope R_scope.

Lemma sqrt_bpow (e : Z) : sqrt (bpow (2 * e)) = bpow e.
Proof.
  replace (2 * e)%Z with (e + e)%Z by lia. rewrite bpow_add.
  apply sqrt_square. pose proof (bpow_pos e). lra.
Qed.

Lemma sqrt_between (m q : Z) :
  (0 <= q)%Z -> (q * q <= m < (q + 1) * (q + 1))%Z ->
  IZR q <= sqrt (IZR m) < IZR q + 1.
Proof.
  intros Hq [Hlo Hhi]. apply IZR_le in Hq, Hlo. apply IZR_lt in Hhi.
  rewrite mult_IZR in Hlo. rewrite mult_IZR, plus_IZR in Hhi.
  assert (Hm : 0 <= IZR m) by nra.
  split.
  - rewrite <- (sqrt_square (IZR q)) by exact Hq.
    apply sqrt_le_1; nra.
  - rewrite <- (sqrt_square (IZR q + 1)) by lra.
    apply sqrt_lt_1; nra.
Qed.

(** The square root of binary64 is within one unit in the last place of
    the square root of its argument. *)
Lemma SFsqrt_error (m : positive) (e K : Z) :
  SpecFloat.bounded prec emax m e = true ->
  F2R (Z.pos m) e <= bpow (2 * K) ->
  (-1022 <= K <= 1022)%Z ->
  finite_nonneg (SFsqrt prec emax (S754_finite false m e))
  /\ Rabs (SF2R (SFsqrt prec emax (S754_finite false m e))
           - sqrt (F2R (Z.pos m) e)) <= bpow (K - 52).
Proof.
  intros Hb Hx HK. cbn [SFsqrt]. unfold SFsqrt_core_binary.
  set (d := Zdigits2 (Z.pos m)).
  set (e' := Z.min (fexp prec emax (Z.div2 (d + e + 1))) (Z.div2 e)).
  set (s := (e - 2 * e')%Z).
  assert (Hs : (0 <= s)%Z).
  { unfold s, e'. rewrite (Z.div2_div e).
    pose proof (Z.mul_div_le e 2 ltac:(lia)). lia. }
  set (m' := match s with
             | 0%Z => Z.pos m
             | Z.pos _ => Z.shiftl (Z.pos m) s
             | Z.neg _ => 0%Z
             end).
  assert (Hm' : m' = (Z.pos m * 2 ^ s)%Z).
  { unfold m'. destruct s as [|p|p] eqn:Es; [| |lia].
    - rewrite Z.pow_0_r. lia.
    - now rewrite Z.shiftl_mul_pow2 by lia. }
  pose proof (pow2_pos s Hs) as Hps.
  assert (Hm'1 : (1 <= m')%Z) by nia.
  pose proof (Z.sqrtrem_spec m' ltac:(lia)) as Hsq.
  destruct (Z.sqrtrem m') as [q r]. destruct Hsq as [Hq [Hr0 Hr1]].
  assert (Hq1 : (1 <= q)%Z) by nia.
  set (l := if (r =? 0)%Z then loc_Exact
            else loc_Inexact (if (r <=? q)%Z then Lt else Gt)).
  destruct q as [|q|q]; try lia.
  destruct (round_aux_loc false (Z.pos q) e' l ltac:(lia))
    as [mz [ez [H1 [H2 [H3 H4]]]]].
  rewrite H1.
  set (G := Z.max (fexp prec emax (Zdigits2 (Z.pos q) + e')) e') in *.
  assert (Hn : (0 <= G - e')%Z) by lia.
  pose proof (pow2_pos (G - e') Hn) as HP.
  (* the argument, and its square root *)
  assert (Hval : F2R (Z.pos m) e = IZR m' * bpow (2 * e')).
  { rewrite Hm'. fold (F2R (Z.pos m * 2 ^ s) (2 * e')).
    rewrite F2R_shift by exact Hs. f_equal. unfold s. lia. }
  assert (Hroot : sqrt (F2R (Z.pos m) e) = sqrt (IZR m') * bpow e').
  { rewrite Hval, sqrt_mult_alt by (apply IZR_le; lia).
    now rewrite sqrt_bpow. }
  pose proof (sqrt_between m' (Z.pos q) ltac:(lia) ltac:(nia)) as [Hlo Hhi].
  pose proof (bpow_pos e') as Hbe.
  (* the magnitude *)
  assert (Hroot_le : sqrt (F2R (Z.pos m) e) <= bpow K).
  { rewrite <- sqrt_bpow. apply sqrt_le_1_alt. exact Hx. }
  assert (HqK : F2R (Z.pos q) e' <= bpow K).
  { unfold F2R. rewrite Hroot in Hroot_le. nra. }
  assert (HdK : (Zdigits2 (Z.pos q) + e' <= K + 1)%Z).
  { pose proof (F2R_digits q e') as [Hd _].
    assert (bpow (Zdigits2 (Z.pos q) - 1 + e') < bpow (K + 1)).
    { apply Rle_lt_trans with (bpow K); [lra|]. apply bpow_lt. lia. }
    apply bpow_lt_inv in H. lia. }
  assert (He'K : (e' <= K - 52)%Z).
  { pose proof (F2R_digits m e) as [Hd _]. fold d in Hd.
    assert (bpow (d - 1 + e) < bpow (2 * K + 1)).
    { apply Rle_lt_trans with (bpow (2 * K)); [lra|]. apply bpow_lt. lia. }
    apply bpow_lt_inv in H.
    assert ((Z.div2 (d + e + 1) <= K + 1)%Z).
    { rewrite Z.div2_div. apply Z.div_le_upper_bound; lia. }
    unfold e'. rewrite fexp_eq. lia. }
  assert (HGK : (G <= K - 52)%Z) by (unfold G; rewrite fexp_eq; lia).
  assert (HG : (-1074 <= G)%Z) by (unfold G; rewrite fexp_eq; lia).
  assert (Hfin : finite_nonneg (rounded false mz ez)).
  { apply mk_finite; [exact H3|]. right. lia. }
  split; [exact Hfin|].
  rewrite (mk_value mz ez H3 Hfin), Hroot.
  (* the value, in units of [2^G] *)
  set (f := (Z.pos q / 2 ^ (G - e'))%Z) in *.
  pose proof (Z.div_mod (Z.pos q) (2 ^ (G - e')) ltac:(lia)) as Hdm.
  pose proof (Z.mod_pos_bound (Z.pos q) (2 ^ (G - e')) HP) as Hmod.
  fold f in Hdm.
  set (R := (mz * 2 ^ (ez - G))%Z) in *.
  assert (HvR : F2R mz ez = IZR R * bpow G).
  { unfold R. fold (F2R (mz * 2 ^ (ez - G)) G).
    rewrite F2R_shift by lia. f_equal. lia. }
  assert (Hbg : bpow G = IZR (2 ^ (G - e')) * bpow e').
  { rewrite <- bpow_IZR, <- bpow_add by lia. f_equal. lia. }
  assert (Hflo : IZR f * IZR (2 ^ (G - e')) <= sqrt (IZR m')).
  { rewrite <- mult_IZR. apply Rle_trans with (IZR (Z.pos q)); [|exact Hlo].
    apply IZR_le. lia. }
  assert (Hfhi : sqrt (IZR m') <= (IZR f + 1) * IZR (2 ^ (G - e'))).
  { apply Rle_trans with (IZR (Z.pos q) + 1); [lra|].
    rewrite <- plus_IZR, <- plus_IZR, <- mult_IZR. apply IZR_le. nia. }
  destruct H4 as [H4a H4b]. apply IZR_le in H4a, H4b.
  rewrite plus_IZR in H4b.
  apply Rle_trans with (bpow G); [|apply bpow_le; exact HGK].
  rewrite HvR, Hbg.
  assert (HPr : 0 < IZR (2 ^ (G - e'))) by (apply IZR_lt; lia).
  set (P := IZR (2 ^ (G - e'))) in *. set (S := sqrt (IZR m')) in *.
  replace (IZR R * (P * bpow e') - S * bpow e')
    with ((IZR R * P - S) * bpow e') by ring.
  rewrite Rabs_mult, (Rabs_pos_eq (bpow e')) by lra.
  apply Rmult_le_compat_r; [lra|].
  apply Rabs_le. split; nra.
Qed.

Lemma sqrt_error (x : float) (K : Z) :
  0 < val x -> val x <= bpow (2 * K) -> (-1022 <= K <= 1022)%Z ->
  Rabs (val (PrimFloat.sqrt x) - sqrt (val x)) <= bpow (K - 52).
Proof.
  unfold val. rewrite sqrt_spec. pose proof (Prim2SF_valid x) as Hv.
  unfold valid_binary in Hv. unfold SF64sqrt.
  destruct (Prim2SF x) as [s | s | | [|] m e]; cbn [SF2R]; try lra.
  - intros H. pose proof (F2R_nonneg m e). lra.
  - cbn [SpecFloat.valid_binary] in Hv. intros _ Hx HK.
    apply (SFsqrt_error m e K Hv Hx HK).
Qed.

End SquareRoot.

(** *** The quotient *)

Section Division.

Local Open Scope R_scope.

Lemma signedR_abs (s : bool) (a b : R) :
  Rabs (signedR s a - signedR s b) = Rabs (a - b).
Proof.
  destruct s; cbn [signedR]; [|reflexivity].
  replace (- a - - b) with (- (a - b)) by ring. apply Rabs_Ropp.
Qed.

(** The quotient of binary64 is within one unit in the last place of the
    quotient of its arguments. *)
Lemma SFdiv_error (sx sy : bool) (mx my : positive) (ex ey K : Z) :
  SpecFloat.bounded prec emax mx ex = true ->
  SpecFloat.bounded prec emax my ey = true ->
  F2R (Z.pos mx) ex <= bpow K * F2R (Z.pos my) ey ->
  (-1022 <= K <= 1022)%Z ->
  finite_nonneg
    (SFabs (SFdiv prec emax (S754_finite sx mx ex) (S754_finite sy my ey)))
  /\ Rabs (SF2R (SFdiv prec emax (S754_finite sx mx ex)
                   (S754_finite sy my ey))
           - signedR (xorb sx sy) (F2R (Z.pos mx) ex / F2R (Z.pos my) ey))
     <= bpow (K - 52).
Proof.
  intros Hbx Hby Hxy HK. cbn [SFdiv]. unfold SFdiv_core_binary.
  set (d1 := Zdigits2 (Z.pos mx)). set (d2 := Zdigits2 (Z.pos my)).
  set (e' := Z.min (fexp prec emax (d1 + ex - (d2 + ey))) (ex - ey)).
  set (s := (ex - ey - e')%Z).
  assert (Hs : (0 <= s)%Z) by (unfold s, e'; lia).
  set (m' := match s with
             | 0%Z => Z.pos mx
             | Z.pos _ => Z.shiftl (Z.pos mx) s
             | Z.neg _ => 0%Z
             end).
  assert (Hm' : m' = (Z.pos mx * 2 ^ s)%Z).
  { unfold m'. destruct s as [|p|p] eqn:Es; [| |lia].
    - rewrite Z.pow_0_r. lia.
    - now rewrite Z.shiftl_mul_pow2 by lia. }
  pose proof (pow2_pos s Hs) as Hps.
  assert (Hm'1 : (1 <= m')%Z) by nia.
  pose proof (Z.div_eucl_eq m' (Z.pos my) ltac:(lia)) as Hdiv.
  pose proof (Z.mod_pos_bound m' (Z.pos my) ltac:(lia)) as Hmod.
  unfold Z.modulo in Hmod.
  destruct (Z.div_eucl m' (Z.pos my)) as [q r].
  assert (Hq0 : (0 <= q)%Z) by nia.
  destruct (round_aux_loc (xorb sx sy) q e' (new_location (Z.pos my) r) Hq0)
    as [mz [ez [H1 [H2 [H3 H4]]]]].
  rewrite H1.
  set (G := Z.max (fexp prec emax (Zdigits2 q + e')) e') in *.
  assert (Hn : (0 <= G - e')%Z) by lia.
  pose proof (pow2_pos (G - e') Hn) as HP.
  pose proof (F2R_digits mx ex) as [HXlo HXhi]. fold d1 in HXlo, HXhi.
  pose proof (F2R_digits my ey) as [HYlo HYhi]. fold d2 in HYlo, HYhi.
  set (X := F2R (Z.pos mx) ex) in *. set (Y := F2R (Z.pos my) ey) in *.
  assert (HY0 : 0 < Y).
  { pose proof (bpow_pos (d2 - 1 + ey)). lra. }
  assert (HX0 : 0 < X).
  { pose proof (bpow_pos (d1 - 1 + ex)). lra. }
  (* the quotient, in units of [2^e'] *)
  assert (Hquot : X / Y = IZR m' / IZR (Z.pos my) * bpow e').
  { unfold X, Y, F2R. rewrite Hm', mult_IZR, <- (bpow_IZR s) by exact Hs.
    replace ex with (s + e' + ey)%Z at 1 by (unfold s; lia).
    rewrite !bpow_add. field. split.
    - apply not_0_IZR. lia.
    - pose proof (bpow_pos ey). lra. }
  set (T := IZR m' / IZR (Z.pos my)) in *.
  assert (Hmy : 0 < IZR (Z.pos my)) by (apply IZR_lt; lia).
  assert (HT : IZR q <= T < IZR q + 1).
  { unfold T. split.
    - apply Rmult_le_reg_r with (IZR (Z.pos my)); [exact Hmy|].
      unfold Rdiv. rewrite Rmult_assoc, Rinv_l, Rmult_1_r by lra.
      rewrite <- mult_IZR. apply IZR_le. nia.
    - apply Rmult_lt_reg_r with (IZR (Z.pos my)); [exact Hmy|].
      unfold Rdiv. rewrite Rmult_assoc, Rinv_l, Rmult_1_r by lra.
      rewrite <- plus_IZR, <- mult_IZR. apply IZR_lt. nia. }
  pose proof (bpow_pos e') as Hbe.
  (* the magnitude *)
  assert (HTK : T * bpow e' <= bpow K).
  { rewrite <- Hquot. apply Rmult_le_reg_r with Y; [exact HY0|].
    unfold Rdiv. rewrite Rmult_assoc, Rinv_l, Rmult_1_r by lra. exact Hxy. }
  assert (He'K : (e' <= K - 52)%Z).
  { assert (bpow (d1 - 1 + ex) < bpow (K + (d2 + ey))).
    { rewrite (bpow_add K). pose proof (bpow_pos K). nra. }
    apply bpow_lt_inv in H.
    unfold e'. rewrite fexp_eq. lia. }
  assert (HdK : (Zdigits2 q + e' <= K + 1)%Z).
  { destruct q as [|p|p]; [cbn [Zdigits2]; lia | | lia].
    pose proof (F2R_digits p e') as [Hd _]. unfold F2R in Hd.
    assert (bpow (Zdigits2 (Z.pos p) - 1 + e') < bpow (K + 1)).
    { apply Rle_lt_trans with (bpow K); [|apply bpow_lt; lia]. nra. }
    apply bpow_lt_inv in H. lia. }
  assert (HGK : (G <= K - 52)%Z) by (unfold G; rewrite fexp_eq; lia).
  assert (HG : (-1074 <= G)%Z) by (unfold G; rewrite fexp_eq; lia).
  assert (Hfin : finite_nonneg (rounded false mz ez)).
  { apply mk_finite; [exact H3|]. right. lia. }
  split.
  { destruct mz as [|p|p]; cbn [rounded SFabs] in *; [exact I | | lia].
    destruct (_ <=? _)%Z; cbn [SFabs]; exact Hfin. }
  rewrite (SF2R_rounded _ mz ez H3 Hfin), signedR_abs, Hquot.
  set (f := (q / 2 ^ (G - e'))%Z) in *.
  pose proof (Z.div_mod q (2 ^ (G - e')) ltac:(lia)) as Hdm.
  pose proof (Z.mod_pos_bound q (2 ^ (G - e')) HP) as Hmd.
  fold f in Hdm.
  set (R := (mz * 2 ^ (ez - G))%Z) in *.
  assert (HvR : F2R mz ez = IZR R * bpow G).
  { unfold R. fold (F2R (mz * 2 ^ (ez - G)) G).
    rewrite F2R_shift by lia. f_equal. lia. }
  assert (Hbg : bpow G = IZR (2 ^ (G - e')) * bpow e').
  { rewrite <- bpow_IZR, <- bpow_add by lia. f_equal. lia. }
  assert (Hflo : IZR f * IZR (2 ^ (G - e')) <= T).
  { rewrite <- mult_IZR. apply Rle_trans with (IZR q); [|apply HT].
    apply IZR_le. lia. }
  assert (Hfhi : T <= (IZR f + 1) * IZR (2 ^ (G - e'))).
  { apply Rle_trans with (IZR q + 1); [lra|].
    rewrite <- plus_IZR, <- plus_IZR, <- mult_IZR. apply IZR_le. nia. }
  destruct H4 as [H4a H4b]. apply IZR_le in H4a, H4b.
  rewrite plus_IZR in H4b.
  apply Rle_trans with (bpow G); [|apply bpow_le; exact HGK].
  rewrite HvR, Hbg.
  assert (HPr : 0 < IZR (2 ^ (G - e'))) by (apply IZR_lt; lia).
  set (P := IZR (2 ^ (G - e'))) in *.
  replace (IZR R * (P * bpow e') - T * bpow e')
    with ((IZR R * P - T) * bpow e') by ring.
  rewrite Rabs_mult, (Rabs_pos_eq (bpow e')) by lra.
  apply Rmult_le_compat_r; [lra|].
  apply Rabs_le. split; nra.
Qed.

(** The quotient of two doubles that are numbers, the divisor not zero. *)
Lemma div_error (x y : float) (K : Z) :
  finite_nonneg (SFabs (Prim2SF x)) ->
  val y <> 0 -> Rabs (val x) <= bpow K * Rabs (val y) ->
  (-1022 <= K <= 1022)%Z ->
  finite_nonneg (SFabs (Prim2SF (PrimFloat.div x y)))
  /\ Rabs (val (PrimFloat.div x y) - val x / val y) <= bpow (K - 52).
Proof.
  unfold val. rewrite div_spec. unfold SF64div.
  pose proof (Prim2SF_valid x) as Hvx. pose proof (Prim2SF_valid y) as Hvy.
  unfold valid_binary in Hvx, Hvy.
  intros Fx Hy0 Hxy HK.
  destruct (Prim2SF y) as [sy | sy | | sy my ey];
    cbn [SF2R] in Hy0; try (exfalso; apply Hy0; reflexivity).
  destruct (Prim2SF x) as [sx | sx | | sx mx ex];
    cbn [SFabs finite_nonneg] in Fx; try contradiction.
  - cbn [SFdiv SFabs finite_nonneg SF2R]. split; [exact I|].
    unfold Rdiv. rewrite Rmult_0_l, Rminus_0_r, Rabs_R0.
    apply Rlt_le, bpow_pos.
  - cbn [SpecFloat.valid_binary] in Hvx, Hvy.
    assert (Hxy' : F2R (Z.pos mx) ex <= bpow K * F2R (Z.pos my) ey).
    { rewrite <- !SF2R_abs in Hxy. exact Hxy. }
    destruct (SFdiv_error sx sy mx my ex ey K Hvx Hvy Hxy' HK) as [Hf He].
    split; [exact Hf|].
    replace (SF2R (S754_finite sx mx ex) / SF2R (S754_finite sy my ey))
      with (signedR (xorb sx sy)
              (F2R (Z.pos mx) ex / F2R (Z.pos my) ey)); [exact He|].
    pose proof (F2R_digits my ey) as [Hlo _].
    pose proof (bpow_pos (Zdigits2 (Z.pos my) - 1 + ey)).
    cbn [SF2R]. destruct sx, sy; cbn [xorb signedR]; field; lra.
Qed.

End Division.

(** *** The length of a rotated vector *)

Section RotateLength.

Local Open Scope R_scope.

Lemma sqrt_of_nonpos (x : float) : val x <= 0 -> val (PrimFloat.sqrt x) = 0.
Proof.
  unfold val. rewrite sqrt_spec. unfold SF64sqrt.
  destruct (Prim2SF x) as [s | [|] | | [|] m e]; cbn [SFsqrt SF2R];
    try reflexivity.
  intros H. pose proof (F2R_nonneg m e). pose proof (F2R_digits m e) as [Hd _].
  pose proof (bpow_pos (Zdigits2 (Z.pos m) - 1 + e)). lra.
Qed.

Lemma Rabs_bound (x d : R) : Rabs x <= d -> - d <= x <= d.
Proof. unfold Rabs. destruct (Rcase_abs x); lra. Qed.

(** Two numbers that are close have close square roots, away from 0. *)
Lemma sqrt_close (a b d : R) :
  0 <= a -> / 4 <= sqrt b -> 0 <= b -> Rabs (a - b) <= d ->
  Rabs (sqrt a - sqrt b) <= 4 * d.
Proof.
  intros Ha Hsb Hb Hd.
  pose proof (sqrt_pos a) as Hsa.
  pose proof (sqrt_sqrt a Ha) as Ea.
  pose proof (sqrt_sqrt b Hb) as Eb.
  apply Rabs_bound in Hd. apply Rabs_le.
  set (x := sqrt a) in *. set (y := sqrt b) in *.
  split; nra.
Qed.

Variables cos sin : float -> float.

Hypothesis cos_sin_within :
  forall a, PrimFloat.leb (PrimFloat.abs (cos a)) 1 = true
            /\ PrimFloat.leb (PrimFloat.abs (sin a)) 1 = true.

Hypothesis cos_sin_circle :
  forall a,
    Rabs (val (cos a) * val (cos a) + val (sin a) * val (sin a) - 1)
    <= bpow (-50).

Lemma rotate_length_close (v : Vec3 float) (angle : float) :
  within 2 v ->
  bpow (-1) <= val (length v) ->
  Rabs (val (length (rotate cos sin v angle)) - val (length v))
  <= bpow (-39).
Proof.
  intros Hv Hlen.
  pose proof (rotate_squared_length cos sin cos_sin_within cos_sin_circle
                v angle Hv) as Hsq.
  destruct (rotate_approx cos sin cos_sin_within v angle Hv)
    as [HX [HY HZ]]. cbv zeta in HX, HY, HZ.
  pose proof (approx_dot_self 3 22 _ _ _ _ HX HY HZ
                ltac:(lia) ltac:(lia) ltac:(lia)) as [Hmr _].
  pose proof Hv as Hv'.
  apply (within_magnitude 2 v 1) in Hv'; [|reflexivity].
  destruct Hv' as [Hx [Hy Hz]].
  pose proof (approx_dot_self 1 0 v _ _ _ (approx_exact _ _ Hx)
                (approx_exact _ _ Hy) (approx_exact _ _ Hz)
                ltac:(lia) ltac:(lia) ltac:(lia)) as [Hmv _].
  apply magnitude_value in Hmr, Hmv.
  change (2 * 3 + 2)%Z with (2 * 4)%Z in Hmr.
  change (2 * 1 + 2)%Z with (2 * 2)%Z in Hmv.
  unfold length in *. cbn [fsqrt double] in *.
  set (r := rotate cos sin v angle) in *.
  fold (val (dot r r)) in Hmr. fold (val (dot v v)) in Hmv.
  set (A := val (dot r r)) in *. set (B := val (dot v v)) in *.
  assert (Hh : bpow (-1) = / 2).
  { unfold bpow. simpl. lra. }
  assert (HB : 0 < B).
  { destruct (Rlt_le_dec 0 B) as [|Hle]; [assumption|].
    rewrite (sqrt_of_nonpos _ Hle) in Hlen. lra. }
  assert (Hu : forall k : Z, (0 <= k)%Z -> bpow (k - 53) = IZR (2 ^ k) * ulp53)
    by exact bpow_ulp53.
  pose proof ulp53_pos as Hup.
  assert (H50 : bpow (2 - 52) = 8 * ulp53)
    by (replace (2 - 52)%Z with (3 - 53)%Z by lia;
        rewrite bpow_ulp53 by lia; reflexivity).
  assert (H48 : bpow (4 - 52) = 32 * ulp53)
    by (replace (4 - 52)%Z with (5 - 53)%Z by lia;
        rewrite bpow_ulp53 by lia; reflexivity).
  assert (H42 : bpow (-42) = 2048 * ulp53)
    by (replace (-42)%Z with (11 - 53)%Z by lia;
        rewrite bpow_ulp53 by lia; reflexivity).
  assert (H39 : bpow (-39) = 16384 * ulp53)
    by (replace (-39)%Z with (14 - 53)%Z by lia;
        rewrite bpow_ulp53 by lia; reflexivity).
  assert (Hsmall : 1048576 * ulp53 <= / 1024).
  { unfold ulp53. replace 1048576 with (bpow 20) by (unfold bpow; simpl; lra).
    rewrite <- bpow_add.
    replace (/ 1024) with (bpow (-10)) by (unfold bpow; simpl; lra).
    apply bpow_le. lia. }
  apply Rabs_bound in Hmr, Hmv.
  pose proof (sqrt_error (dot v v) 2 HB (proj2 Hmv) ltac:(lia)) as HeB.
  fold B in HeB. rewrite H50 in HeB.
  assert (HsB : / 4 <= sqrt B).
  { apply Rabs_bound in HeB. lra. }
  assert (HA : 0 < A).
  { assert (/ 16 <= B).
    { rewrite <- (sqrt_sqrt B) by lra. nra. }
    pose proof (Rabs_bound _ _ Hsq) as Hsq'. rewrite H42 in Hsq'. lra. }
  pose proof (sqrt_error (dot r r) 4 HA (proj2 Hmr) ltac:(lia)) as HeA.
  fold A in HeA. rewrite H48 in HeA.
  pose proof (sqrt_close A B _ ltac:(lra) HsB ltac:(lra) Hsq) as Hc.
  rewrite H42 in Hc. rewrite H39.
  apply Rabs_bound in HeA, HeB, Hc. apply Rabs_le. lra.
Qed.

End RotateLength.

(** ** Binary64: the rotation by the angle 0 *)

Section RotateZero.

Local Open Scope Z_scope.

(** Multiplying by 1 is exact. *)
Lemma SFmul_one (x : spec_float) :
  SpecFloat.valid_binary prec emax x = true ->
  SFmul prec emax (S754_finite false 4503599627370496 (-52)) x = x.
Proof.
  intros Hv. destruct x as [s | s | | s m e]; try reflexivity.
  cbn [SpecFloat.valid_binary] in Hv. cbn [SFmul xorb].
  pose proof (bounded_canonical m e Hv) as Hcan.
  assert (He : e <= 971).
  { unfold SpecFloat.bounded in Hv. apply andb_true_iff in Hv.
    destruct Hv as [_ Hv]. apply Z.leb_le in Hv. exact Hv. }
  assert (Hp : Z.pos (4503599627370496 * m) = Z.pos m * 2 ^ 52)
    by (rewrite Pos2Z.inj_mul; change (2 ^ 52) with 4503599627370496; lia).
  pose proof (Zdigits2_shift m 52 _ ltac:(lia) Hp) as Hd.
  assert (Hg : fexp prec emax (Zdigits2 (Z.pos (4503599627370496 * m))
                               + (-52 + e)) = e).
  { rewrite fexp_eq, Hd. lia. }
  destruct (round_aux_spec s (4503599627370496 * m) (-52 + e))
    as [m' [e' [Hr [Hge [HR [Hb Hn]]]]]]; [rewrite Hg; lia|].
  rewrite Hg in Hge, HR. rewrite Hr.
  replace (e - (-52 + e)) with (0 + 52) in HR by lia.
  rewrite Hp, rne_scale, rne_0 in HR by lia.
  pose proof (Zdigits2_bounds m) as [_ Hhi].
  assert (Hm53 : Z.pos m < 2 ^ 53).
  { assert (2 ^ Zdigits2 (Z.pos m) <= 2 ^ 53)
      by (apply Z.pow_le_mono_r; lia). lia. }
  assert (Hee : e' = e).
  { destruct (Z.eq_dec e' e) as [|Hne]; [assumption|].
    assert (He' : -1074 < e') by lia. specialize (Hn He').
    assert (2 <= 2 ^ (e' - e)).
    { change 2 with (2 ^ 1) at 1. apply Z.pow_le_mono_r; lia. }
    nia. }
  subst e'. rewrite Z.sub_diag, Z.pow_0_r, Z.mul_1_r in HR. subst m'.
  cbn [rounded]. change (emax - prec) with 971.
  destruct (Z.leb_spec e 971); [reflexivity | lia].
Qed.

Lemma mul_one (x : float) : PrimFloat.mul 1 x = x.
Proof.
  apply Prim2SF_inj. rewrite mul_spec.
  change (Prim2SF 1) with (S754_finite false 4503599627370496 (-52)).
  apply SFmul_one. apply Prim2SF_valid.
Qed.

(** Zero times a number is a zero. *)
Lemma mul_zero (z x : float) :
  isZero z -> finite x -> isZero (PrimFloat.mul z x).
Proof.
  unfold isZero, finite. rewrite mul_spec.
  destruct (Prim2SF z) as [sz | | |]; try contradiction. intros _.
  destruct (Prim2SF x) as [s | s | | s m e]; try contradiction; intros _;
    exact I.
Qed.

(** Adding or subtracting a zero keeps a number that is not a zero, and
    keeps a zero a zero. *)
Lemma add_zero_r (x z : float) :
  isZero z ->
  (isZero x -> isZero (PrimFloat.add x z))
  /\ (~ isZero x -> PrimFloat.add x z = x).
Proof.
  unfold isZero. intros Hz. split.
  - rewrite add_spec.
    destruct (Prim2SF z) as [sz | | |]; try contradiction.
    destruct (Prim2SF x) as [sx | | |]; try contradiction. intros _.
    unfold SF64add. cbn [SFadd]. destruct sx, sz; exact I.
  - intros Hx. apply Prim2SF_inj. rewrite add_spec.
    destruct (Prim2SF z) as [sz | | |]; try contradiction.
    destruct (Prim2SF x) as [sx | sx | | sx mx ex]; try reflexivity.
    exfalso. apply Hx. exact I.
Qed.

Lemma add_zero_l (z x : float) :
  isZero z ->
  (isZero x -> isZero (PrimFloat.add z x))
  /\ (~ isZero x -> PrimFloat.add z x = x).
Proof.
  unfold isZero. intros Hz. split.
  - rewrite add_spec.
    destruct (Prim2SF z) as [sz | | |]; try contradiction.
    destruct (Prim2SF x) as [sx | | |]; try contradiction. intros _.
    unfold SF64add. cbn [SFadd]. destruct sx, sz; exact I.
  - intros Hx. apply Prim2SF_inj. rewrite add_spec.
    destruct (Prim2SF z) as [sz | | |]; try contradiction.
    destruct (Prim2SF x) as [sx | sx | | sx mx ex]; try reflexivity.
    exfalso. apply Hx. exact I.
Qed.

Lemma sub_zero_r (x z : float) :
  isZero z ->
  (isZero x -> isZero (PrimFloat.sub x z))
  /\ (~ isZero x -> PrimFloat.sub x z = x).
Proof.
  unfold isZero. intros Hz. split.
  - rewrite sub_spec.
    destruct (Prim2SF z) as [sz | | |]; try contradiction.
    destruct (Prim2SF x) as [sx | | |]; try contradiction. intros _.
    unfold SF64sub. cbn [SFsub]. destruct sx, sz; exact I.
  - intros Hx. apply Prim2SF_inj. rewrite sub_spec.
    destruct (Prim2SF z) as [sz | | |]; try contradiction.
    destruct (Prim2SF x) as [sx | sx | | sx mx ex]; try reflexivity.
    exfalso. apply Hx. exact I.
Qed.

Lemma opp_zero (z : float) : isZero z -> isZero (PrimFloat.opp z).
Proof.
  unfold isZero. rewrite opp_spec.
  destruct (Prim2SF z); try contradiction. intros _. exact I.
Qed.

Lemma isZero_finite (x : float) : isZero x -> finite x.
Proof. unfold isZero, finite. destruct (Prim2SF x); tauto. Qed.

Lemma isZero_dec (x : float) : isZero x \/ ~ isZero x.
Proof. unfold isZero. destruct (Prim2SF x); tauto. Qed.

Variables cos sin : float -> float.

Hypothesis cos_0 : cos 0%float = 1%float.
Hypothesis sin_0 : isZero (sin 0%float).

Lemma rotate_zero (v : Vec3 float) :
  finite (vx v) -> finite (vy v) -> finite (vz v) ->
  sameNumber (vx (rotate cos sin v 0%float)) (vx v)
  /\ sameNumber (vy (rotate cos sin v 0%float)) (vy v)
  /\ sameNumber (vz (rotate cos sin v 0%float)) (vz v).
Proof.
  intros Fx Fy Fz. unfold rotate.
  cbn [vx vy vz fadd fsub fmul fneg double lit_0_5].
  assert (Hh : PrimFloat.mul 0 0.5 = 0%float) by reflexivity.
  rewrite Hh, cos_0, !mul_one.
  set (s := sin 0%float) in *.
  pose proof (mul_zero s (vz v) sin_0 Fz) as Hsz.
  pose proof (mul_zero (PrimFloat.opp s) (vx v) (opp_zero s sin_0) Fx)
    as Hsx.
  pose proof (mul_zero s (vy v) sin_0 Fy) as Hsy.
  set (z1 := PrimFloat.add (PrimFloat.mul (PrimFloat.opp s) (vx v)) (vz v)).
  assert (Hz1 : sameNumber z1 (vz v)).
  { unfold sameNumber, z1. apply add_zero_l. exact Hsx. }
  assert (Fz1 : finite z1).
  { destruct Hz1 as [H0 H1]. destruct (isZero_dec (vz v)) as [Hz | Hz].
    - apply isZero_finite. now apply H0.
    - now rewrite (H1 Hz). }
  pose proof (mul_zero s z1 sin_0 Fz1) as Hsz1.
  split; [|split].
  - unfold sameNumber. apply add_zero_r. exact Hsz.
  - unfold sameNumber. apply sub_zero_r. exact Hsz1.
  - destruct Hz1 as [H0 H1]. unfold sameNumber.
    destruct (add_zero_l _ z1 Hsy) as [A0 A1]. split.
    + intros Hz. apply A0. now apply H0.
    + intros Hz. rewrite A1; [exact (H1 Hz)|]. rewrite (H1 Hz). exact Hz.
Qed.

End RotateZero.

(** ** Binary64: [normalize] and the rays *)

Section Normalize.

Local Open Scope R_scope.

Lemma val_pos_finite (x : float) :
  0 < val x -> exists m e, Prim2SF x = S754_finite false m e.
Proof.
  unfold val. destruct (Prim2SF x) as [s | s | | [|] m e]; cbn [SF2R];
    try lra.
  - pose proof (F2R_nonneg m e). lra.
  - intros _. now exists m, e.
Qed.

(** A double that stands for a positive number is above zero, and not
    below a double that stands for a smaller number. *)
Lemma ltb_zero_of_val (x : float) :
  0 < val x -> PrimFloat.ltb 0 x = true.
Proof.
  intros H. destruct (val_pos_finite x H) as [m [e Hx]].
  rewrite ltb_spec, Hx. reflexivity.
Qed.

Lemma ltb_false_of_val (a b : float) :
  0 < val b -> val b <= val a -> PrimFloat.ltb a b = false.
Proof.
  intros Hb Hab.
  destruct (val_pos_finite b Hb) as [mb [eb Eb]].
  destruct (val_pos_finite a ltac:(lra)) as [ma [ea Ea]].
  pose proof (Prim2SF_valid a) as Hva. pose proof (Prim2SF_valid b) as Hvb.
  unfold valid_binary in Hva, Hvb. rewrite Ea in Hva. rewrite Eb in Hvb.
  cbn [SpecFloat.valid_binary] in Hva, Hvb.
  unfold val in Hab. rewrite Ea, Eb in Hab. cbn [SF2R] in Hab.
  rewrite ltb_spec, Ea, Eb.
  destruct (SFltb (S754_finite false ma ea) (S754_finite false mb eb))
    eqn:Hlt; [|reflexivity].
  apply (SFltb_value ma mb ea eb Hva Hvb) in Hlt. lra.
Qed.

Lemma val_TOL : 0 < val TOL < / 4.
Proof.
  unfold val.
  replace (Prim2SF TOL)
    with (S754_finite false 4722366482869645 (-72)) by reflexivity.
  cbn [SF2R].
  pose proof (F2R_digits 4722366482869645 (-72)) as [Hlo Hhi].
  replace (Zdigits2 (Z.pos 4722366482869645)) with 53%Z in *
    by reflexivity.
  pose proof (bpow_pos (53 - 1 + -72)).
  assert (bpow (53 + -72) <= bpow (-2)) by (apply bpow_le; lia).
  replace (bpow (-2)) with (/ 4) in * by (unfold bpow; simpl; lra).
  lra.
Qed.

Lemma magnitude_of_val (x : float) (k : Z) :
  finite_nonneg (SFabs (Prim2SF x)) -> Rabs (val x) <= bpow k ->
  magnitude k (Prim2SF x).
Proof.
  intros Hf Hv. split; [exact Hf|]. rewrite SF2R_abs. exact Hv.
Qed.

(** A component divided by the length. *)
Lemma div_by_length (x len : float) :
  magnitude 3 (Prim2SF x) -> / 4 <= val len ->
  Rabs (val x) <= 3 / 2 * val len ->
  approx 1 4 (PrimFloat.div x len) (val x / val len).
Proof.
  intros Hx HL Hr.
  assert (HL0 : 0 < val len) by lra.
  assert (Hq : Rabs (val x / val len) <= 3 / 2).
  { unfold Rdiv. rewrite Rabs_mult, Rabs_inv, (Rabs_pos_eq (val len)) by lra.
    apply Rmult_le_reg_r with (val len); [exact HL0|].
    rewrite Rmult_assoc, Rinv_l, Rmult_1_r by lra. exact Hr. }
  destruct (div_error x len 1) as [Hf He]; try lia.
  - apply Hx.
  - lra.
  - rewrite (Rabs_pos_eq (val len)) by lra.
    replace (bpow 1) with 2 by (unfold bpow; simpl; lra). lra.
  - assert (H4 : bpow (1 - 52) = 4 * ulp53).
    { replace (1 - 52)%Z with (2 - 53)%Z by lia.
      rewrite bpow_ulp53 by lia. reflexivity. }
    rewrite H4 in He.
    assert (Hu : 4 * ulp53 <= / 2).
    { rewrite <- H4. replace (/ 2) with (bpow (-1))
        by (unfold bpow; simpl; lra). apply bpow_le. lia. }
    assert (H2 : bpow 1 = 2) by (unfold bpow; simpl; lra).
    split; [|split].
    + apply magnitude_of_val; [exact Hf|]. rewrite H2.
      apply Rabs_bound in He, Hq. apply Rabs_le. lra.
    + exact He.
    + rewrite H2. lra.
Qed.

(** The sum of squares of a vector with components of magnitude at most
    8, and its square root. *)
Lemma dot_self_error (v : Vec3 float) :
  within 8 v ->
  Rabs (val (dot v v)
        - (val (vx v) * val (vx v) + val (vy v) * val (vy v)
           + val (vz v) * val (vz v))) <= 576 * ulp53
  /\ val (dot v v) <= 256.
Proof.
  intros Hv.
  destruct (approx_vec 8 v 3 3 0 eq_refl Hv ltac:(lia) ltac:(lia))
    as [Hx [Hy Hz]].
  pose proof (approx_dot_self 3 0 v _ _ _ Hx Hy Hz
                ltac:(lia) ltac:(lia) ltac:(lia)) as [Hm [He _]].
  match type of He with
  | _ <= IZR ?n * _ => let n' := eval vm_compute in n in change n with n' in He
  end.
  apply magnitude_value in Hm. fold (val (dot v v)) in Hm.
  assert (H256 : bpow (2 * 3 + 2) = 256) by (unfold bpow; simpl; lra).
  rewrite H256 in Hm. apply Rabs_bound in Hm.
  split; [exact He | lra].
Qed.

Lemma length_error (v : Vec3 float) :
  0 < val (dot v v) -> val (dot v v) <= 256 ->
  Rabs (val (length v) - sqrt (val (dot v v))) <= 32 * ulp53.
Proof.
  intros HD H256.
  assert (Hb : bpow (2 * 4) = 256) by (unfold bpow; simpl; lra).
  rewrite <- Hb in H256.
  pose proof (sqrt_error (dot v v) 4 HD H256 ltac:(lia)) as Hs.
  assert (H32 : bpow (4 - 52) = 32 * ulp53).
  { replace (4 - 52)%Z with (5 - 53)%Z by lia.
    rewrite bpow_ulp53 by lia. reflexivity. }
  rewrite H32 in Hs. exact Hs.
Qed.

Lemma length_positive (v : Vec3 float) :
  0 < val (length v) -> 0 < val (dot v v).
Proof.
  intros HL. destruct (Rlt_le_dec 0 (val (dot v v))) as [|Hle]; [assumption|].
  unfold length in HL. cbn [fsqrt double] in HL.
  rewrite (sqrt_of_nonpos _ Hle) in HL. lra.
Qed.

Lemma ulp53_small : 65536 * ulp53 <= / 1048576.
Proof.
  unfold ulp53. replace 65536 with (bpow 16) by (unfold bpow; simpl; lra).
  rewrite <- bpow_add.
  replace (/ 1048576) with (bpow (-20)) by (unfold bpow; simpl; lra).
  apply bpow_le. lia.
Qed.

(** The real numbers behind [normalize]: with [D] close to the sum of
    squares [S] and [L] close to the square root of [D]. *)
Lemma unit_analysis (x y z D L : R) :
  let S := x * x + y * y + z * z in
  0 < D -> D <= 256 -> / 4 <= L ->
  Rabs (D - S) <= 576 * ulp53 ->
  Rabs (L - sqrt D) <= 32 * ulp53 ->
  (Rabs x <= 3 / 2 * L /\ Rabs y <= 3 / 2 * L /\ Rabs z <= 3 / 2 * L)
  /\ Rabs (x / L * (x / L) + y / L * (y / L) + z / L * (z / L) - 1)
     <= 27136 * ulp53.
Proof.
  intros S HD HD256 HL HeD HeL.
  pose proof ulp53_pos as Hu. pose proof ulp53_small as Hus.
  pose proof (sqrt_sqrt D ltac:(lra)) as Hsq.
  pose proof (sqrt_pos D) as Hr0.
  assert (Hr16 : sqrt D <= 16).
  { rewrite <- (sqrt_square 16) by lra. apply sqrt_le_1_alt. lra. }
  set (r := sqrt D) in *.
  apply Rabs_bound in HeD, HeL.
  assert (HSL : Rabs (S - L * L) <= 1696 * ulp53).
  { apply Rabs_le.
    replace (S - L * L) with ((S - D) + (r - L) * (r + L))
      by (rewrite <- Hsq; ring).
    assert (H1 : - (32 * ulp53) * 35 <= (r - L) * (r + L)
                 <= 32 * ulp53 * 35).
    { assert (0 <= r + L <= 35) by lra.
      split; nra. }
    lra. }
  assert (HL2 : / 16 <= L * L) by nra.
  assert (HS : S <= 9 / 4 * (L * L)).
  { apply Rabs_bound in HSL. lra. }
  assert (Hcomp : forall t : R, t * t <= S -> Rabs t <= 3 / 2 * L).
  { intros t Ht. apply Rabs_le.
    assert (t * t <= (3 / 2 * L) * (3 / 2 * L)) by lra.
    split; nra. }
  split.
  { unfold S in *. split; [|split]; apply Hcomp; nra. }
  assert (HL0 : L <> 0) by lra.
  replace (x / L * (x / L) + y / L * (y / L) + z / L * (z / L) - 1)
    with ((S - L * L) * / (L * L)) by (unfold S; field; exact HL0).
  rewrite Rabs_mult, (Rabs_pos_eq (/ (L * L)))
    by (apply Rlt_le, Rinv_0_lt_compat; lra).
  assert (Hinv : / (L * L) <= 16).
  { rewrite <- (Rinv_inv 16). apply Rinv_le_contravar; lra. }
  assert (0 < / (L * L)) by (apply Rinv_0_lt_compat; lra).
  pose proof (Rabs_pos (S - L * L)).
  replace (27136 * ulp53) with (1696 * ulp53 * 16) by ring.
  apply Rmult_le_compat; lra.
Qed.

(** A vector with a component of magnitude at least 1 is not short. *)
Lemma length_lower (v : Vec3 float) :
  within 8 v -> 1 <= Rabs (val (vz v)) ->
  / 4 <= val (length v) <= 17.
Proof.
  intros Hv Hz. destruct (dot_self_error v Hv) as [HeD HD256].
  pose proof ulp53_pos as Hu. pose proof ulp53_small as Hus.
  apply Rabs_bound in HeD.
  assert (Hzz : 1 <= val (vz v) * val (vz v)).
  { unfold Rabs in Hz. destruct (Rcase_abs (val (vz v))); nra. }
  assert (HD : / 4 <= val (dot v v)).
  { pose proof (Rle_0_sqr (val (vx v))). pose proof (Rle_0_sqr (val (vy v))).
    unfold Rsqr in *. lra. }
  pose proof (length_error v ltac:(lra) HD256) as HeL.
  apply Rabs_bound in HeL.
  assert (Hr : / 2 <= sqrt (val (dot v v)) <= 16).
  { split.
    - rewrite <- (sqrt_square (/ 2)) by lra. apply sqrt_le_1_alt. lra.
    - rewrite <- (sqrt_square 16) by lra. apply sqrt_le_1_alt. lra. }
  lra.
Qed.

(** [normalize] in binary64: the result is a unit vector up to rounding,
    for a vector with components of magnitude at most 8 and a length of
    at least 1/4. *)
Lemma normalize_error (v : Vec3 float) :
  within 8 v -> / 4 <= val (length v) ->
  let L := val (length v) in
  normalize v
  = mkVec3 (PrimFloat.div (vx v) (length v))
      (PrimFloat.div (vy v) (length v))
      (PrimFloat.div (vz v) (length v))
  /\ (approx 1 4 (vx (normalize v)) (val (vx v) / L)
      /\ approx 1 4 (vy (normalize v)) (val (vy v) / L)
      /\ approx 1 4 (vz (normalize v)) (val (vz v) / L))
  /\ magnitude 4 (Prim2SF (dot (normalize v) (normalize v)))
  /\ Rabs (val (dot (normalize v) (normalize v)) - 1) <= bpow (-38)
  /\ Rabs (val (length (normalize v)) - 1) <= bpow (-37).
Proof.
  intros Hv HL L.
  assert (Hbranch : normalize v
                    = mkVec3 (PrimFloat.div (vx v) (length v))
                        (PrimFloat.div (vy v) (length v))
                        (PrimFloat.div (vz v) (length v))).
  { unfold normalize. cbn [flt fdiv double].
    rewrite (ltb_false_of_val (length v) TOL); [reflexivity | |].
    - apply val_TOL.
    - pose proof val_TOL. lra. }
  pose proof (length_positive v ltac:(lra)) as HD.
  destruct (dot_self_error v Hv) as [HeD HD256].
  pose proof (length_error v HD HD256) as HeL.
  destruct (unit_analysis (val (vx v)) (val (vy v)) (val (vz v))
              (val (dot v v)) L HD HD256 HL HeD HeL)
    as [[Rx [Ry Rz]] Hunit].
  pose proof (within_magnitude 8 v 3 eq_refl Hv) as [Mx [My Mz]].
  pose proof (div_by_length (vx v) (length v) Mx HL Rx) as Ax.
  pose proof (div_by_length (vy v) (length v) My HL Ry) as Ay.
  pose proof (div_by_length (vz v) (length v) Mz HL Rz) as Az.
  rewrite Hbranch. cbn [vx vy vz]. fold L in Ax, Ay, Az.
  set (n := mkVec3 (PrimFloat.div (vx v) (length v))
              (PrimFloat.div (vy v) (length v))
              (PrimFloat.div (vz v) (length v))).
  split; [reflexivity|]. split; [exact (conj Ax (conj Ay Az))|].
  pose proof (approx_dot_self 1 4 n _ _ _ Ax Ay Az
                ltac:(lia) ltac:(lia) ltac:(lia)) as [Hm [He _]].
  match type of He with
  | _ <= IZR ?k * _ => let k' := eval vm_compute in k in change k with k' in He
  end.
  split; [exact Hm|].
  pose proof ulp53_pos as Hu. pose proof ulp53_small as Hus.
  assert (H38 : bpow (-38) = 32768 * ulp53).
  { replace (-38)%Z with (15 - 53)%Z by lia. rewrite bpow_ulp53 by lia.
    reflexivity. }
  assert (H37 : bpow (-37) = 65536 * ulp53).
  { replace (-37)%Z with (16 - 53)%Z by lia. rewrite bpow_ulp53 by lia.
    reflexivity. }
  assert (HA : Rabs (val (dot n n) - 1) <= 27220 * ulp53).
  { apply Rabs_bound in He, Hunit. apply Rabs_le. lra. }
  split; [rewrite H38; lra|].
  set (A := val (dot n n)) in *.
  apply Rabs_bound in HA.
  assert (HA0 : 0 < A) by lra.
  pose proof (sqrt_error (dot n n) 1 HA0) as Hs. fold A in Hs.
  assert (H4 : bpow (2 * 1) = 4) by (unfold bpow; simpl; lra).
  rewrite H4 in Hs. specialize (Hs ltac:(lra) ltac:(lia)).
  assert (H51 : bpow (1 - 52) = 4 * ulp53).
  { replace (1 - 52)%Z with (2 - 53)%Z by lia.
    rewrite bpow_ulp53 by lia. reflexivity. }
  rewrite H51 in Hs. apply Rabs_bound in Hs.
  pose proof (sqrt_sqrt A ltac:(lra)) as Hsq.
  pose proof (sqrt_pos A) as Hr0.
  unfold length. cbn [fsqrt double]. fold A.
  set (r := sqrt A) in *.
  assert (Hr : - (27220 * ulp53) <= r - 1 <= 27220 * ulp53).
  { split; nra. }
  rewrite H37. apply Rabs_le. lra.
Qed.

End Normalize.

Section Rays.

Local Open Scope R_scope.

(** The vector that [rayDir] normalizes, for a pixel of the window. *)
Lemma rayDir_input (x y : Z) :
  (0 <= x < WINDOW_WIDTH)%Z -> (0 <= y < WINDOW_HEIGHT)%Z ->
  within 8
    (mkVec3 (PrimFloat.div (PrimFloat.sub (of_int x) halfWidth) scaleFactor)
       (PrimFloat.div (PrimFloat.sub halfHeight (of_int y)) scaleFactor)
       (of_int 5)).
Proof.
  intros Hx Hy.
  assert (HX : forallb
                 (fun x => PrimFloat.leb
                             (PrimFloat.abs
                                (PrimFloat.div
                                   (PrimFloat.sub (of_int x) halfWidth)
                                   scaleFactor)) 8)
                 (range 0 WINDOW_WIDTH) = true) by (vm_compute; reflexivity).
  assert (HY : forallb
                 (fun y => PrimFloat.leb
                             (PrimFloat.abs
                                (PrimFloat.div
                                   (PrimFloat.sub halfHeight (of_int y))
                                   scaleFactor)) 8)
                 (range 0 WINDOW_HEIGHT) = true) by (vm_compute; reflexivity).
  split; [|split]; cbn [vx vy vz].
  - apply (proj1 (forallb_forall _ _) HX). now apply In_range.
  - apply (proj1 (forallb_forall _ _) HY). now apply In_range.
  - vm_compute. reflexivity.
Qed.

Lemma val_5 : val (of_int 5) = 5.
Proof.
  unfold val.
  replace (Prim2SF (of_int 5))
    with (S754_finite false 5629499534213120 (-50)) by reflexivity.
  cbn [SF2R]. unfold F2R.
  replace (bpow (-50)) with (/ IZR (2 ^ 50)).
  - change (2 ^ 50)%Z with 1125899906842624%Z. lra.
  - rewrite <- (bpow_IZR 50) by lia. unfold bpow.
    symmetry. apply (powerRZ_neg' 2 50).
Qed.

(** The ray through a pixel of the window. *)
Lemma rayDir_unit (x y : Z) :
  (0 <= x < WINDOW_WIDTH)%Z -> (0 <= y < WINDOW_HEIGHT)%Z ->
  within 2 (rayDir x y)
  /\ PrimFloat.ltb 0 (vz (rayDir x y)) = true
  /\ Rabs (val (dot (rayDir x y) (rayDir x y)) - 1) <= bpow (-38)
  /\ Rabs (val (length (rayDir x y)) - 1) <= bpow (-37).
Proof.
  intros Hx Hy. unfold rayDir. cbn [fsub fdiv double].
  pose proof (rayDir_input x y Hx Hy) as Hw.
  set (w := mkVec3
              (PrimFloat.div (PrimFloat.sub (of_int x) halfWidth) scaleFactor)
              (PrimFloat.div (PrimFloat.sub halfHeight (of_int y))
                 scaleFactor)
              (of_int 5)) in *.
  assert (Hz : val (vz w) = 5) by apply val_5.
  destruct (length_lower w Hw) as [HL HL17].
  { rewrite Hz, Rabs_pos_eq; lra. }
  destruct (normalize_error w Hw HL)
    as [_ [[Ax [Ay Az]] [_ [Hd Hl]]]]. cbv zeta in Ax, Ay, Az.
  split; [|split; [|split; [exact Hd | exact Hl]]].
  - split; [|split]; apply (leb_of_mag _ 2%float 1);
      try reflexivity; [apply Ax | apply Ay | apply Az].
  - apply ltb_zero_of_val. destruct Az as [_ [He _]].
    rewrite Hz in He. apply Rabs_bound in He.
    pose proof ulp53_pos as Hu. pose proof ulp53_small as Hus.
    assert (/ 4 <= 5 / val (length w)).
    { unfold Rdiv. apply Rmult_le_reg_r with (val (length w)); [lra|].
      rewrite Rmult_assoc, Rinv_l, Rmult_1_r by lra. lra. }
    lra.
Qed.

End Rays.

(** ** The extractor on the dodecahedron *)

(** C1: for the 20 dodecahedron vertices of the golden-ratio construction
    scaled by 0.5, [computeBasePlanes] returns exactly 12 planes; the normal
    of each has length within 1e-6 of 1, and each satisfies
    [dot(n, p) <= d + 1e-6] for each of the 20 points.  The two tests hold
    as binary64 computes them and for the exact values of the doubles. *)
Theorem dodecahedron_has_12_planes (basePlanes : array (Plane float)) :
  List.length (scaledVertices (num := float)) = 20%nat
  /\ snd (mainBasePlanes basePlanes) = 12%Z
  /\ Forall
       (fun q : Plane float =>
          flt (fabs (fsub (length (pn q)) (of_int 1))) lit_1e_6 = true
          /\ Forall
               (fun p : Vec3 float =>
                  fle (dot (pn q) p) (fadd (pd q) lit_1e_6) = true)
               scaledVertices)
       (map (fst (mainBasePlanes basePlanes))
            (range 0 (snd (mainBasePlanes basePlanes))))
  /\ Forall
       (fun q : Plane float =>
          exactUnit q /\ Forall (exactInside q) scaledVertices)
       (map (fst (mainBasePlanes basePlanes))
            (range 0 (snd (mainBasePlanes basePlanes)))).
Proof.
  split; [reflexivity|]. split; [vm_compute; reflexivity|].
  split; [|apply dodecahedron_planes_exact].
  apply (Forall_checked
           (fun q : Plane float =>
              flt (fabs (fsub (length (pn q)) (of_int 1))) lit_1e_6)
           (fun (q : Plane float) (p : Vec3 float) =>
              fle (dot (pn q) p) (fadd (pd q) lit_1e_6))).
  vm_compute. reflexivity.
Qed.

(** C4: whatever the points, no two distinct planes that
    [computeBasePlanes] returns are duplicates under the tolerance of the
    scan: it is not the case that the dot product of their normals is
    within 1e-3 of 1 while their offsets differ by less than 1e-3.  In
    every arithmetic this holds of each pair with the earlier plane first,
    as the scan compares them; in binary64 and in exact arithmetic the test
    is symmetric and it holds of any two distinct planes. *)
Theorem computeBasePlanes_no_duplicates :
  (forall (num : Type) (D : Double num) (vertices : array (Vec3 num))
          (numVertices : Z) (planes : array (Plane num)) (maxPlanes : Z),
     noDuplicatesInOrder
       (computeBasePlanes vertices numVertices planes maxPlanes))
  /\ (forall (vertices : array (Vec3 float)) (numVertices : Z)
             (planes : array (Plane float)) (maxPlanes : Z),
        noDuplicates
          (computeBasePlanes vertices numVertices planes maxPlanes))
  /\ (forall (vertices : array (Vec3 R)) (numVertices : Z)
             (planes : array (Plane R)) (maxPlanes : Z),
        noDuplicates
          (computeBasePlanes vertices numVertices planes maxPlanes)).
Proof.
  split; [|split]; intros.
  - apply computeBasePlanes_scan.
  - apply noDuplicates_of_symmetric;
      [apply isDuplicate_sym_binary64 | apply computeBasePlanes_scan].
  - apply noDuplicates_of_symmetric;
      [apply isDuplicate_sym_exact | apply computeBasePlanes_scan].
Qed.

(** ** The shading *)

(** C3: the 8-bit intensity that the program computes in binary64 from
    [diff = dot(normal, lightDir)], clamped below at 0, scaled by 255, cast
    to [int] and clamped above at 255.

    - It does not decrease when [dot(normal, lightDir)] grows: if the
      intensity of [n2] is defined and the dot product of [n1] is at most
      that of [n2], the intensity of [n1] is defined and at most that of
      [n2].
    - It lies in [[0, 255]] whenever the cast is defined.
    - The cast is defined exactly when the dot product is a number up to
      [shadeMax], about 8421504.5; this holds for every normal whose
      components are at most [2^20] in magnitude, so for every unit
      normal.
    - It is 0 whenever the dot product is not above zero; this holds for
      every normal in the octant opposite to the light ([x <= 0],
      [y <= 0], [z >= 0]), so for every normal anti-parallel to the light,
      and for [lightDir] scaled by any negative factor.
    - For the surface normal of every pixel of a frame the cast is defined
      and the intensity lies in [[0, 255]]: the normal is [(0, 0, 1)] or
      the normal of a rotated plane, when the base normals have components
      of magnitude at most 2 and the values of [cos] and [sin] are at most
      1 in magnitude. *)
Theorem shading_monotone_clamped :
  (forall (n1 n2 : Vec3 float) (c2 : Z),
     fle (dot n1 lightDir) (dot n2 lightDir) = true ->
     intensity n2 = Some c2 ->
     exists c1, intensity n1 = Some c1 /\ (c1 <= c2)%Z)
  /\ (forall (n : Vec3 float) (c : Z),
        intensity n = Some c -> (0 <= c <= 255)%Z)
  /\ (forall n : Vec3 float,
        intensity n <> None <-> fle (dot n lightDir) shadeMax = true)
  /\ (forall n : Vec3 float,
        within 1048576 n ->
        exists c, intensity n = Some c /\ (0 <= c <= 255)%Z)
  /\ (forall n : Vec3 float,
        fle (dot n lightDir) (of_int 0) = true -> intensity n = Some 0%Z)
  /\ (forall n : Vec3 float,
        fle (vx n) (of_int 0) = true -> fle (vy n) (of_int 0) = true ->
        fle (of_int 0) (vz n) = true -> intensity n = Some 0%Z)
  /\ (forall k : float,
        flt k (of_int 0) = true -> intensity (scale lightDir k) = Some 0%Z)
  /\ (forall (cos sin : float -> float) (basePlanes : array (Plane float))
        (numPlanes : Z) (angle : float)
        (rotatedPlanes : array (Plane float)) (dir : Vec3 float),
        (forall a, fle (fabs (cos a)) (of_int 1) = true
                   /\ fle (fabs (sin a)) (of_int 1) = true) ->
        (forall i, (0 <= i < numPlanes)%Z -> within 2 (pn (basePlanes i))) ->
        exists c,
          intensity
            (surfNormal
               (rotatePlanes cos sin basePlanes numPlanes angle
                  rotatedPlanes)
               (slabLoop
                  (rotatePlanes cos sin basePlanes numPlanes angle
                     rotatedPlanes)
                  numPlanes dir))
          = Some c
          /\ (0 <= c <= 255)%Z).
Proof.
  assert (Hzero : forall n : Vec3 float,
            PrimFloat.leb (dot n lightDir) 0 = true ->
            intensity n = Some 0%Z).
  { intros n Hn. rewrite intensity_shade. now apply shade_nonpos. }
  assert (Hoct : forall n : Vec3 float,
            PrimFloat.leb (vx n) 0 = true -> PrimFloat.leb (vy n) 0 = true ->
            PrimFloat.leb 0 (vz n) = true -> intensity n = Some 0%Z).
  { intros n Hx Hy Hz. apply Hzero. now apply dot_against_light. }
  split; [|split; [|split; [|split; [|split; [|split; [|split]]]]]].
  - intros n1 n2 c2 Hle H2. rewrite intensity_shade in *.
    destruct (shade_mono _ _ c2 Hle H2) as [c1 [H1 Hc]].
    exists c1. split; [exact H1 | lia].
  - exact intensity_range_binary64.
  - intros n. rewrite intensity_shade. apply shade_defined.
  - intros n Hn. apply intensity_of_bounded.
    now apply (within_magnitude 1048576 n 20).
  - exact Hzero.
  - exact Hoct.
  - intros k Hk. destruct (scaled_light_octant k Hk) as [Hx [Hy Hz]].
    now apply Hoct.
  - intros cos sin basePlanes numPlanes angle rotatedPlanes dir Hcs Hbase.
    now apply intensity_of_surfNormal.
Qed.

(** C9, as it holds of the program: in binary64 the rotation keeps the
    length up to rounding.  Let the values of [cos] and [sin] be at most 1
    in magnitude, with [cos^2 + sin^2] within [2^-50] of 1 (the values
    that glibc returns at 1 and at 0.5 are, see [libm_accurate]), and let
    each component of [v] be at most 2 in magnitude.  Then for every angle
    and [r = rotate v angle]:

    - the squared length [dot r r] is a finite number, at most [2^8],
      within [2^-42] of [dot v v];
    - when [length v] is at least 1/2, [length r] is within [2^-39] of
      [length v];
    - when [length v] is within [2^-39] of 1, [length r] is within [2^-38]
      of 1: a rotated plane normal is unit-length up to that error
      whenever the base normal is.

    The numbers compared are the real numbers that the doubles stand
    for. *)
Theorem rotate_preserves_length (cos sin : float -> float) (v : Vec3 float)
    (angle : float) :
  (forall a,
     fle (fabs (cos a)) (of_int 1) = true
     /\ fle (fabs (sin a)) (of_int 1) = true
     /\ (Rabs (val (cos a) * val (cos a) + val (sin a) * val (sin a) - 1)
         <= bpow (-50))%R) ->
  within 2 v ->
  magnitude 8 (Prim2SF (dot (rotate cos sin v angle) (rotate cos sin v angle)))
  /\ (Rabs (val (dot (rotate cos sin v angle) (rotate cos sin v angle))
            - val (dot v v)) <= bpow (-42))%R
  /\ ((bpow (-1) <= val (length v))%R ->
      (Rabs (val (length (rotate cos sin v angle)) - val (length v))
       <= bpow (-39))%R)
  /\ ((Rabs (val (length v) - 1) <= bpow (-39))%R ->
      (Rabs (val (length (rotate cos sin v angle)) - 1) <= bpow (-38))%R).
Proof.
  intros Hcs Hv.
  assert (Hin : forall a, PrimFloat.leb (PrimFloat.abs (cos a)) 1 = true
                          /\ PrimFloat.leb (PrimFloat.abs (sin a)) 1 = true)
    by (intros a; destruct (Hcs a) as [H1 [H2 _]]; now split).
  assert (Hon : forall a,
             (Rabs (val (cos a) * val (cos a) + val (sin a) * val (sin a)
                    - 1) <= bpow (-50))%R)
    by (intros a; apply Hcs).
  pose proof (rotate_length_close cos sin Hin Hon v angle Hv) as Hlen.
  split.
  { destruct (rotate_approx cos sin Hin v angle Hv) as [HX [HY HZ]].
    cbv zeta in HX, HY, HZ.
    exact (proj1 (approx_dot_self 3 22 _ _ _ _ HX HY HZ
                    ltac:(lia) ltac:(lia) ltac:(lia))). }
  split; [exact (rotate_squared_length cos sin Hin Hon v angle Hv)|].
  split; [exact Hlen|].
  intros H1.
  assert (H39 : (bpow (-39) <= / 4)%R).
  { replace (/ 4)%R with (bpow (-2)) by (unfold bpow; simpl; lra).
    apply bpow_le. lia. }
  assert (H38 : (bpow (-38) = 2 * bpow (-39))%R).
  { replace (-38)%Z with (1 + -39)%Z by lia. rewrite bpow_add.
    f_equal. unfold bpow. simpl. lra. }
  assert (Hh : (bpow (-1) = / 2)%R) by (unfold bpow; simpl; lra).
  pose proof (Rabs_bound _ _ H1) as H1'.
  specialize (Hlen ltac:(lra)).
  apply Rabs_bound in Hlen. apply Rabs_le. lra.
Qed.

(** ** The slab pass *)

(** C10: with zero planes the slab loop leaves [tNear] and [tFar] at their
    initial bounds, the miss test fails, and every ray is shaded as a hit
    with the fallback normal (0, 0, 1): the pixel is black, never the
    background colour.  This holds in binary64 and in exact arithmetic. *)
Theorem empty_plane_set_is_shaded :
  (forall (planes : array (Plane float)) (dir : Vec3 float),
     slabLoop planes 0 dir = slabInit
     /\ missed (slabLoop planes 0 dir) = false
     /\ surfNormal planes (slabLoop planes 0 dir)
          = mkVec3 (of_int 0) (of_int 0) (of_int 1)
     /\ tracePixel planes 0 dir = Some 0%Z
     /\ tracePixel planes 0 dir <> Some BACKGROUND
     /\ forall x y, renderPixel planes 0 x y = Some 0%Z)
  /\ (forall (planes : array (Plane R)) (dir : Vec3 R),
        slabLoop planes 0 dir = slabInit
        /\ missed (slabLoop planes 0 dir) = false
        /\ surfNormal planes (slabLoop planes 0 dir)
             = mkVec3 (of_int 0) (of_int 0) (of_int 1)
        /\ tracePixel planes 0 dir = Some 0%Z
        /\ tracePixel planes 0 dir <> Some BACKGROUND
        /\ forall x y, renderPixel planes 0 x y = Some 0%Z).
Proof.
  split; intros planes dir.
  - assert (H : forall d, tracePixel planes 0 d = Some 0%Z)
      by (intros d; vm_compute; reflexivity).
    rewrite H. repeat split; try discriminate; intros; apply H.
  - destruct (empty_plane_set_exact planes dir) as [H1 [H2 [H3 H4]]].
    rewrite H4.
    repeat split; try assumption; try discriminate;
      intros; apply empty_plane_set_exact.
Qed.

(** C6, as the code has it: at the start of the slab pass of a pixel
    [tNear] is [-1e9], [tFar] is [1e9] and no entering plane is recorded
    (index [-1]); the bounds are finite, so the initial interval is
    [[-1e9, 1e9]]. *)
Theorem slabInit_sentinels :
  (forall (num : Type) (D : Double num),
     slabInit (num := num)
       = mkSlab (fneg (of_int 1000000000)) (of_int 1000000000) (-1))
  /\ tNear (slabInit (num := float)) = (-1000000000)%float
  /\ tFar (slabInit (num := float)) = 1000000000%float
  /\ activePlaneIndex (slabInit (num := float)) = (-1)%Z
  /\ PrimFloat.ltb neg_infinity (tNear (slabInit (num := float))) = true
  /\ PrimFloat.ltb (tFar (slabInit (num := float))) infinity = true.
Proof. repeat split. Qed.

(** C6, as stated, fails: the bounds are not infinite, and it shows.  The
    ray [ahead] enters the half-space [farPlane] at the parameter [-2e9],
    below the initial [tNear], so the plane is not recorded and the pixel
    is shaded with the fallback normal (black) and not with the normal of
    the plane. *)
Lemma slabInit_not_infinite :
  tNear (slabInit (num := float)) <> neg_infinity
  /\ tFar (slabInit (num := float)) <> infinity
  /\ flt (denomOf (farPlane 0%Z) ahead) (of_int 0) = true
  /\ crossing (farPlane 0%Z) ahead = (-2000000000)%float
  /\ activePlaneIndex (slabLoop farPlane 1 ahead) = (-1)%Z
  /\ tracePixel farPlane 1 ahead = Some 0%Z
  /\ option_map packColor (intensity (pn (farPlane 0%Z))) = Some 9671571%Z.
Proof.
  split; [|split].
  - intros H. apply (f_equal Prim2SF) in H. vm_compute in H. discriminate.
  - intros H. apply (f_equal Prim2SF) in H. vm_compute in H. discriminate.
  - vm_compute. repeat split.
Qed.

(** C9, as stated, fails in binary64: with the values that [cos] and [sin]
    return at 1 and at 0.5, the vector (1, 1, 1) turned by the angle 1 is
    one unit in the last place longer than (1, 1, 1). *)
Lemma rotate_changes_length :
  length (rotate libm_cos libm_sin diagonal 1%float)
    = 0x1.bb67ae8584cabp+0%float
  /\ length diagonal = 0x1.bb67ae8584caap+0%float
  /\ PrimFloat.eqb (length (rotate libm_cos libm_sin diagonal 1%float))
       (length diagonal) = false
  /\ length (rotate libm_cos libm_sin diagonal 1%float) <> length diagonal.
Proof.
  split; [vm_compute; reflexivity|]. split; [vm_compute; reflexivity|].
  split; [vm_compute; reflexivity|].
  intros H. apply (f_equal Prim2SF) in H. vm_compute in H. discriminate.
Qed.

(** ** The theorems at concrete inputs *)

(** The vertex array of [main] with room for five planes only. *)
Lemma computeBasePlanes_capacity_witness :
  (0 <= snd (computeBasePlanes mainVertices 20 zeroPlanes 5) <= 5)%Z
  /\ (forall idx, (5 <= idx)%Z ->
        fst (computeBasePlanes mainVertices 20 zeroPlanes 5) idx
          = zeroPlanes idx).
Proof.
  split.
  - apply (computeBasePlanes_capacity mainVertices 20 zeroPlanes 5). lia.
  - apply (computeBasePlanes_capacity mainVertices 20 zeroPlanes 5). lia.
Defined.

(** The last and the first plane of the dodecahedron. *)
Lemma computeBasePlanes_no_duplicates_witness :
  isDuplicate (fst (computeBasePlanes mainVertices 20 zeroPlanes 30) 11%Z)
    (pn (fst (computeBasePlanes mainVertices 20 zeroPlanes 30) 0%Z))
    (pd (fst (computeBasePlanes mainVertices 20 zeroPlanes 30) 0%Z))
  = false.
Proof.
  refine (proj1 (proj2 computeBasePlanes_no_duplicates)
            mainVertices 20%Z zeroPlanes 30%Z 11%Z 0%Z _ _ _).
  - vm_compute. split; [discriminate | reflexivity].
  - vm_compute. split; [discriminate | reflexivity].
  - discriminate.
Defined.

(** A vector of length [2^-30]. *)
Lemma normalize_degenerate_witness :
  normalize (mkVec3 0x1p-30%float 0%float 0%float)
    = mkVec3 0x1p-30%float 0%float 0%float.
Proof. apply normalize_degenerate. vm_compute. reflexivity. Defined.

(** Entry 12 of the rotated array of twelve planes is left as it was. *)
Lemma rotatePlanes_spec_witness :
  rotatePlanes cos sin (fun _ => mkPlane fallbackNormal 1%R) 12%Z 0%R
    (fun _ => mkPlane fallbackNormal 0%R) 12%Z
  = mkPlane fallbackNormal 0%R.
Proof.
  apply (proj2 (rotatePlanes_spec cos sin (fun _ => mkPlane fallbackNormal 1%R)
                  12%Z 0%R (fun _ => mkPlane fallbackNormal 0%R))).
  lia.
Defined.

(** The ray [ahead] and the plane [farPlane]: a hit with no plane
    recorded. *)
Lemma tracePixel_cases_witness :
  tracePixel farPlane 1 ahead
    = option_map packColor (intensity (fallbackNormal (num := float))).
Proof.
  refine (proj2 (proj2 (proj2 (proj2 (tracePixel_cases farPlane 1 ahead)) _))).
  vm_compute. reflexivity.
Defined.

(** The fallback normal (0, 0, 1) against the normal along the light. *)
Lemma shading_monotone_clamped_witness :
  exists c1, intensity (fallbackNormal (num := float)) = Some c1
             /\ (c1 <= 255)%Z.
Proof.
  refine (proj1 shading_monotone_clamped fallbackNormal lightDir 255%Z _ _).
  - vm_compute. reflexivity.
  - vm_compute. reflexivity.
Defined.

Lemma val_finite (x : float) (s : bool) (m : positive) (e : Z) :
  Prim2SF x = S754_finite s m e ->
  (e <= 0)%Z ->
  val x = (IZR (if s then Z.neg m else Z.pos m) / IZR (2 ^ (- e)))%R.
Proof.
  intros Hx He. unfold val. rewrite Hx. unfold SF2R, F2R.
  replace (bpow e) with (/ IZR (2 ^ (- e)))%R.
  - destruct s; unfold Rdiv; [|reflexivity].
    change (Z.neg m) with (- Z.pos m)%Z. rewrite opp_IZR. ring.
  - rewrite <- bpow_IZR by lia. unfold bpow.
    replace e with (- - e)%Z at 2 by lia.
    rewrite (powerRZ_neg' 2 (- e)). reflexivity.
Qed.

(** The table of [cos] and [sin] meets what is assumed of [math.h]. *)
Lemma libm_accurate (a : float) :
  fle (fabs (libm_cos a)) (of_int 1) = true
  /\ fle (fabs (libm_sin a)) (of_int 1) = true
  /\ (Rabs (val (libm_cos a) * val (libm_cos a)
            + val (libm_sin a) * val (libm_sin a) - 1) <= bpow (-50))%R.
Proof.
  assert (Hb : bpow (-50) = (/ IZR (2 ^ 50))%R).
  { unfold bpow. rewrite <- (bpow_IZR 50) by lia. unfold bpow.
    apply (powerRZ_neg' 2 50). }
  rewrite Hb.
  unfold libm_cos, libm_sin.
  destruct (PrimFloat.eqb a 1).
  { split; [reflexivity|]. split; [reflexivity|].
    rewrite (val_finite 0x1.14a280fb5068cp-1%float false 4866610526750348
               (-53) eq_refl ltac:(lia)).
    rewrite (val_finite 0x1.aed548f090ceep-1%float false 7579296827247854
               (-53) eq_refl ltac:(lia)).
    change (2 ^ (- -53))%Z with 9007199254740992%Z.
    change (2 ^ 50)%Z with 1125899906842624%Z.
    apply Rabs_le. lra. }
  destruct (PrimFloat.eqb a 0.5).
  { split; [reflexivity|]. split; [reflexivity|].
    rewrite (val_finite 0x1.c1528065b7d5p-1%float false 7904560997432656
               (-53) eq_refl ltac:(lia)).
    rewrite (val_finite 0x1.eaee8744b05fp-2%float false 8636562708039152
               (-54) eq_refl ltac:(lia)).
    change (2 ^ (- -53))%Z with 9007199254740992%Z.
    change (2 ^ (- -54))%Z with 18014398509481984%Z.
    change (2 ^ 50)%Z with 1125899906842624%Z.
    apply Rabs_le. lra. }
  split; [reflexivity|]. split; [reflexivity|].
  rewrite (val_finite 1%float false 4503599627370496 (-52) eq_refl
             ltac:(lia)).
  change (val 0%float) with 0%R.
  change (2 ^ (- -52))%Z with 4503599627370496%Z.
  change (2 ^ 50)%Z with 1125899906842624%Z.
  apply Rabs_le. lra.
Qed.

(** The normal of the first face of the dodecahedron, turned by the
    angle 1: its length as a double is [1 - 2^-53]. *)
Lemma rotate_preserves_length_witness :
  let n := pn (fst (mainBasePlanes zeroPlanes) 0%Z) in
  let r := rotate libm_cos libm_sin n 1%float in
  magnitude 8 (Prim2SF (dot r r))
  /\ (Rabs (val (dot r r) - val (dot n n)) <= bpow (-42))%R
  /\ (Rabs (val (length r) - val (length n)) <= bpow (-39))%R
  /\ (Rabs (val (length r) - 1) <= bpow (-38))%R.
Proof.
  intros n r.
  assert (Hn : Prim2SF (length n)
               = S754_finite false 9007199254740991 (-53))
    by (vm_compute; reflexivity).
  assert (Hv : val (length n) = (9007199254740991 / 9007199254740992)%R)
    by (rewrite (val_finite _ _ _ _ Hn); [reflexivity | lia]).
  assert (H39 : bpow (-39) = (/ IZR (2 ^ 39))%R).
  { unfold bpow. rewrite <- (bpow_IZR 39) by lia. unfold bpow.
    apply (powerRZ_neg' 2 39). }
  change (2 ^ 39)%Z with 549755813888%Z in H39.
  assert (Hh : (bpow (-1) = / 2)%R) by (unfold bpow; simpl; lra).
  destruct (rotate_preserves_length libm_cos libm_sin n 1%float
              libm_accurate) as [H0 [H1 [H2 H3]]].
  - vm_compute. repeat split.
  - split; [exact H0|]. split; [exact H1|]. split.
    + apply H2. rewrite Hv, Hh. lra.
    + apply H3. rewrite Hv, H39. apply Rabs_le. lra.
Defined.

(** ** Further properties of the extractor, for every arithmetic *)

Lemma range_nil (lo hi : Z) : (hi <= lo)%Z -> range lo hi = [].
Proof.
  intros H. unfold range.
  replace (Z.to_nat (hi - lo)) with 0%nat by lia. reflexivity.
Qed.

(** Two loops over the same values keep a relation between their states. *)
Lemma fold_left_related {S1 S2 X : Type} (R : S1 -> S2 -> Prop)
    (f1 : S1 -> X -> S1) (f2 : S2 -> X -> S2) (l : list X)
    (s1 : S1) (s2 : S2) :
  R s1 s2 ->
  (forall a b x, In x l -> R a b -> R (f1 a x) (f2 b x)) ->
  R (fold_left f1 l s1) (fold_left f2 l s2).
Proof.
  revert s1 s2. induction l as [|x l IH]; intros s1 s2 H0 Hstep; simpl.
  - exact H0.
  - apply IH.
    + apply Hstep; [now left | exact H0].
    + intros a b y Hy. apply Hstep. now right.
Qed.

Section Extractor.

Context {num : Type} {D : Double num}.
Local Open Scope dbl_scope.

(** The body of the innermost loop: a candidate, the duplicate scan and the
    capacity test. *)
Lemma tryTriple_candidate (vertices : array (Vec3 num))
    (numVertices maxPlanes : Z) (i j k : Z) (planes : array (Plane num))
    (count : Z) :
  tryTriple vertices numVertices maxPlanes i j k (planes, count)
  = match candidate vertices numVertices i j k with
    | None => (planes, count)
    | Some (n, d) =>
        if negb (existsb (fun p => isDuplicate (planes p) n d)
                   (range 0 count))
           && Z.ltb count maxPlanes
        then (upd planes count (mkPlane n d), (count + 1)%Z)
        else (planes, count)
    end.
Proof.
  unfold tryTriple, candidate.
  destruct (length _ <? TOL); [reflexivity|].
  destruct (sideFlags _ _ _ _) as [allBelow allAbove].
  destruct (negb (allBelow || allAbove)); reflexivity.
Qed.

(** The three loops visit triples [0 <= i < j < k < numVertices] only. *)
Lemma computeBasePlanes_triples (P : extractor num -> Prop)
    (vertices : array (Vec3 num)) (numVertices : Z)
    (planes : array (Plane num)) (maxPlanes : Z) :
  P (planes, 0%Z) ->
  (forall i j k st, (0 <= i < j)%Z -> (j < k < numVertices)%Z -> P st ->
     P (tryTriple vertices numVertices maxPlanes i j k st)) ->
  P (computeBasePlanes vertices numVertices planes maxPlanes).
Proof.
  intros H0 Hstep. unfold computeBasePlanes.
  apply fold_left_invariant; [exact H0|]. intros st i Hi Hst.
  apply fold_left_invariant; [exact Hst|]. intros st' j Hj Hst'.
  apply fold_left_invariant; [exact Hst'|]. intros st'' k Hk Hst''.
  apply In_range in Hi, Hj, Hk. apply Hstep; [lia | lia | exact Hst''].
Qed.

(** Two runs on the same points keep a relation that one triple keeps. *)
Lemma computeBasePlanes_related (R : extractor num -> extractor num -> Prop)
    (vertices : array (Vec3 num)) (numVertices : Z)
    (planes1 planes2 : array (Plane num)) (max1 max2 : Z) :
  R (planes1, 0%Z) (planes2, 0%Z) ->
  (forall i j k st1 st2, R st1 st2 ->
     R (tryTriple vertices numVertices max1 i j k st1)
       (tryTriple vertices numVertices max2 i j k st2)) ->
  R (computeBasePlanes vertices numVertices planes1 max1)
    (computeBasePlanes vertices numVertices planes2 max2).
Proof.
  intros H0 Hstep. unfold computeBasePlanes.
  apply fold_left_related; [exact H0|]. intros a b i _ Hab.
  apply fold_left_related; [exact Hab|]. intros a' b' j _ Hab'.
  apply fold_left_related; [exact Hab'|]. intros a'' b'' k _ Hab''.
  now apply Hstep.
Qed.

(** The scan reads the accepted planes only. *)
Lemma scan_agree (count : Z) (a b : array (Plane num)) (n : Vec3 num)
    (d : num) :
  agree count a b ->
  existsb (fun p => isDuplicate (a p) n d) (range 0 count)
  = existsb (fun p => isDuplicate (b p) n d) (range 0 count).
Proof.
  intros Hab.
  assert (H : forall l : list Z,
    (forall p, In p l -> (0 <= p < count)%Z) ->
    existsb (fun p => isDuplicate (a p) n d) l
    = existsb (fun p => isDuplicate (b p) n d) l).
  { induction l as [|p l IH]; intros Hl; [reflexivity|]. simpl.
    rewrite (Hab p) by (apply Hl; now left).
    rewrite IH; [reflexivity|]. intros q Hq. apply Hl. now right. }
  apply H. intros p Hp. now apply In_range.
Qed.

(** X1: what [computeBasePlanes] returns does not depend on what the array
    [planes] held before the call: two calls on the same points with the
    same capacity return the same count and the same planes at the indices
    below the count. *)
Theorem computeBasePlanes_ignores_old_contents
    (vertices : array (Vec3 num)) (numVertices : Z)
    (planes1 planes2 : array (Plane num)) (maxPlanes : Z) :
  snd (computeBasePlanes vertices numVertices planes1 maxPlanes)
    = snd (computeBasePlanes vertices numVertices planes2 maxPlanes)
  /\ agree (snd (computeBasePlanes vertices numVertices planes1 maxPlanes))
       (fst (computeBasePlanes vertices numVertices planes1 maxPlanes))
       (fst (computeBasePlanes vertices numVertices planes2 maxPlanes)).
Proof.
  apply (computeBasePlanes_related
    (fun st1 st2 => snd st1 = snd st2 /\ agree (snd st1) (fst st1) (fst st2))).
  - split; [reflexivity|]. intros idx Hidx. simpl in Hidx. lia.
  - intros i j k [pl1 c1] [pl2 c2] [Hc Hag]. cbn [fst snd] in Hc, Hag.
    subst c2. rewrite !tryTriple_candidate.
    destruct (candidate vertices numVertices i j k) as [[n d]|];
      [|now split].
    rewrite (scan_agree c1 pl1 pl2 n d Hag).
    destruct (negb _ && Z.ltb c1 maxPlanes); [|now split].
    split; [reflexivity|]. cbn [fst snd]. intros idx Hidx.
    destruct (Z.eq_dec idx c1) as [-> | Hne].
    + now rewrite !upd_same.
    + rewrite !upd_other by exact Hne. apply Hag. lia.
Qed.

(** X2: a smaller capacity keeps a prefix: with [0 <= max1 <= max2], the
    call with capacity [max1] returns the smaller of [max1] and the count
    of the call with capacity [max2], and the same planes at the indices
    below that. *)
Theorem computeBasePlanes_capacity_prefix
    (vertices : array (Vec3 num)) (numVertices : Z)
    (planes1 planes2 : array (Plane num)) (max1 max2 : Z) :
  (0 <= max1 <= max2)%Z ->
  snd (computeBasePlanes vertices numVertices planes1 max1)
    = Z.min (snd (computeBasePlanes vertices numVertices planes2 max2)) max1
  /\ agree (snd (computeBasePlanes vertices numVertices planes1 max1))
       (fst (computeBasePlanes vertices numVertices planes1 max1))
       (fst (computeBasePlanes vertices numVertices planes2 max2)).
Proof.
  intros Hmax.
  apply (computeBasePlanes_related
    (fun st1 st2 => snd st1 = Z.min (snd st2) max1
                    /\ agree (snd st1) (fst st1) (fst st2))).
  - split; [simpl; lia|]. intros idx Hidx. simpl in Hidx. lia.
  - intros i j k [pl1 c1] [pl2 c2] [Hc Hag]. cbn [fst snd] in Hc, Hag.
    rewrite !tryTriple_candidate.
    destruct (candidate vertices numVertices i j k) as [[n d]|];
      [|now split].
    destruct (Z.lt_ge_cases c2 max1) as [Hlt | Hge].
    + assert (Hc2 : c2 = c1) by lia. clear Hc. subst c2.
      rewrite (scan_agree c1 pl1 pl2 n d Hag).
      destruct (Z.ltb_spec c1 max1); [|lia].
      destruct (Z.ltb_spec c1 max2); [|lia].
      destruct (negb _); cbn [andb];
        [|split; [cbn [fst snd]; lia | exact Hag]].
      split; [cbn [fst snd]; lia|]. cbn [fst snd]. intros idx Hidx.
      destruct (Z.eq_dec idx c1) as [-> | Hne].
      * now rewrite !upd_same.
      * rewrite !upd_other by exact Hne. apply Hag. lia.
    + assert (Hc1 : c1 = max1) by lia. clear Hc. subst c1.
      destruct (Z.ltb_spec max1 max1); [lia|]. rewrite andb_false_r.
      destruct (negb _ && Z.ltb c2 max2).
      * split; [cbn [fst snd]; lia|]. cbn [fst snd]. intros idx Hidx.
        rewrite upd_other by lia. now apply Hag.
      * split; [cbn [fst snd]; lia | exact Hag].
Qed.

(** X3: with fewer than three points, or with no room for a plane, the
    extractor returns the count 0 and the array as it was. *)
Theorem computeBasePlanes_nothing_to_do
    (vertices : array (Vec3 num)) (numVertices : Z)
    (planes : array (Plane num)) (maxPlanes : Z) :
  (numVertices <= 2)%Z \/ (maxPlanes <= 0)%Z ->
  computeBasePlanes vertices numVertices planes maxPlanes = (planes, 0%Z).
Proof.
  intros H.
  apply (computeBasePlanes_triples (fun st => st = (planes, 0%Z)));
    [reflexivity|].
  intros i j k st Hij Hjk ->.
  destruct H as [H | H]; [lia|].
  destruct (tryTriple_cases vertices numVertices maxPlanes i j k planes 0)
    as [Heq | [n [d [_ [Hlt _]]]]]; [exact Heq | lia].
Qed.

End Extractor.

Section ExtractorOrigin.

Context {num : Type} {D : Double num}.
Local Open Scope dbl_scope.

(** The flags of the loop over [m] are what the tests of the loop say. *)
Lemma sideFlags_tests (vertices : array (Vec3 num)) (numVertices : Z)
    (n : Vec3 num) (d : num) (m : Z) :
  (0 <= m < numVertices)%Z ->
  (fst (sideFlags vertices numVertices n d) = true ->
     (dot n (vertices m) - d >? TOL) = false)
  /\ (snd (sideFlags vertices numVertices n d) = true ->
        (dot n (vertices m) - d <? - TOL) = false).
Proof.
  intros Hm. apply In_range in Hm. unfold sideFlags.
  revert Hm. generalize (range 0 numVertices). intros l.
  assert (H : forall (l : list Z) (flags : bool * bool),
    let r := fold_left
      (fun flags m =>
         (if dot n (vertices m) - d >? TOL then false else fst flags,
          if dot n (vertices m) - d <? - TOL then false else snd flags))
      l flags in
    (fst r = true -> fst flags = true
       /\ forall x, In x l -> (dot n (vertices x) - d >? TOL) = false)
    /\ (snd r = true -> snd flags = true
          /\ forall x, In x l -> (dot n (vertices x) - d <? - TOL) = false)).
  { induction l0 as [|x l0 IH]; intros flags; simpl.
    - split; intros Hr; (split; [exact Hr | contradiction]).
    - destruct (IH (if dot n (vertices x) - d >? TOL then false
                    else fst flags,
                    if dot n (vertices x) - d <? - TOL then false
                    else snd flags)) as [IHb IHa].
      cbn [fst snd] in IHb, IHa. split; intros Hr.
      + destruct (IHb Hr) as [Hx Hl].
        destruct (dot n (vertices x) - d >? TOL) eqn:Ht; [discriminate|].
        split; [exact Hx|]. intros y [<- | Hy]; [exact Ht | now apply Hl].
      + destruct (IHa Hr) as [Hx Hl].
        destruct (dot n (vertices x) - d <? - TOL) eqn:Ht; [discriminate|].
        split; [exact Hx|]. intros y [<- | Hy]; [exact Ht | now apply Hl]. }
  intros Hm. destruct (H l (true, true)) as [Hb Ha]. split; intros Hr.
  - now apply Hb.
  - now apply Ha.
Qed.

(** Every plane the extractor returns is the candidate of a triple
    [i < j < k] of the points. *)
Lemma computeBasePlanes_origin (vertices : array (Vec3 num))
    (numVertices : Z) (planes : array (Plane num)) (maxPlanes : Z) (p : Z) :
  (0 <= p < snd (computeBasePlanes vertices numVertices planes maxPlanes))%Z ->
  exists i j k,
    (0 <= i < j)%Z /\ (j < k < numVertices)%Z
    /\ candidate vertices numVertices i j k
       = Some (pn (fst (computeBasePlanes vertices numVertices planes
                          maxPlanes) p),
               pd (fst (computeBasePlanes vertices numVertices planes
                          maxPlanes) p)).
Proof.
  revert p.
  apply (computeBasePlanes_triples
    (fun st => forall p, (0 <= p < snd st)%Z ->
       exists i j k,
         (0 <= i < j)%Z /\ (j < k < numVertices)%Z
         /\ candidate vertices numVertices i j k
            = Some (pn (fst st p), pd (fst st p)))).
  - intros p Hp. simpl in Hp. lia.
  - intros i j k [pl c] Hij Hjk Hst. cbn [fst snd] in Hst.
    rewrite tryTriple_candidate.
    destruct (candidate vertices numVertices i j k) as [[n d]|] eqn:Hcand;
      [|exact Hst].
    destruct (negb _ && Z.ltb c maxPlanes); [|exact Hst].
    cbn [fst snd]. intros p Hp.
    destruct (Z.eq_dec p c) as [-> | Hne].
    + rewrite upd_same. exists i, j, k. now repeat split.
    + rewrite upd_other by exact Hne. apply Hst. lia.
Qed.

(** X23: every plane that [computeBasePlanes] returns comes from a triple
    [i < j < k] of the points that passed the tests of the loop, as the
    arithmetic computes them: the cross product of the two edges is not
    shorter than the tolerance, and with [n] the normalized cross product
    and [d = dot(n, vertices[i])], either the plane is [(n, d)] and no
    point has [dot(n, p) - d > TOL], or it is the flipped [(-n, -d)] and
    no point has [dot(n, p) - d < -TOL]. *)
Theorem returned_planes_passed_the_tests (vertices : array (Vec3 num))
    (numVertices : Z) (planes : array (Plane num)) (maxPlanes : Z) (p : Z) :
  (0 <= p < snd (computeBasePlanes vertices numVertices planes maxPlanes))%Z ->
  exists i j k,
    (0 <= i < j)%Z /\ (j < k < numVertices)%Z
    /\ let c := cross (subtract (vertices j) (vertices i))
                      (subtract (vertices k) (vertices i)) in
       let n := normalize c in
       let d := dot n (vertices i) in
       (length c <? TOL) = false
       /\ ((fst (computeBasePlanes vertices numVertices planes maxPlanes) p
            = mkPlane n d
            /\ forall m, (0 <= m < numVertices)%Z ->
                 (dot n (vertices m) - d >? TOL) = false)
           \/ (fst (computeBasePlanes vertices numVertices planes maxPlanes) p
               = mkPlane (scale n (of_int (-1))) (- d)
               /\ forall m, (0 <= m < numVertices)%Z ->
                    (dot n (vertices m) - d <? - TOL) = false)).
Proof.
  intros Hp.
  destruct (computeBasePlanes_origin vertices numVertices planes maxPlanes
              p Hp) as [i [j [k [Hij [Hjk Hc]]]]].
  exists i, j, k. split; [exact Hij|]. split; [exact Hjk|].
  cbv zeta. unfold candidate in Hc.
  destruct (fst (computeBasePlanes vertices numVertices planes maxPlanes) p)
    as [qn qd]. cbn [pn pd] in Hc.
  set (c := cross (subtract (vertices j) (vertices i))
                  (subtract (vertices k) (vertices i))) in *.
  destruct (length c <? TOL); [discriminate|]. split; [reflexivity|].
  pose proof (sideFlags_tests vertices numVertices (normalize c)
                (dot (normalize c) (vertices i))) as Ht.
  destruct (sideFlags vertices numVertices (normalize c)
              (dot (normalize c) (vertices i))) as [allBelow allAbove].
  cbn [fst snd] in Ht.
  destruct (negb (allBelow || allAbove)) eqn:Hside; [discriminate|].
  apply negb_false_iff in Hside.
  destruct allAbove.
  - right. split; [congruence|]. intros m Hm. now apply (Ht m Hm).
  - rewrite orb_false_r in Hside. subst allBelow.
    left. split; [congruence|]. intros m Hm. now apply (Ht m Hm).
Qed.

End ExtractorOrigin.

(** ** The colour of a pixel *)

(** X17: for an intensity [c] between 0 and 255 the packed colour is grey:
    its red, green and blue bytes are all [c], and it is [c * 0x010101]. *)
Theorem packColor_is_grey (c : Z) :
  (0 <= c <= 255)%Z ->
  packColor c = (c * 0x010101)%Z
  /\ Z.land (Z.shiftr (packColor c) 16) 255 = c
  /\ Z.land (Z.shiftr (packColor c) 8) 255 = c
  /\ Z.land (packColor c) 255 = c.
Proof.
  intros Hc.
  assert (H : forallb
    (fun c => Z.eqb (packColor c) (c * 0x010101)
              && Z.eqb (Z.land (Z.shiftr (packColor c) 16) 255) c
              && Z.eqb (Z.land (Z.shiftr (packColor c) 8) 255) c
              && Z.eqb (Z.land (packColor c) 255) c)
    (range 0 256) = true) by (vm_compute; reflexivity).
  assert (Hin : In c (range 0 256)) by (apply In_range; lia).
  apply (proj1 (forallb_forall _ _) H) in Hin.
  repeat (apply andb_true_iff in Hin; destruct Hin as [Hin ?]).
  repeat split; now apply Z.eqb_eq.
Qed.

Lemma packColor_not_background (c : Z) :
  (0 <= c <= 255)%Z -> packColor c <> BACKGROUND.
Proof.
  intros Hc.
  assert (H : forallb (fun c => negb (Z.eqb (packColor c) BACKGROUND))
                (range 0 256) = true) by (vm_compute; reflexivity).
  assert (Hin : In c (range 0 256)) by (apply In_range; lia).
  apply (proj1 (forallb_forall _ _) H) in Hin.
  apply negb_true_iff in Hin. now apply Z.eqb_neq.
Qed.

(** X18: in binary64, for every plane set and every ray, the pixel is the
    background colour exactly when the miss test holds: a shaded pixel is
    never the background colour. *)
Theorem background_iff_missed (planes : array (Plane float))
    (numPlanes : Z) (dir : Vec3 float) :
  tracePixel planes numPlanes dir = Some BACKGROUND
  <-> missed (slabLoop planes numPlanes dir) = true.
Proof.
  unfold tracePixel.
  destruct (missed (slabLoop planes numPlanes dir)); [now split|].
  split; [|discriminate].
  destruct (intensity (surfNormal planes (slabLoop planes numPlanes dir)))
    as [c|] eqn:Hc; [|discriminate].
  apply intensity_range_binary64 in Hc. intros [= Hbg].
  now apply packColor_not_background in Hbg.
Qed.

(** X19: the dot product does not depend on the order of its arguments, in
    binary64 (bit for bit) as in exact arithmetic. *)
Theorem dot_is_symmetric :
  (forall a b : Vec3 float, dot a b = dot b a)
  /\ (forall a b : Vec3 R, dot a b = dot b a).
Proof.
  split; [exact dot_comm_binary64|].
  intros [ax ay az] [bx b_y bz]. unfold dot. cbn [vx vy vz]. exact_arith.
  ring.
Qed.

(** ** From the planes to the pixel, in binary64 *)

Lemma withinb_sound (b : float) (v : Vec3 float) :
  withinb b v = true -> within b v.
Proof.
  unfold withinb, within. intros H.
  apply andb_true_iff in H. destruct H as [H Hz].
  apply andb_true_iff in H. destruct H as [Hx Hy]. now repeat split.
Qed.

(** X24: in binary64, when the values of [cos] and [sin] are at most 1 in
    magnitude, [rotate] keeps a vector bounded: if each component of [v]
    is at most 2 in magnitude, each component of [rotate v angle] is at
    most 8 in magnitude, whatever the angle. *)
Theorem rotate_keeps_bounded (cos sin : float -> float) (v : Vec3 float)
    (angle : float) :
  (forall a, fle (fabs (cos a)) (of_int 1) = true
             /\ fle (fabs (sin a)) (of_int 1) = true) ->
  within 2 v -> within 8 (rotate cos sin v angle).
Proof. intros Hcs Hv. now apply rotate_within. Qed.

(** X20: in binary64, for base planes whose normals have components of
    magnitude at most 2 (a unit normal has), rotated by any angle with
    values of [cos] and [sin] of magnitude at most 1, the cast to [int] is
    defined for every ray: the pixel is the background colour or a grey
    with an intensity between 0 and 255. *)
Theorem frame_pixel_is_defined (cos sin : float -> float)
    (basePlanes : array (Plane float)) (numPlanes : Z) (angle : float)
    (rotatedPlanes : array (Plane float)) (dir : Vec3 float) :
  (forall a, fle (fabs (cos a)) (of_int 1) = true
             /\ fle (fabs (sin a)) (of_int 1) = true) ->
  (forall i, (0 <= i < numPlanes)%Z -> within 2 (pn (basePlanes i))) ->
  tracePixel
    (rotatePlanes cos sin basePlanes numPlanes angle rotatedPlanes)
    numPlanes dir
  = Some BACKGROUND
  \/ exists c,
       (0 <= c <= 255)%Z
       /\ tracePixel
            (rotatePlanes cos sin basePlanes numPlanes angle rotatedPlanes)
            numPlanes dir
          = Some (packColor c).
Proof.
  intros Hcs Hbase.
  set (rot := rotatePlanes cos sin basePlanes numPlanes angle rotatedPlanes).
  unfold tracePixel.
  destruct (missed (slabLoop rot numPlanes dir)); [now left|]. right.
  destruct (intensity_of_surfNormal cos sin Hcs basePlanes numPlanes angle
              rotatedPlanes dir Hbase) as [c [Hc Hb]]. fold rot in Hc.
  exists c. split; [exact Hb|].
  now rewrite Hc.
Qed.

(** ** The rounding error of the vector operations, in binary64 *)

(** X26: in binary64, for vectors with components of magnitude at most 2,
    [dot a b] is a finite number within [2^-47] of the dot product of the
    real numbers that the components stand for. *)
Theorem dot_rounding_error (a b : Vec3 float) :
  within 2 a -> within 2 b ->
  magnitude 4 (Prim2SF (dot a b))
  /\ (Rabs (val (dot a b)
            - (val (vx a) * val (vx b) + val (vy a) * val (vy b)
               + val (vz a) * val (vz b))) <= bpow (-47))%R.
Proof. intros Ha Hb. now apply dot_error. Qed.

(** X12: in binary64, for vectors with components of magnitude at most 2,
    [cross a b] is orthogonal to [a] and to [b] up to rounding: the two
    dot products are finite numbers of magnitude at most [2^-43].  (On the
    real numbers they are 0.) *)
Theorem cross_is_orthogonal (a b : Vec3 float) :
  within 2 a -> within 2 b ->
  (magnitude 6 (Prim2SF (dot (cross a b) a))
   /\ (Rabs (val (dot (cross a b) a)) <= bpow (-43))%R)
  /\ (magnitude 6 (Prim2SF (dot (cross a b) b))
      /\ (Rabs (val (dot (cross a b) b)) <= bpow (-43))%R).
Proof. intros Ha Hb. now apply cross_dot_error. Qed.

(** X25: in binary64, when the values of [cos] and [sin] are at most 1 in
    magnitude and the components of [v] at most 2, each component of
    [rotate v angle] is a finite number, at most 8 in magnitude, within
    [2^-48] of the formula of the source evaluated on the real numbers
    that [v] and the values of [cos] and [sin] stand for. *)
Theorem rotate_rounding_error (cos sin : float -> float) (v : Vec3 float)
    (angle : float) :
  (forall a, fle (fabs (cos a)) (of_int 1) = true
             /\ fle (fabs (sin a)) (of_int 1) = true) ->
  within 2 v ->
  let cA := val (cos angle) in
  let sA := val (sin angle) in
  let cB := val (cos (fmul angle lit_0_5)) in
  let sB := val (sin (fmul angle lit_0_5)) in
  let x := (cA * val (vx v) + sA * val (vz v))%R in
  let z := (- sA * val (vx v) + cA * val (vz v))%R in
  let y2 := (cB * val (vy v) - sB * z)%R in
  let z2 := (sB * val (vy v) + cB * z)%R in
  (magnitude 3 (Prim2SF (vx (rotate cos sin v angle)))
   /\ (Rabs (val (vx (rotate cos sin v angle)) - x) <= bpow (-48))%R)
  /\ (magnitude 3 (Prim2SF (vy (rotate cos sin v angle)))
      /\ (Rabs (val (vy (rotate cos sin v angle)) - y2) <= bpow (-48))%R)
  /\ (magnitude 3 (Prim2SF (vz (rotate cos sin v angle)))
      /\ (Rabs (val (vz (rotate cos sin v angle)) - z2) <= bpow (-48))%R).
Proof.
  intros Hcs Hv. cbv zeta.
  destruct (rotate_approx cos sin Hcs v angle Hv)
    as [[Hmx [Hex _]] [[Hmy [Hey _]] [Hmz [Hez _]]]].
  split; [|split]; (split; [assumption|]).
  - refine (ulp53_bpow 5 _ _ _ _ Hex); [lia | now vm_compute].
  - refine (ulp53_bpow 5 _ _ _ _ Hey); [lia | now vm_compute].
  - refine (ulp53_bpow 5 _ _ _ _ Hez); [lia | now vm_compute].
Qed.

(** X14: in binary64 the rotation keeps the dot product of two vectors up
    to rounding.  When the values of [cos] and [sin] are at most 1 in
    magnitude with [cos^2 + sin^2] within [2^-50] of 1, and the components
    of [a] and [b] are at most 2 in magnitude, the dot product of
    [rotate a angle] and [rotate b angle] is a finite number within
    [2^-42] of [dot a b]. *)
Theorem rotate_preserves_dot (cos sin : float -> float) (a b : Vec3 float)
    (angle : float) :
  (forall x,
     fle (fabs (cos x)) (of_int 1) = true
     /\ fle (fabs (sin x)) (of_int 1) = true
     /\ (Rabs (val (cos x) * val (cos x) + val (sin x) * val (sin x) - 1)
         <= bpow (-50))%R) ->
  within 2 a -> within 2 b ->
  magnitude 8 (Prim2SF (dot (rotate cos sin a angle) (rotate cos sin b angle)))
  /\ (Rabs (val (dot (rotate cos sin a angle) (rotate cos sin b angle))
            - val (dot a b)) <= bpow (-42))%R.
Proof.
  intros Hcs Ha Hb. apply rotate_dot; try assumption.
  - intros x. destruct (Hcs x) as [H1 [H2 _]]. now split.
  - intros x. apply Hcs.
Qed.

(** X15: in binary64, when [cos 0] is 1 and [sin 0] is a zero, rotating a
    vector of finite components by the angle 0 gives the same numbers:
    each component of [rotate v 0] is the double of [v], or both are zeros
    (the sign of a zero can change, as in [-0 + 0 = +0]).  When no
    component of [v] is a zero, [rotate v 0] is [v] bit for bit. *)
Theorem rotate_by_zero (cos sin : float -> float) (v : Vec3 float) :
  cos (of_int 0) = of_int 1 -> isZero (sin (of_int 0)) ->
  finite (vx v) -> finite (vy v) -> finite (vz v) ->
  sameNumber (vx (rotate cos sin v (of_int 0))) (vx v)
  /\ sameNumber (vy (rotate cos sin v (of_int 0))) (vy v)
  /\ sameNumber (vz (rotate cos sin v (of_int 0))) (vz v)
  /\ (~ isZero (vx v) -> ~ isZero (vy v) -> ~ isZero (vz v) ->
      rotate cos sin v (of_int 0) = v).
Proof.
  intros Hc Hs Fx Fy Fz.
  set (r := rotate cos sin v (of_int 0)).
  assert (H : sameNumber (vx r) (vx v) /\ sameNumber (vy r) (vy v)
              /\ sameNumber (vz r) (vz v))
    by exact (rotate_zero cos sin Hc Hs v Fx Fy Fz).
  destruct H as [Hx [Hy Hz]].
  split; [exact Hx|]. split; [exact Hy|]. split; [exact Hz|].
  intros Nx Ny Nz.
  pose proof (proj2 Hx Nx) as Ex. pose proof (proj2 Hy Ny) as Ey.
  pose proof (proj2 Hz Nz) as Ez.
  destruct v as [x y z]. destruct r as [x' y' z'].
  cbn [vx vy vz] in Ex, Ey, Ez. now rewrite Ex, Ey, Ez.
Qed.

(** X13: in binary64, [normalize] returns a unit vector up to rounding.
    For a vector [v] with components of magnitude at most 8 and a length
    of at least 1/4 (so the division is done), each component of
    [normalize v] is a finite number of magnitude at most 2, within
    [2^-51] of the component of [v] divided by [length v]; the squared
    length of [normalize v] is within [2^-38] of 1 and its length within
    [2^-37] of 1. *)
Theorem normalize_is_unit (v : Vec3 float) :
  within 8 v -> (/ 4 <= val (length v))%R ->
  within 2 (normalize v)
  /\ (Rabs (val (vx (normalize v)) - val (vx v) / val (length v))
      <= bpow (-51))%R
  /\ (Rabs (val (vy (normalize v)) - val (vy v) / val (length v))
      <= bpow (-51))%R
  /\ (Rabs (val (vz (normalize v)) - val (vz v) / val (length v))
      <= bpow (-51))%R
  /\ magnitude 4 (Prim2SF (dot (normalize v) (normalize v)))
  /\ (Rabs (val (dot (normalize v) (normalize v)) - 1) <= bpow (-38))%R
  /\ (Rabs (val (length (normalize v)) - 1) <= bpow (-37))%R.
Proof.
  intros Hv HL.
  destruct (normalize_error v Hv HL)
    as [_ [[Ax [Ay Az]] [Hm [Hd Hl]]]]. cbv zeta in Ax, Ay, Az.
  split.
  { split; [|split]; apply (leb_of_mag _ 2%float 1);
      try reflexivity; [apply Ax | apply Ay | apply Az]. }
  destruct Ax as [_ [Ex _]], Ay as [_ [Ey _]], Az as [_ [Ez _]].
  split; [refine (ulp53_bpow 2 _ _ _ _ Ex); [lia | now vm_compute]|].
  split; [refine (ulp53_bpow 2 _ _ _ _ Ey); [lia | now vm_compute]|].
  split; [refine (ulp53_bpow 2 _ _ _ _ Ez); [lia | now vm_compute]|].
  split; [exact Hm|]. split; [exact Hd | exact Hl].
Qed.

(** X16: in binary64, the ray through every pixel [(x, y)] of the window
    is a unit vector up to rounding that points forward: the components
    of [rayDir x y] are at most 2 in magnitude, the [z] component is above
    zero, the squared length is within [2^-38] of 1 and the length within
    [2^-37] of 1. *)
Theorem rayDir_is_unit_and_forward (x y : Z) :
  (0 <= x < WINDOW_WIDTH)%Z -> (0 <= y < WINDOW_HEIGHT)%Z ->
  within 2 (rayDir x y)
  /\ flt (of_int 0) (vz (rayDir x y)) = true
  /\ (Rabs (val (dot (rayDir x y) (rayDir x y)) - 1) <= bpow (-38))%R
  /\ (Rabs (val (length (rayDir x y)) - 1) <= bpow (-37))%R.
Proof. intros Hx Hy. now apply rayDir_unit. Qed.

(** ** The frame buffer *)

(** A loop that stores [g x] at the index [key x]. *)
Lemma fold_left_upd_key {X T : Type} (key : X -> Z) (g : X -> T)
    (l : list X) (a : array T) (j : Z) :
  ((forall x, In x l -> key x <> j) ->
     fold_left (fun b x => upd b (key x) (g x)) l a j = a j)
  /\ (forall x, In x l -> key x = j ->
        (forall x', In x' l -> key x' = j -> x' = x) ->
        fold_left (fun b x => upd b (key x) (g x)) l a j = g x).
Proof.
  revert a. induction l as [|y l IH]; intros a; cbn [fold_left In].
  - split; [reflexivity | contradiction].
  - destruct (IH (upd a (key y) (g y))) as [IHout IHin]. split.
    + intros Hn. rewrite IHout by (intros x Hx; apply Hn; now right).
      apply upd_other. intros Hj. now apply (Hn y); [left|].
    + intros x Hx Hk Huniq.
      destruct (in_dec Z.eq_dec j (map key l)) as [Hj | Hj].
      * apply in_map_iff in Hj. destruct Hj as [z [Hz Hzl]].
        assert (z = x) by (apply Huniq; [now right | exact Hz]). subst z.
        apply IHin; [exact Hzl | exact Hk |].
        intros x' Hx' Hk'. apply Huniq; [now right | exact Hk'].
      * rewrite IHout.
        -- destruct Hx as [-> | Hx].
           ++ rewrite Hk. apply upd_same.
           ++ exfalso. apply Hj. apply in_map_iff. now exists x.
        -- intros z Hz Hkz. apply Hj. apply in_map_iff. now exists z.
Qed.

Lemma NoDup_range (lo hi : Z) : NoDup (range lo hi).
Proof.
  unfold range. apply Injective_map_NoDup.
  - intros a b H. lia.
  - apply seq_NoDup.
Qed.

Lemma pixelIndex_unique (x y x' y' : Z) :
  (0 <= x < WINDOW_WIDTH)%Z -> (0 <= x' < WINDOW_WIDTH)%Z ->
  pixelIndex x y = pixelIndex x' y' -> x = x' /\ y = y'.
Proof. unfold pixelIndex, WINDOW_WIDTH. intros Hx Hx' H. lia. Qed.

Section Frame.

Context {num : Type} {D : Double num}.

Variables (planes : array (Plane num)) (numPlanes : Z).

(** One row of the frame. *)
Lemma renderRow (y : Z) (px : array (option Z)) (j : Z) :
  ((forall x, (0 <= x < WINDOW_WIDTH)%Z -> pixelIndex x y <> j) ->
     fold_left
       (fun px x =>
          upd px (pixelIndex x y) (renderPixel planes numPlanes x y))
       (range 0 WINDOW_WIDTH) px j = px j)
  /\ (forall x, (0 <= x < WINDOW_WIDTH)%Z -> pixelIndex x y = j ->
        fold_left
          (fun px x =>
             upd px (pixelIndex x y) (renderPixel planes numPlanes x y))
          (range 0 WINDOW_WIDTH) px j
        = renderPixel planes numPlanes x y).
Proof.
  destruct (fold_left_upd_key (fun x => pixelIndex x y)
              (fun x => renderPixel planes numPlanes x y)
              (range 0 WINDOW_WIDTH) px j) as [Hout Hin].
  split.
  - intros Hn. apply Hout. intros x Hx. apply Hn. now apply In_range.
  - intros x Hx Hk. apply Hin; [now apply In_range | exact Hk |].
    intros x' Hx' Hk'. apply In_range in Hx'.
    apply (pixelIndex_unique x' y x y); [exact Hx' | exact Hx |].
    now rewrite Hk, Hk'.
Qed.

Lemma renderRows (rows : list Z) (px : array (option Z)) (j : Z) :
  ((forall x y, (0 <= x < WINDOW_WIDTH)%Z -> In y rows ->
      pixelIndex x y <> j) ->
     fold_left
       (fun px y =>
          fold_left
            (fun px x =>
               upd px (pixelIndex x y) (renderPixel planes numPlanes x y))
            (range 0 WINDOW_WIDTH) px)
       rows px j = px j)
  /\ (NoDup rows ->
      forall x y, (0 <= x < WINDOW_WIDTH)%Z -> In y rows ->
        pixelIndex x y = j ->
        fold_left
          (fun px y =>
             fold_left
               (fun px x =>
                  upd px (pixelIndex x y)
                    (renderPixel planes numPlanes x y))
               (range 0 WINDOW_WIDTH) px)
          rows px j
        = renderPixel planes numPlanes x y).
Proof.
  revert px. induction rows as [|y0 rows IH]; intros px;
    cbn [fold_left In].
  - split; [reflexivity | intros _ x y _ []].
  - set (row := fold_left
                  (fun px x =>
                     upd px (pixelIndex x y0)
                       (renderPixel planes numPlanes x y0))
                  (range 0 WINDOW_WIDTH) px).
    destruct (IH row) as [IHout IHin].
    destruct (renderRow y0 px j) as [Rout Rin]. fold row in Rout, Rin.
    split.
    + intros Hn. rewrite IHout by (intros x y Hx Hy; apply Hn; auto).
      apply Rout. intros x Hx. apply Hn; auto.
    + intros Hnd x y Hx Hy Hk. apply NoDup_cons_iff in Hnd.
      destruct Hnd as [Hnotin Hnd'].
      destruct Hy as [<- | Hy].
      * rewrite IHout; [now apply Rin|].
        intros x' y' Hx' Hy' Hk'.
        destruct (pixelIndex_unique x' y' x y0 Hx' Hx) as [_ Hyy];
          [now rewrite Hk, Hk'|].
        subst y'. contradiction.
      * now apply IHin.
Qed.

(** X22: after the pixel loops of a frame, the entry
    [y * WINDOW_WIDTH + x] of the buffer holds the colour of the pixel
    [(x, y)], for each of the 800 x 600 pixels; every entry of the buffer
    from 0 to 479999 is the entry of one pixel; and no entry outside that
    range is written. *)
Theorem renderFrame_fills_the_buffer (pixels : array (option Z)) :
  (forall x y, (0 <= x < WINDOW_WIDTH)%Z -> (0 <= y < WINDOW_HEIGHT)%Z ->
     (0 <= pixelIndex x y < WINDOW_WIDTH * WINDOW_HEIGHT)%Z
     /\ renderFrame planes numPlanes pixels (pixelIndex x y)
        = renderPixel planes numPlanes x y)
  /\ (forall idx, (0 <= idx < WINDOW_WIDTH * WINDOW_HEIGHT)%Z ->
        exists x y, (0 <= x < WINDOW_WIDTH)%Z /\ (0 <= y < WINDOW_HEIGHT)%Z
                    /\ idx = pixelIndex x y)
  /\ (forall idx, ~ (0 <= idx < WINDOW_WIDTH * WINDOW_HEIGHT)%Z ->
        renderFrame planes numPlanes pixels idx = pixels idx).
Proof.
  split; [|split].
  - intros x y Hx Hy. split.
    + unfold pixelIndex, WINDOW_WIDTH, WINDOW_HEIGHT in *. lia.
    + unfold renderFrame.
      apply (proj2 (renderRows (range 0 WINDOW_HEIGHT) pixels
                      (pixelIndex x y)) (NoDup_range _ _) x y Hx);
        [now apply In_range | reflexivity].
  - intros idx Hidx. exists (idx mod WINDOW_WIDTH)%Z, (idx / WINDOW_WIDTH)%Z.
    unfold pixelIndex, WINDOW_WIDTH, WINDOW_HEIGHT in *.
    pose proof (Z.mod_pos_bound idx 800 ltac:(lia)) as Hm.
    pose proof (Z.div_mod idx 800 ltac:(lia)) as Hd.
    split; [lia|]. split; [|lia].
    split; [apply Z.div_pos; lia|].
    apply Z.div_lt_upper_bound; lia.
  - intros idx Hidx. unfold renderFrame.
    apply (proj1 (renderRows (range 0 WINDOW_HEIGHT) pixels idx)).
    intros x y Hx Hy Hk. apply In_range in Hy. apply Hidx.
    unfold pixelIndex, WINDOW_WIDTH, WINDOW_HEIGHT in *. lia.
Qed.

End Frame.

(** ** The slab interval in binary64 *)

Lemma ltb_not_nan (a b : float) :
  PrimFloat.ltb a b = true ->
  Prim2SF a <> S754_nan /\ Prim2SF b <> S754_nan.
Proof.
  rewrite ltb_spec.
  destruct (Prim2SF a), (Prim2SF b); cbn; intros H; split;
    discriminate.
Qed.

(** X21: in binary64, for every plane set and every ray, [tNear] and [tFar]
    are never NaN after the slab loop: a crossing parameter that is NaN
    fails both comparisons and is not stored, so the miss test compares
    numbers. *)
Theorem slabLoop_is_never_nan (planes : array (Plane float))
    (numPlanes : Z) (dir : Vec3 float) :
  Prim2SF (tNear (slabLoop planes numPlanes dir)) <> S754_nan
  /\ Prim2SF (tFar (slabLoop planes numPlanes dir)) <> S754_nan.
Proof.
  unfold slabLoop.
  apply (fold_left_invariant
    (fun s : slab float =>
       Prim2SF (tNear s) <> S754_nan /\ Prim2SF (tFar s) <> S754_nan)).
  - split; vm_compute; discriminate.
  - intros s i _ [Hn Hf]. unfold slabStep.
    destruct (flt (fabs (denomOf (planes i) dir)) TOL); [now split|].
    destruct (flt (denomOf (planes i) dir) (of_int 0)).
    + destruct (flt (tNear s) (crossing (planes i) dir)) eqn:Ht;
        [|now split].
      cbn [tNear tFar]. split; [|exact Hf].
      now apply (ltb_not_nan _ _ Ht).
    + destruct (flt (crossing (planes i) dir) (tFar s)) eqn:Ht;
        [|now split].
      cbn [tNear tFar]. split; [exact Hn|].
      now apply (ltb_not_nan _ _ Ht).
Qed.

(** *** What the slab loop keeps *)

Section Binary64Slab.

Variables (planes : array (Plane float)) (dir : Vec3 float).

Lemma not_ltb_after (a b c : float) :
  PrimFloat.ltb a c = false -> PrimFloat.ltb a b = true ->
  PrimFloat.ltb b c = false.
Proof.
  intros Hac Hab. destruct (PrimFloat.ltb b c) eqn:Hbc; [|reflexivity].
  now rewrite (ltb_trans_binary64 _ _ _ Hab Hbc) in Hac.
Qed.

Lemma not_ltb_before (a b c : float) :
  PrimFloat.ltb a c = false -> PrimFloat.ltb b c = true ->
  PrimFloat.ltb a b = false.
Proof.
  intros Hac Hbc. destruct (PrimFloat.ltb a b) eqn:Hab; [|reflexivity].
  now rewrite (ltb_trans_binary64 _ _ _ Hab Hbc) in Hac.
Qed.

Lemma slabStep_clipped (l : list Z) (s : slab float) (x : Z) :
  clipped planes dir l s ->
  clipped planes dir (l ++ [x]) (slabStep planes dir s x).
Proof.
  unfold clipped, slabStep. cbn [flt fabs double].
  intros [Hn [Hf [Hlo [Hhi Hall]]]].
  destruct (PrimFloat.ltb (PrimFloat.abs (denomOf (planes x) dir)) TOL)
    eqn:Hpar.
  { repeat (split; [assumption|]). intros i Hi Hp.
    apply in_app_or in Hi. destruct Hi as [Hi | [<- | []]];
      [now apply Hall | congruence]. }
  destruct (PrimFloat.ltb (denomOf (planes x) dir) (of_int 0)) eqn:Hneg.
  - destruct (PrimFloat.ltb (tNear s) (crossing (planes x) dir)) eqn:Ht.
    + cbn [tNear tFar]. split; [now apply (ltb_not_nan _ _ Ht)|].
      split; [exact Hf|].
      split; [now apply (not_ltb_after _ _ _ Hlo Ht)|].
      split; [exact Hhi|]. intros i Hi Hp.
      apply in_app_or in Hi. destruct Hi as [Hi | [<- | []]].
      * destruct (Hall i Hi Hp) as [He Hl]. split; [|exact Hl].
        intros Hd. now apply (not_ltb_after _ _ _ (He Hd) Ht).
      * split; [intros _; apply ltb_irrefl_binary64 | congruence].
    + repeat (split; [assumption|]). intros i Hi Hp.
      apply in_app_or in Hi. destruct Hi as [Hi | [<- | []]];
        [now apply Hall|].
      split; [intros _; exact Ht | congruence].
  - destruct (PrimFloat.ltb (crossing (planes x) dir) (tFar s)) eqn:Ht.
    + cbn [tNear tFar]. split; [exact Hn|].
      split; [now apply (ltb_not_nan _ _ Ht)|].
      split; [exact Hlo|].
      split; [now apply (not_ltb_before _ _ _ Hhi Ht)|].
      intros i Hi Hp.
      apply in_app_or in Hi. destruct Hi as [Hi | [<- | []]].
      * destruct (Hall i Hi Hp) as [He Hl]. split; [exact He|].
        intros Hd. now apply (not_ltb_before _ _ _ (Hl Hd) Ht).
      * split; [congruence | intros _; apply ltb_irrefl_binary64].
    + repeat (split; [assumption|]). intros i Hi Hp.
      apply in_app_or in Hi. destruct Hi as [Hi | [<- | []]];
        [now apply Hall|].
      split; [congruence | intros _; exact Ht].
Qed.

Lemma slabFold_clipped (l done : list Z) (s : slab float) :
  clipped planes dir done s ->
  clipped planes dir (done ++ l) (fold_left (slabStep planes dir) l s).
Proof.
  revert done s. induction l as [|x l IH]; intros done s Hs;
    cbn [fold_left].
  - now rewrite app_nil_r.
  - replace (done ++ x :: l) with ((done ++ [x]) ++ l)
      by (now rewrite <- app_assoc).
    apply IH. now apply slabStep_clipped.
Qed.

Lemma slabLoop_clipped (numPlanes : Z) :
  clipped planes dir (range 0 numPlanes) (slabLoop planes numPlanes dir).
Proof.
  unfold slabLoop. apply (slabFold_clipped (range 0 numPlanes) []).
  split; [vm_compute; discriminate|].
  split; [vm_compute; discriminate|].
  split; [vm_compute; reflexivity|].
  split; [vm_compute; reflexivity|]. intros i [].
Qed.

(** X8: in binary64, for every plane set and every ray, after the slab
    loop [tNear] is at least [-1e9] and [tFar] at most [1e9]; and for
    every plane of the set that passes the test [fabs(denom) >= TOL], the
    crossing parameter is NaN or it bounds the interval: it is at most
    [tNear] when the ray enters the plane ([denom < 0]) and at least
    [tFar] when it does not. *)
Theorem slabLoop_clips_every_plane (numPlanes : Z) :
  fle (fneg lit_1e9) (tNear (slabLoop planes numPlanes dir)) = true
  /\ fle (tFar (slabLoop planes numPlanes dir)) lit_1e9 = true
  /\ forall i, (0 <= i < numPlanes)%Z ->
       flt (fabs (denomOf (planes i) dir)) TOL = false ->
       (flt (denomOf (planes i) dir) (of_int 0) = true ->
          Prim2SF (crossing (planes i) dir) = S754_nan
          \/ fle (crossing (planes i) dir)
                 (tNear (slabLoop planes numPlanes dir)) = true)
       /\ (flt (denomOf (planes i) dir) (of_int 0) = false ->
             Prim2SF (crossing (planes i) dir) = S754_nan
             \/ fle (tFar (slabLoop planes numPlanes dir))
                    (crossing (planes i) dir) = true).
Proof.
  destruct (slabLoop_clipped numPlanes) as [Hn [Hf [Hlo [Hhi Hall]]]].
  set (s := slabLoop planes numPlanes dir) in *.
  assert (Hnan : forall x : float,
            Prim2SF x = S754_nan \/ Prim2SF x <> S754_nan)
    by (intros x; destruct (Prim2SF x); (now left) || (right; discriminate)).
  split; [|split].
  - apply ltb_false_leb_binary64; [exact Hn | vm_compute; discriminate |].
    exact Hlo.
  - apply ltb_false_leb_binary64; [vm_compute; discriminate | exact Hf |].
    exact Hhi.
  - intros i Hi Hpar. apply In_range in Hi.
    destruct (Hall i Hi Hpar) as [He Hl].
    destruct (Hnan (crossing (planes i) dir)) as [Hc | Hc].
    + split; intros _; now left.
    + split; intros Hd; right.
      * apply ltb_false_leb_binary64; [exact Hn | exact Hc | now apply He].
      * apply ltb_false_leb_binary64; [exact Hc | exact Hf | now apply Hl].
Qed.

(** X9: in binary64, for every plane set and every ray, when a pixel is
    shaded the hit parameter is not negative and lies between [tNear] and
    [tFar]. *)
Theorem hit_is_in_front_of_the_eye (numPlanes : Z) :
  missed (slabLoop planes numPlanes dir) = false ->
  fle (of_int 0) (tHit (slabLoop planes numPlanes dir)) = true
  /\ fle (tNear (slabLoop planes numPlanes dir))
         (tHit (slabLoop planes numPlanes dir)) = true
  /\ fle (tHit (slabLoop planes numPlanes dir))
         (tFar (slabLoop planes numPlanes dir)) = true.
Proof.
  destruct (slabLoop_clipped numPlanes) as [Hn [Hf _]].
  set (s := slabLoop planes numPlanes dir) in *.
  unfold missed, tHit. cbn [flt fle double]. intros Hm.
  apply orb_false_iff in Hm. destruct Hm as [Hm1 Hm2].
  assert (Hnf : PrimFloat.leb (tNear s) (tFar s) = true)
    by (now apply ltb_false_leb_binary64).
  destruct (PrimFloat.leb (of_int 0) (tNear s)) eqn:H0.
  - split; [exact H0|]. split; [now apply leb_refl_binary64 | exact Hnf].
  - split; [|split; [exact Hnf | now apply leb_refl_binary64]].
    apply ltb_false_leb_binary64;
      [exact Hf | vm_compute; discriminate | exact Hm2].
Qed.

End Binary64Slab.

(** ** The further properties at concrete inputs *)

(** Room for five planes against room for thirty, on the dodecahedron. *)
Lemma computeBasePlanes_capacity_prefix_witness :
  snd (computeBasePlanes mainVertices 20 zeroPlanes 5)
    = Z.min (snd (computeBasePlanes mainVertices 20 zeroPlanes 30)) 5
  /\ agree (snd (computeBasePlanes mainVertices 20 zeroPlanes 5))
       (fst (computeBasePlanes mainVertices 20 zeroPlanes 5))
       (fst (computeBasePlanes mainVertices 20 zeroPlanes 30)).
Proof.
  apply (computeBasePlanes_capacity_prefix mainVertices 20 zeroPlanes
           zeroPlanes 5 30).
  lia.
Defined.

(** Two points only. *)
Lemma computeBasePlanes_nothing_to_do_witness :
  computeBasePlanes mainVertices 2 zeroPlanes 30 = (zeroPlanes, 0%Z).
Proof. apply computeBasePlanes_nothing_to_do. left. lia. Defined.

(** The first plane of the dodecahedron. *)
Lemma returned_planes_passed_the_tests_witness :
  exists i j k,
    (0 <= i < j)%Z /\ (j < k < 20)%Z
    /\ let c := cross (subtract (mainVertices j) (mainVertices i))
                      (subtract (mainVertices k) (mainVertices i)) in
       let n := normalize c in
       let d := dot n (mainVertices i) in
       flt (length c) TOL = false
       /\ ((fst (computeBasePlanes mainVertices 20 zeroPlanes 30) 0%Z
            = mkPlane n d
            /\ forall m, (0 <= m < 20)%Z ->
                 flt TOL (fsub (dot n (mainVertices m)) d) = false)
           \/ (fst (computeBasePlanes mainVertices 20 zeroPlanes 30) 0%Z
               = mkPlane (scale n (of_int (-1))) (fneg d)
               /\ forall m, (0 <= m < 20)%Z ->
                    flt (fsub (dot n (mainVertices m)) d) (fneg TOL)
                    = false)).
Proof.
  refine (returned_planes_passed_the_tests mainVertices 20 zeroPlanes 30
            0%Z _).
  vm_compute. split; [discriminate | reflexivity].
Defined.

(** The ray through the middle of the window and the unrotated
    dodecahedron. *)
Lemma hit_is_in_front_of_the_eye_witness :
  fle (of_int 0)
      (tHit (slabLoop (fst (mainBasePlanes zeroPlanes)) 12 ahead)) = true
  /\ fle (tNear (slabLoop (fst (mainBasePlanes zeroPlanes)) 12 ahead))
         (tHit (slabLoop (fst (mainBasePlanes zeroPlanes)) 12 ahead)) = true
  /\ fle (tHit (slabLoop (fst (mainBasePlanes zeroPlanes)) 12 ahead))
         (tFar (slabLoop (fst (mainBasePlanes zeroPlanes)) 12 ahead)) = true.
Proof.
  refine (hit_is_in_front_of_the_eye (fst (mainBasePlanes zeroPlanes)) ahead
            12 _).
  vm_compute. reflexivity.
Defined.

Lemma libm_within (a : float) :
  fle (fabs (libm_cos a)) (of_int 1) = true
  /\ fle (fabs (libm_sin a)) (of_int 1) = true.
Proof.
  unfold libm_cos, libm_sin.
  destruct (PrimFloat.eqb a 1); [vm_compute; split; reflexivity|].
  destruct (PrimFloat.eqb a 0.5); vm_compute; split; reflexivity.
Defined.

Lemma dodecahedron_within (i : Z) :
  (0 <= i < 12)%Z -> within 2 (pn (fst (mainBasePlanes zeroPlanes) i)).
Proof.
  intros Hi. apply withinb_sound.
  assert (H : forallb
                (fun i => withinb 2 (pn (fst (mainBasePlanes zeroPlanes) i)))
                (range 0 12) = true) by (vm_compute; reflexivity).
  apply (proj1 (forallb_forall _ _) H). now apply In_range.
Defined.

(** The vector (1, 1, 1) turned by the angle 1. *)
Lemma rotate_keeps_bounded_witness :
  within 8 (rotate libm_cos libm_sin diagonal 1%float).
Proof.
  refine (rotate_keeps_bounded libm_cos libm_sin diagonal 1%float _ _).
  - exact libm_within.
  - vm_compute. repeat split.
Defined.

(** The dodecahedron turned by the angle 1, and the ray through the middle
    of the window. *)
Lemma frame_pixel_is_defined_witness :
  tracePixel
    (rotatePlanes libm_cos libm_sin (fst (mainBasePlanes zeroPlanes)) 12
       1%float zeroPlanes)
    12 ahead
  = Some BACKGROUND
  \/ exists c,
       (0 <= c <= 255)%Z
       /\ tracePixel
            (rotatePlanes libm_cos libm_sin (fst (mainBasePlanes zeroPlanes))
               12 1%float zeroPlanes)
            12 ahead
          = Some (packColor c).
Proof.
  refine (frame_pixel_is_defined libm_cos libm_sin
            (fst (mainBasePlanes zeroPlanes)) 12 1%float zeroPlanes ahead
            _ _).
  - exact libm_within.
  - exact dodecahedron_within.
Defined.

(** The vector (1, 1, 1) against the light. *)
Lemma dot_rounding_error_witness :
  magnitude 4 (Prim2SF (dot diagonal lightDir))
  /\ (Rabs (val (dot diagonal lightDir)
            - (val (vx diagonal) * val (vx lightDir)
               + val (vy diagonal) * val (vy lightDir)
               + val (vz diagonal) * val (vz lightDir))) <= bpow (-47))%R.
Proof.
  refine (dot_rounding_error diagonal lightDir _ _);
    vm_compute; repeat split.
Defined.

(** The cross product of (1, 1, 1) and the light. *)
Lemma cross_is_orthogonal_witness :
  (magnitude 6 (Prim2SF (dot (cross diagonal lightDir) diagonal))
   /\ (Rabs (val (dot (cross diagonal lightDir) diagonal))
       <= bpow (-43))%R)
  /\ (magnitude 6 (Prim2SF (dot (cross diagonal lightDir) lightDir))
      /\ (Rabs (val (dot (cross diagonal lightDir) lightDir))
          <= bpow (-43))%R).
Proof.
  refine (cross_is_orthogonal diagonal lightDir _ _);
    vm_compute; repeat split.
Defined.

(** The first component of (1, 1, 1) turned by the angle 1. *)
Lemma rotate_rounding_error_witness :
  magnitude 3 (Prim2SF (vx (rotate libm_cos libm_sin diagonal 1%float)))
  /\ (Rabs (val (vx (rotate libm_cos libm_sin diagonal 1%float))
            - (val (libm_cos 1%float) * val (vx diagonal)
               + val (libm_sin 1%float) * val (vz diagonal)))
      <= bpow (-48))%R.
Proof.
  refine (proj1 (rotate_rounding_error libm_cos libm_sin diagonal 1%float
                   libm_within _)).
  vm_compute. repeat split.
Defined.

(** The vector (1, 1, 1) and the light, both turned by the angle 1. *)
Lemma rotate_preserves_dot_witness :
  magnitude 8
    (Prim2SF (dot (rotate libm_cos libm_sin diagonal 1%float)
                (rotate libm_cos libm_sin lightDir 1%float)))
  /\ (Rabs (val (dot (rotate libm_cos libm_sin diagonal 1%float)
                   (rotate libm_cos libm_sin lightDir 1%float))
            - val (dot diagonal lightDir)) <= bpow (-42))%R.
Proof.
  refine (rotate_preserves_dot libm_cos libm_sin diagonal lightDir 1%float
            libm_accurate _ _);
    vm_compute; repeat split.
Defined.

(** The vector (1, 1, 1) turned by the angle 0. *)
Lemma rotate_by_zero_witness :
  rotate libm_cos libm_sin diagonal (of_int 0) = diagonal.
Proof.
  refine (proj2 (proj2 (proj2
            (rotate_by_zero libm_cos libm_sin diagonal _ _ _ _ _))) _ _ _).
  - vm_compute. reflexivity.
  - vm_compute. exact I.
  - vm_compute. exact I.
  - vm_compute. exact I.
  - vm_compute. exact I.
  - vm_compute. intros H. exact H.
  - vm_compute. intros H. exact H.
  - vm_compute. intros H. exact H.
Defined.

(** The vector (1, 1, 1), of length about 1.73. *)
Lemma normalize_is_unit_witness :
  within 2 (normalize diagonal)
  /\ (Rabs (val (dot (normalize diagonal) (normalize diagonal)) - 1)
      <= bpow (-38))%R
  /\ (Rabs (val (length (normalize diagonal)) - 1) <= bpow (-37))%R.
Proof.
  assert (Hn : Prim2SF (length diagonal)
               = S754_finite false 7800463371553962 (-52))
    by (vm_compute; reflexivity).
  destruct (normalize_is_unit diagonal) as [H1 [_ [_ [_ [_ [H2 H3]]]]]].
  - vm_compute. repeat split.
  - rewrite (val_finite _ _ _ _ Hn) by lia.
    change (2 ^ (- -52))%Z with 4503599627370496%Z. lra.
  - split; [exact H1|]. split; [exact H2 | exact H3].
Defined.

(** The pixel in the top left corner of the window. *)
Lemma rayDir_is_unit_and_forward_witness :
  within 2 (rayDir 0 0)
  /\ flt (of_int 0) (vz (rayDir 0 0)) = true
  /\ (Rabs (val (dot (rayDir 0 0) (rayDir 0 0)) - 1) <= bpow (-38))%R
  /\ (Rabs (val (length (rayDir 0 0)) - 1) <= bpow (-37))%R.
Proof.
  refine (rayDir_is_unit_and_forward 0 0 _ _).
  - unfold WINDOW_WIDTH. lia.
  - unfold WINDOW_HEIGHT. lia.
Defined.

(** The intensity 147. *)
Lemma packColor_is_grey_witness :
  packColor 147 = (147 * 0x010101)%Z
  /\ Z.land (Z.shiftr (packColor 147) 16) 255 = 147%Z
  /\ Z.land (Z.shiftr (packColor 147) 8) 255 = 147%Z
  /\ Z.land (packColor 147) 255 = 147%Z.
Proof. apply packColor_is_grey. lia. Defined.

(** The pixel in the middle of the frame of the unrotated dodecahedron. *)
Lemma renderFrame_fills_the_buffer_witness :
  (0 <= pixelIndex 400 300 < WINDOW_WIDTH * WINDOW_HEIGHT)%Z
  /\ renderFrame (fst (mainBasePlanes zeroPlanes)) 12 (fun _ => None)
       (pixelIndex 400 300)
     = renderPixel (fst (mainBasePlanes zeroPlanes)) 12 400 300.
Proof.
  apply (proj1 (renderFrame_fills_the_buffer
                  (fst (mainBasePlanes zeroPlanes)) 12 (fun _ => None))).
  - unfold WINDOW_WIDTH. lia.
  - unfold WINDOW_HEIGHT. lia.
Defined.
